(** * dropbox_sqlite_ext: extraction of the bundled SQLite extension

    A shallow embedding of [dropbox_sqlite_ext/__init__.py] (class
    [DropboxSqliteExtension]) and the properties of its extraction and
    locking protocol.

    The Python code talks to the operating system, to [pkg_resources], to
    [tempfile] and to the tracing sink.  Those calls are the nodes of a
    program tree ([Prog]); what they answer is left to an [OS] instance, so
    that every theorem below holds whatever the environment answers. *)

From Stdlib Require Import ZArith String Ascii List Lia Bool.
From stdpp Require Import base strings list gmap.
Import ListNotations.

Local Open Scope string_scope.
Local Open Scope Z_scope.
Local Open Scope list_scope.

(* ===================================================================== *)
(** * Byte strings                                                        *)
(* ===================================================================== *)

(** Python 2 [str] values are byte strings: [string] here. *)

Module pystr.

Definition bytes_of (s : string) : list Z :=
  map (fun a => Z.of_N (N_of_ascii a)) (list_ascii_of_string s).

(** [s.lower()] on one byte: only ASCII [A-Z] change. *)
Definition lower_ascii (a : ascii) : ascii :=
  let n := N_of_ascii a in
  if (65 <=? n)%N && (n <=? 90)%N then ascii_of_N (n + 32) else a.

Fixpoint lower (s : string) : string :=
  match s with
  | EmptyString => EmptyString
  | String a r => String (lower_ascii a) (lower r)
  end.

(** Equality of two strings up to ASCII case, as [re.I] compares. *)
Definition ieq (s t : string) : bool := String.eqb (lower s) (lower t).

(** [s[:n]] and [s[n:]]. *)
Definition take (n : nat) (s : string) : string := String.substring 0 n s.
Definition drop (n : nat) (s : string) : string :=
  String.substring n (String.length s - n) s.

(** [s.startswith(p)] *)
Definition startswith (p s : string) : bool := String.prefix p s.

(** The last byte of [s], if any. *)
Fixpoint last (s : string) : option ascii :=
  match s with
  | EmptyString => None
  | String c r =>
      match last r with
      | Some x => Some x
      | None => Some c
      end
  end.

End pystr.

(* ===================================================================== *)
(** * [uuid.uuid5]: SHA-1 name hashing                                    *)
(* ===================================================================== *)

Module sha1.

Definition w32 (x : Z) : Z := Z.land x 0xFFFFFFFF.

Definition rotl (n x : Z) : Z :=
  w32 (Z.lor (Z.shiftl x n) (Z.shiftr x (32 - n))).

(** Big-endian bytes of an [n]-byte integer. *)
Fixpoint be_bytes (n : nat) (x : Z) : list Z :=
  match n with
  | O => []
  | S k => Z.land (Z.shiftr x (8 * Z.of_nat k)) 0xFF :: be_bytes k x
  end.

Fixpoint be_int (acc : Z) (bs : list Z) : Z :=
  match bs with
  | [] => acc
  | b :: r => be_int (Z.lor (Z.shiftl acc 8) b) r
  end.

(** Message padding: a [0x80] byte, zeros up to 56 mod 64, the bit length. *)
Definition pad (msg : list Z) : list Z :=
  let l := Z.of_nat (List.length msg) in
  let z := Z.to_nat ((55 - l) mod 64) in
  msg ++ [0x80] ++ repeat 0 z ++ be_bytes 8 (8 * l).

Fixpoint words (n : nat) (bs : list Z) : list Z :=
  match n with
  | O => []
  | S k => be_int 0 (firstn 4 bs) :: words k (skipn 4 bs)
  end.

(** The message schedule, most recent word first. *)
Fixpoint schedule (n : nat) (rev_w : list Z) : list Z :=
  match n with
  | O => rev_w
  | S k =>
      let g i := nth i rev_w 0 in
      let w := rotl 1 (Z.lxor (Z.lxor (g 2%nat) (g 7%nat))
                              (Z.lxor (g 13%nat) (g 15%nat))) in
      schedule k (w :: rev_w)
  end.

Record regs := { ra : Z; rb : Z; rc : Z; rd : Z; re : Z }.

Definition round (t : nat) (w : Z) (r : regs) : regs :=
  let '(f, k) :=
    if (t <? 20)%nat then
      (Z.lor (Z.land (rb r) (rc r)) (Z.land (Z.lxor (rb r) 0xFFFFFFFF) (rd r)),
       0x5A827999)
    else if (t <? 40)%nat then
      (Z.lxor (Z.lxor (rb r) (rc r)) (rd r), 0x6ED9EBA1)
    else if (t <? 60)%nat then
      (Z.lor (Z.lor (Z.land (rb r) (rc r)) (Z.land (rb r) (rd r)))
             (Z.land (rc r) (rd r)), 0x8F1BBCDC)
    else
      (Z.lxor (Z.lxor (rb r) (rc r)) (rd r), 0xCA62C1D6) in
  {| ra := w32 (rotl 5 (ra r) + f + re r + k + w);
     rb := ra r;
     rc := rotl 30 (rb r);
     rd := rc r;
     re := rd r |}.

Fixpoint rounds (t : nat) (ws : list Z) (r : regs) : regs :=
  match ws with
  | [] => r
  | w :: rest => rounds (S t) rest (round t w r)
  end.

Definition block (h : regs) (bs : list Z) : regs :=
  let ws := rev (schedule 64 (rev (words 16 bs))) in
  let r := rounds 0 ws h in
  {| ra := w32 (ra h + ra r); rb := w32 (rb h + rb r);
     rc := w32 (rc h + rc r); rd := w32 (rd h + rd r);
     re := w32 (re h + re r) |}.

Fixpoint blocks (n : nat) (h : regs) (bs : list Z) : regs :=
  match n with
  | O => h
  | S k => blocks k (block h (firstn 64 bs)) (skipn 64 bs)
  end.

Definition init : regs :=
  {| ra := 0x67452301; rb := 0xEFCDAB89; rc := 0x98BADCFE;
     rd := 0x10325476; re := 0xC3D2E1F0 |}.

(** [hashlib.sha1(msg).digest()]: 20 bytes. *)
Definition digest (msg : list Z) : list Z :=
  let p := pad msg in
  let h := blocks (List.length p / 64) init p in
  be_bytes 4 (ra h) ++ be_bytes 4 (rb h) ++ be_bytes 4 (rc h)
    ++ be_bytes 4 (rd h) ++ be_bytes 4 (re h).

End sha1.

Module uuid.

(** A [uuid.UUID] is its 128-bit integer ([UUID.int]). *)
Definition UUID := Z.

Definition bytes (u : UUID) : list Z := sha1.be_bytes 16 u.

(** [UUID(bytes=b, version=v)]: variant RFC 4122, then the version. *)
Definition of_bytes_version (b : list Z) (version : Z) : UUID :=
  let i := sha1.be_int 0 b in
  let i := Z.ldiff i (Z.shiftl 0xc000 48) in
  let i := Z.lor i (Z.shiftl 0x8000 48) in
  let i := Z.ldiff i (Z.shiftl 0xf000 64) in
  Z.lor i (Z.shiftl version 76).

(** [uuid.uuid5(namespace, name)] *)
Definition uuid5 (namespace : UUID) (name : string) : UUID :=
  let hash := sha1.digest (bytes namespace ++ pystr.bytes_of name) in
  of_bytes_version (firstn 16 hash) 5.

Definition hexdigit (d : Z) : ascii :=
  if d <? 10 then ascii_of_N (Z.to_N (48 + d)) else ascii_of_N (Z.to_N (87 + d)).

(** ['%0nx' % x] *)
Fixpoint hex (n : nat) (x : Z) : string :=
  match n with
  | O => EmptyString
  | S k => String (hexdigit (Z.land (Z.shiftr x (4 * Z.of_nat k)) 0xF)) (hex k x)
  end.

(** [str(u)]: 8-4-4-4-12 lower-case hexadecimal digits. *)
Definition str (u : UUID) : string :=
  let h := hex 32 u in
  pystr.take 8 h +:+ "-" +:+ pystr.take 4 (pystr.drop 8 h) +:+ "-"
    +:+ pystr.take 4 (pystr.drop 12 h) +:+ "-"
    +:+ pystr.take 4 (pystr.drop 16 h) +:+ "-" +:+ pystr.drop 20 h.

End uuid.

(* ===================================================================== *)
(** * [os.path] on Windows ([ntpath]) and the two regular expressions     *)
(* ===================================================================== *)

(** Python 2.7's [ntpath], for paths with or without a drive letter (UNC
    prefixes are left out). *)
Module ntpath.

Definition is_sep (c : ascii) : bool :=
  Ascii.eqb c "\"%char || Ascii.eqb c "/"%char.

(** [splitdrive(p)]: a drive letter and its colon, when there is one. *)
Definition splitdrive (p : string) : string * string :=
  match p with
  | String c (String c2 r) =>
      if Ascii.eqb c2 ":"%char then (String c (String c2 EmptyString), r)
      else (EmptyString, p)
  | _ => (EmptyString, p)
  end.

(** [(p[:i], p[i:])] where [i] is the index beyond the last slash of [p];
    [None] when [p] has no slash. *)
Fixpoint cut_last_sep (p : string) : option (string * string) :=
  match p with
  | EmptyString => None
  | String c r =>
      match cut_last_sep r with
      | Some (h, t) => Some (String c h, t)
      | None => if is_sep c then Some (String c EmptyString, r) else None
      end
  end.

(** [head] without its trailing slashes. *)
Fixpoint rstrip_seps (h : string) : string :=
  match h with
  | EmptyString => EmptyString
  | String c r =>
      match rstrip_seps r with
      | EmptyString => if is_sep c then EmptyString else String c EmptyString
      | r' => String c r'
      end
  end.

Definition split (p : string) : string * string :=
  let '(d, p) := splitdrive p in
  let '(head, tail) :=
    match cut_last_sep p with
    | Some (h, t) => (h, t)
    | None => (EmptyString, p)
    end in
  let head2 := rstrip_seps head in
  let head := match head2 with EmptyString => head | _ => head2 end in
  (d +:+ head, tail).

Definition dirname (p : string) : string := fst (split p).
Definition basename (p : string) : string := snd (split p).

(** [join(path, p)] for two components. *)
Definition join (path p : string) : string :=
  let '(result_drive, result_path) := splitdrive path in
  let '(p_drive, p_path) := splitdrive p in
  let absolute :=
    match p_path with String c _ => is_sep c | EmptyString => false end in
  if absolute then
    (if negb (String.eqb p_drive EmptyString) || String.eqb result_drive EmptyString
     then p_drive else result_drive) +:+ p_path
  else if negb (String.eqb p_drive EmptyString)
          && negb (String.eqb p_drive result_drive)
          && negb (String.eqb (pystr.lower p_drive) (pystr.lower result_drive))
  then p_drive +:+ p_path
  else
    let result_drive :=
      if negb (String.eqb p_drive EmptyString) then p_drive else result_drive in
    let result_path :=
      match pystr.last result_path with
      | Some c => if is_sep c then result_path else result_path +:+ "\"
      | None => result_path
      end in
    result_drive +:+ result_path +:+ p_path.

End ntpath.

Module re.

(** The compiled pattern of [_win32_extract]: start of string, a group
    made of the escaped [prefix] and then anything, the escaped [suffix],
    end of string; flags [re.I | re.S].  [search s] answers [m.group(1)].

    [prefix] and [suffix] are matched literally up to ASCII case, [.*]
    matches anything (newlines too) and is greedy, and [$] matches at the
    end of the string or just before a newline that ends it. *)
Definition search (prefix suffix s : string) : option string :=
  let lp := String.length prefix in
  let ls := String.length suffix in
  let try_end (e : nat) : option string :=
    if (lp + ls <=? e)%nat
       && pystr.ieq (String.substring 0 lp s) prefix
       && pystr.ieq (String.substring (e - ls) ls s) suffix
    then Some (String.substring 0 (e - ls) s)
    else None in
  match try_end (String.length s) with
  | Some g => Some g
  | None =>
      match pystr.last s with
      | Some c =>
          if Ascii.eqb c "010"%char then try_end (String.length s - 1)%nat
          else None
      | None => None
      end
  end.

End re.

(* ===================================================================== *)
(** * Python values, exceptions and the calls the module makes            *)
(* ===================================================================== *)

(** Arguments of a trace message: [%s] / [%r] values; [PNone] is
    Python's [None]. *)
Inductive PyArg :=
| PStr (s : string)
| PInt (z : Z)
| PNone.

(** [pywintypes.error], which [win32file.error] and [win32api.error] both
    name: [(winerror, funcname, strerror)]. *)
Record pywin_error := {
  winerror : Z;
  funcname : string;
  strerror : string
}.

(** The exceptions the module meets.  [ValueError] and
    [BrokenTempDirError] carry their format and its argument. *)
Inductive Exn :=
| NotImplementedError
| WindowsError (code : Z)
| pywintypes_error (e : pywin_error)
| ValueError (fmt arg : string)
| AssertionError (msg : string)
| BrokenTempDirError (fmt arg : string)
| OtherError (name : string).

(** Windows constants of [winerror] and [win32file]. *)
Definition ERROR_FILE_NOT_FOUND : Z := 2.
Definition ERROR_ACCESS_DENIED : Z := 5.
Definition ERROR_SHARING_VIOLATION : Z := 32.
Definition ERROR_FILE_EXISTS : Z := 80.
Definition GENERIC_READ : Z := 0x80000000.
Definition GENERIC_WRITE : Z := 0x40000000.
Definition GENERIC_EXECUTE : Z := 0x20000000.
Definition CREATE_NEW : Z := 1.
Definition OPEN_EXISTING : Z := 3.
Definition FILE_ATTRIBUTE_NORMAL : Z := 0x80.

(** Python file objects, Win32 handles, module handles and resource
    streams are opaque references. *)
Definition File := nat.
Definition Handle := nat.
Definition HModule := nat.
Definition Stream := nat.

(** Calls into the environment, indexed by what they answer.  A call that
    can raise answers the exception instead of a value; [os.unlink] raises
    [WindowsError] only, and answers its [winerror]. *)
Inductive SysCall : Type -> Type :=
| resource_filename (pkg name : string) : SysCall (Exn + string)
| resource_stream (pkg name : string) : SysCall (Exn + Stream)
| gettempdir : SysCall (Exn + string)
| listdir (d : string) : SysCall (Exn + list string)
| unlink (p : string) : SysCall (option Z)
| path_exists (p : string) : SysCall bool
| NamedTemporaryFile (prefix suffix : string) (delete : bool)
    : SysCall (Exn + File * string)
| CreateFileW (p : string) (access share disposition flags : Z)
    : SysCall (pywin_error + Handle)
| Handle_Close (h : Handle) : SysCall unit
| fdopen_osfhandle (h : Handle) (mode : string) : SysCall (Exn + File)
| copyfileobj (fsrc : Stream) (fdst : File) : SysCall (option Exn)
| stream_close (s : Stream) : SysCall unit
| file_close (f : File) : SysCall (option Exn)
| LoadLibrary (p : string) : SysCall (pywin_error + HModule)
| FreeLibrary (h : HModule) : SysCall unit
| TRACE (fmt : string) (args : list PyArg) : SysCall unit
| report_bad_assumption (fmt : string) (args : list PyArg) : SysCall unit
| unhandled_exc_handler (e : Exn) : SysCall unit.

(** Accesses to the attributes of [self]. *)
Inductive SelfCall : Type -> Type :=
| lock_acquire : SelfCall unit
| lock_release : SelfCall unit
| get_extracted_filename : SelfCall (option string)
| set_extracted_filename (p : string) : SelfCall unit
| set_extracted_lockfile (f : File) : SelfCall unit.

(** What a run leaves in its trace: each call with its answer. *)
Inductive Event :=
| EvResourceFilename (pkg name : string) (r : Exn + string)
| EvResourceStream (pkg name : string) (r : Exn + Stream)
| EvGettempdir (r : Exn + string)
| EvListdir (d : string) (r : Exn + list string)
| EvUnlink (p : string) (r : option Z)
| EvPathExists (p : string) (r : bool)
| EvNamedTemporaryFile (prefix suffix : string) (delete : bool)
    (r : Exn + File * string)
| EvCreateFileW (p : string) (access share disposition flags : Z)
    (r : pywin_error + Handle)
| EvHandleClose (h : Handle)
| EvFdopen (h : Handle) (mode : string) (r : Exn + File)
| EvCopyfileobj (fsrc : Stream) (fdst : File) (r : option Exn)
| EvStreamClose (s : Stream)
| EvFileClose (f : File) (r : option Exn)
| EvLoadLibrary (p : string) (r : pywin_error + HModule)
| EvFreeLibrary (h : HModule)
| EvTRACE (fmt : string) (args : list PyArg)
| EvReportBadAssumption (fmt : string) (args : list PyArg)
| EvUnhandledExc (e : Exn)
| EvLockAcquire
| EvLockRelease
| EvGetExtractedFilename (r : option string)
| EvSetExtractedFilename (p : string)
| EvSetExtractedLockfile (f : File).

Definition sys_event {X} (c : SysCall X) : X -> Event :=
  match c in SysCall X return X -> Event with
  | resource_filename pkg name => EvResourceFilename pkg name
  | resource_stream pkg name => EvResourceStream pkg name
  | gettempdir => EvGettempdir
  | listdir d => EvListdir d
  | unlink p => EvUnlink p
  | path_exists p => EvPathExists p
  | NamedTemporaryFile prefix suffix delete =>
      EvNamedTemporaryFile prefix suffix delete
  | CreateFileW p access share disposition flags =>
      EvCreateFileW p access share disposition flags
  | Handle_Close h => fun _ => EvHandleClose h
  | fdopen_osfhandle h mode => EvFdopen h mode
  | copyfileobj fsrc fdst => EvCopyfileobj fsrc fdst
  | stream_close s => fun _ => EvStreamClose s
  | file_close f => EvFileClose f
  | LoadLibrary p => EvLoadLibrary p
  | FreeLibrary h => fun _ => EvFreeLibrary h
  | TRACE fmt args => fun _ => EvTRACE fmt args
  | report_bad_assumption fmt args => fun _ => EvReportBadAssumption fmt args
  | unhandled_exc_handler e => fun _ => EvUnhandledExc e
  end.

Definition self_event {X} (c : SelfCall X) : X -> Event :=
  match c in SelfCall X return X -> Event with
  | lock_acquire => fun _ => EvLockAcquire
  | lock_release => fun _ => EvLockRelease
  | get_extracted_filename => EvGetExtractedFilename
  | set_extracted_filename p => fun _ => EvSetExtractedFilename p
  | set_extracted_lockfile f => fun _ => EvSetExtractedLockfile f
  end.

(* ===================================================================== *)
(** * Programs                                                            *)
(* ===================================================================== *)

(** A Python function body: it returns, raises, or makes a call and goes
    on with the answer. *)
Inductive Prog (R : Type) : Type :=
| Ret (r : R)
| Raise (e : Exn)
| Self (X : Type) (c : SelfCall X) (k : X -> Prog R)
| Sys (X : Type) (c : SysCall X) (k : X -> Prog R).

Arguments Ret {R} r.
Arguments Raise {R} e.
Arguments Self {R X} c k.
Arguments Sys {R X} c k.

Fixpoint bind {A B} (m : Prog A) (f : A -> Prog B) : Prog B :=
  match m with
  | Ret a => f a
  | Raise e => Raise e
  | Self c k => Self c (fun x => bind (k x) f)
  | Sys c k => Sys c (fun x => bind (k x) f)
  end.

Notation "x <- m ;; k" := (bind m (fun x => k))
  (at level 100, m at next level, right associativity).
Notation "m ;; k" := (bind m (fun _ => k))
  (at level 100, right associativity).

(** [try: m  except <classes h catches> as e: h e]; [h e = None] when the
    except clause does not name the class of [e]. *)
Fixpoint try_except {A} (m : Prog A) (h : Exn -> option (Prog A)) : Prog A :=
  match m with
  | Ret a => Ret a
  | Raise e => match h e with Some p => p | None => Raise e end
  | Self c k => Self c (fun x => try_except (k x) h)
  | Sys c k => Sys c (fun x => try_except (k x) h)
  end.

(** [try: m  except <classes> as e: h e  else: orelse x], where [x] is what
    [m] returned: the [else] suite is not guarded by the [except]. *)
Fixpoint try_except_else {A B} (m : Prog A) (h : Exn -> option (Prog B))
    (orelse : A -> Prog B) : Prog B :=
  match m with
  | Ret a => orelse a
  | Raise e => match h e with Some p => p | None => Raise e end
  | Self c k => Self c (fun x => try_except_else (k x) h orelse)
  | Sys c k => Sys c (fun x => try_except_else (k x) h orelse)
  end.

(** [try: m  finally: fin] *)
Fixpoint try_finally {A} (m : Prog A) (fin : Prog unit) : Prog A :=
  match m with
  | Ret a => fin ;; Ret a
  | Raise e => fin ;; Raise e
  | Self c k => Self c (fun x => try_finally (k x) fin)
  | Sys c k => Sys c (fun x => try_finally (k x) fin)
  end.

(** [for x in items: body x] *)
Fixpoint for_each {A} (items : list A) (body : A -> Prog unit) : Prog unit :=
  match items with
  | [] => Ret tt
  | x :: rest => body x ;; for_each rest body
  end.

(** [for x in items: body x  else: orelse], where the body may [break]. *)
Inductive LoopCtl (B : Type) :=
| Break (b : B)
| Next.
Arguments Break {B} b.
Arguments Next {B}.

Fixpoint for_else {A B} (items : list A) (body : A -> Prog (LoopCtl B))
    (orelse : Prog B) : Prog B :=
  match items with
  | [] => orelse
  | x :: rest =>
      c <- body x ;;
      match c with
      | Break b => Ret b
      | Next => for_else rest body orelse
      end
  end.

(** Calls, by the way they report failure. *)
Definition call {X} (c : SysCall X) : Prog X := Sys c Ret.

Definition call_exn {X} (c : SysCall (Exn + X)) : Prog X :=
  Sys c (fun r => match r with inl e => Raise e | inr x => Ret x end).

Definition call_opt (c : SysCall (option Exn)) : Prog unit :=
  Sys c (fun r => match r with Some e => Raise e | None => Ret tt end).

Definition call_win {X} (c : SysCall (pywin_error + X)) : Prog X :=
  Sys c (fun r => match r with
                  | inl e => Raise (pywintypes_error e)
                  | inr x => Ret x
                  end).

Definition os_unlink (p : string) : Prog unit :=
  Sys (unlink p) (fun r => match r with
                           | Some code => Raise (WindowsError code)
                           | None => Ret tt
                           end).

(** [with self._lock: body] *)
Definition with_lock {A} (body : Prog A) : Prog A :=
  Self lock_acquire (fun _ => try_finally body (Self lock_release Ret)).

(* ===================================================================== *)
(** * class DropboxSqliteExtension                                        *)
(* ===================================================================== *)

(** The class attributes and [sys.platform]. *)
Record Config := {
  package_name : string;
  dll_name : string;
  sys_platform : string
}.

(** The instance attributes; [_lock] is [true] while the lock is held. *)
Record Obj := {
  _lock : bool;
  _extracted_lockfile : option File;
  _extracted_filename : option string
}.

(** [__init__] *)
Definition __init__ : Obj :=
  {| _lock := false; _extracted_lockfile := None; _extracted_filename := None |}.

Definition fmt_need_to_extract : string :=
  "%s: Need to extract %s to temporary directory".

Section Program.

Context (cfg : Config).

Definition dll_suffix : string :=
  if String.eqb (sys_platform cfg) "win32" then ".dll"
  else if String.eqb (sys_platform cfg) "darwin" then ".dylib"
  else ".so".

Definition dll_basename : string := dll_name cfg +:+ dll_suffix.

(** Compute the dll prefix. *)
Definition ns_uuid : uuid.UUID := 0x125626a09d3a4aebb2ed5770cb0665cc.

Definition dll_uuid : uuid.UUID :=
  uuid.uuid5 ns_uuid (package_name cfg +:+ "." +:+ dll_name cfg).

Definition tmp_prefix : string :=
  dll_name cfg +:+ ".{" +:+ uuid.str dll_uuid +:+ "}.tmp".

Definition lck_suffix : string := ".lck".

Definition dll_regex (s : string) : option string :=
  re.search tmp_prefix dll_suffix s.

Definition lck_regex (s : string) : option string :=
  re.search tmp_prefix lck_suffix s.

Definition dll_to_lck (dllfilename : string) : Prog string :=
  let dirname := ntpath.dirname dllfilename in
  let basename := ntpath.basename dllfilename in
  match dll_regex basename with
  | None => Raise (ValueError "no match: %r" basename)
  | Some group1 => Ret (ntpath.join dirname (group1 +:+ lck_suffix))
  end.

Definition lck_to_dll (lckfilename : string) : Prog string :=
  let dirname := ntpath.dirname lckfilename in
  let basename := ntpath.basename lckfilename in
  match lck_regex basename with
  | None => Raise (ValueError "no match: %r" basename)
  | Some group1 => Ret (ntpath.join dirname (group1 +:+ dll_suffix))
  end.

Definition can_read_and_execute (filename : string) : Prog bool :=
  try_except
    (h2 <- call_win (CreateFileW filename (Z.lor GENERIC_READ GENERIC_EXECUTE)
                       0 OPEN_EXISTING 0) ;;
     call (Handle_Close h2) ;;
     Ret true)
    (fun e =>
       match e with
       | pywintypes_error err =>
           Some (if winerror err =? ERROR_ACCESS_DENIED then Ret false
                 else Raise e)
       | _ => None
       end).

(** One turn of the loop over [os.listdir(temp_dir)].  The two inner
    [try] statements answer [true] where the Python falls through to the
    next statement and [false] where it says [continue]. *)
Definition scan_entry (temp_dir basename : string) : Prog unit :=
  match dll_regex basename with
  | None => Ret tt
  | Some _ =>
      let filename := ntpath.join temp_dir basename in
      lockfilename <- dll_to_lck filename ;;
      (* Try to delete the lockfile first *)
      go_on <- try_except_else (os_unlink lockfilename)
        (fun e =>
           match e with
           | WindowsError code =>
               Some (if code =? ERROR_FILE_NOT_FOUND then
                       call (TRACE "!! %s: Lock file already gone: %r"
                               [PStr (dll_name cfg); PStr lockfilename]) ;;
                       Ret true
                     else if code =? ERROR_SHARING_VIOLATION then
                       (* File still in use.  Ignore it. *)
                       call (TRACE "%s: Lock file still in use: %r"
                               [PStr (dll_name cfg); PStr lockfilename]) ;;
                       Ret false
                     else
                       call (unhandled_exc_handler e) ;;
                       call (TRACE "!! %s: Unhandled exception while trying to delete lock file %r"
                               [PStr (dll_name cfg); PStr lockfilename]) ;;
                       Ret false)
           | _ => None
           end)
        (fun _ =>
           call (TRACE "%s: Lock file deleted: %r"
                   [PStr (dll_name cfg); PStr lockfilename]) ;;
           Ret true) ;;
      if go_on : bool then
        (* OK, now delete the dll. *)
        call (TRACE "%s: Deleting %r ..." [PStr (dll_name cfg); PStr filename]) ;;
        try_except_else (os_unlink filename)
          (fun e =>
             match e with
             | WindowsError code =>
                 Some (if code =? ERROR_FILE_NOT_FOUND then
                         call (TRACE "!! %s: DLL already gone: %r"
                                 [PStr (dll_name cfg); PStr filename])
                       else
                         call (unhandled_exc_handler e))
             | _ => None
             end)
          (fun _ =>
             call (TRACE "%s: Deleted: %r" [PStr (dll_name cfg); PStr filename]))
      else Ret tt
  end.

(** Try to delete old files that match the dll prefix. *)
Definition scan (temp_dir : string) : Prog unit :=
  try_except
    (names <- call_exn (listdir temp_dir) ;;
     for_each names (scan_entry temp_dir))
    (fun e => Some (call (unhandled_exc_handler e))).

(** Safely create a .dll & .lck pair.
    outputs: outfile, outfilename, lockfile, lockfilename *)
Definition create_pair : Prog (File * string * File * string) :=
  for_else (seq 0 10)
    (fun retry =>
       (* Make a new .lck file. *)
       lf <- call_exn (NamedTemporaryFile tmp_prefix lck_suffix false) ;;
       let lockfile := fst lf in
       let lockfilename := snd lf in
       call (TRACE "%s: Opened lock file: %r"
               [PStr (dll_name cfg); PStr lockfilename]) ;;
       dllfilename <- lck_to_dll lockfilename ;;
       (* Safely create a .dll file with the same prefix. *)
       h <- call_win (CreateFileW dllfilename GENERIC_WRITE 0 CREATE_NEW
                        FILE_ATTRIBUTE_NORMAL) ;;
       dllfile <- call_exn (fdopen_osfhandle h "wb") ;;
       call (TRACE "%s: Opened dll file: %r"
               [PStr (dll_name cfg); PStr dllfilename]) ;;
       Ret (Break (dllfile, dllfilename, lockfile, lockfilename)))
    (Raise (AssertionError
              "Too many retries when attempting to create temporary file")).

Definition fmt_lockfile_deleted : string :=
  "%s: lockfile successfully deleted while still in use.  This will race!  %r".

(** Make sure the lockfile can't be deleted. *)
Definition sanity_check (lockfilename : string) : Prog unit :=
  call (TRACE "%s: Sanity check..." [PStr (dll_name cfg)]) ;;
  try_except_else (os_unlink lockfilename)
    (fun e =>
       match e with
       | WindowsError code =>
           Some (if negb (code =? ERROR_SHARING_VIOLATION)
                 then call (unhandled_exc_handler e)
                 else Ret tt)
       | _ => None
       end)
    (fun _ =>
       call (report_bad_assumption fmt_lockfile_deleted
               [PStr (dll_name cfg); PStr lockfilename])) ;;
  present <- call (path_exists lockfilename) ;;
  if negb present then
    call (report_bad_assumption fmt_lockfile_deleted
            [PStr (dll_name cfg); PStr lockfilename])
  else Ret tt.

(** Write the dll contents, then close the .dll file.  The two
    [isinstance(..., str)] assertions hold of every byte string. *)
Definition write_contents (dllfile : File) (dllfilename : string) : Prog unit :=
  call (TRACE "%s: Writing dll contents: %r"
          [PStr (dll_name cfg); PStr dllfilename]) ;;
  infile <- call_exn (resource_stream (package_name cfg) dll_basename) ;;
  try_finally (call_opt (copyfileobj infile dllfile))
              (call (stream_close infile)) ;;
  call_opt (file_close dllfile).

(** Test that we can load the dll. *)
Definition test_load (dllfilename : string) : Prog unit :=
  call (TRACE "%s: Testing LoadLibrary: %r"
          [PStr (dll_name cfg); PStr dllfilename]) ;;
  try_except_else (call_win (LoadLibrary dllfilename))
    (fun exn =>
       match exn with
       | pywintypes_error e =>
           Some
             (call (TRACE "!! %s: LoadLibrary(%r) failed (error %r, %r)"
                      [PStr (dll_name cfg); PStr dllfilename;
                       PInt (winerror e); PStr (strerror e)]) ;;
              broken <- (if winerror e =? ERROR_ACCESS_DENIED then
                           ok <- can_read_and_execute dllfilename ;;
                           Ret (negb ok)
                         else Ret false) ;;
              if broken : bool then
                Raise (BrokenTempDirError
                         "Broken temporary directory (missing execute permission): %r"
                         (ntpath.dirname dllfilename))
              else
                (* Failed for some other reason.  Just raise the original
                   exception. *)
                Raise exn)
       | _ => None
       end)
    (fun dllhandle =>
       call (TRACE "%s: LoadLibrary succeeded.  Freeing: %r"
               [PStr (dll_name cfg); PStr dllfilename]) ;;
       call (FreeLibrary dllhandle)).

Definition _win32_extract : Prog unit :=
  call (TRACE fmt_need_to_extract [PStr (dll_name cfg); PStr dll_basename]) ;;
  (* Get the temporary directory *)
  temp_dir <- call_exn gettempdir ;;
  call (TRACE "%s: Temporary directory is %r"
          [PStr (dll_name cfg); PStr temp_dir]) ;;
  scan temp_dir ;;
  call (TRACE "%s: Creating .dll & .lck pair ..." [PStr (dll_name cfg)]) ;;
  pair <- create_pair ;;
  let '(dllfile, dllfilename, lockfile, lockfilename) := pair in
  sanity_check lockfilename ;;
  write_contents dllfile dllfilename ;;
  test_load dllfilename ;;
  (* Keep a reference to the lockfile *)
  Self (set_extracted_lockfile lockfile) Ret ;;
  (* Save the path to the dll *)
  Self (set_extracted_filename dllfilename) Ret ;;
  (* The last message shows the attribute, which it reads back. *)
  extracted <- Self get_extracted_filename Ret ;;
  call (TRACE "%s: Done extracting %s to %r"
          [PStr (dll_name cfg); PStr dll_basename;
           match extracted with Some path => PStr path | None => PNone end]).

(** The body of [with self._lock:] in [dll_filename]. *)
Definition dll_filename_locked : Prog (option string) :=
  cached <- Self get_extracted_filename Ret ;;
  match cached with
  | Some _ => Self get_extracted_filename Ret
  | None =>
      if pystr.startswith "win" (sys_platform cfg) then
        _win32_extract ;;
        Self get_extracted_filename Ret
      else Raise NotImplementedError
  end.

(** The [except NotImplementedError] clause of [dll_filename]. *)
Definition dll_filename_extracted : Prog (option string) :=
  with_lock dll_filename_locked.

(** The full path to the SQLite extension dll; [None] is Python's [None]. *)
Definition dll_filename : Prog (option string) :=
  try_except
    (path <- call_exn (resource_filename (package_name cfg) dll_basename) ;;
     Ret (Some path))
    (fun e =>
       match e with
       | NotImplementedError => Some dll_filename_extracted
       | _ => None
       end).

End Program.

(* ===================================================================== *)
(** * Running a program                                                   *)
(* ===================================================================== *)

(** The environment: some state, and an answer to every call. *)
Class OS := {
  os_state : Type;
  os_exec : forall X, SysCall X -> os_state -> X * os_state
}.
Arguments os_exec {_ X} c w.

(** Attribute accesses; [None] when the call cannot proceed, which is
    acquiring a [threading.Lock] that is held. *)
Definition self_exec {X} (c : SelfCall X) (o : Obj) : option (X * Obj) :=
  match c in SelfCall X return option (X * Obj) with
  | lock_acquire =>
      if _lock o then None
      else Some (tt, {| _lock := true;
                        _extracted_lockfile := _extracted_lockfile o;
                        _extracted_filename := _extracted_filename o |})
  | lock_release =>
      Some (tt, {| _lock := false;
                   _extracted_lockfile := _extracted_lockfile o;
                   _extracted_filename := _extracted_filename o |})
  | get_extracted_filename => Some (_extracted_filename o, o)
  | set_extracted_filename p =>
      Some (tt, {| _lock := _lock o;
                   _extracted_lockfile := _extracted_lockfile o;
                   _extracted_filename := Some p |})
  | set_extracted_lockfile f =>
      Some (tt, {| _lock := _lock o;
                   _extracted_lockfile := Some f;
                   _extracted_filename := _extracted_filename o |})
  end.

Inductive Outcome (R : Type) :=
| Returned (r : R)
| Raised (e : Exn)
| Blocked.
Arguments Returned {R} r.
Arguments Raised {R} e.
Arguments Blocked {R}.

Record Result {os : OS} (R : Type) := {
  outcome : Outcome R;
  self_after : Obj;
  world_after : os_state;
  trace : list Event
}.
Arguments outcome {os R} r.
Arguments self_after {os R} r.
Arguments world_after {os R} r.
Arguments trace {os R} r.

Definition logged {os : OS} {R} (e : Event) (r : Result R) : Result R :=
  {| outcome := outcome r; self_after := self_after r;
     world_after := world_after r; trace := e :: trace r |}.

(** One caller at a time: the program runs to its end. *)
Fixpoint run {os : OS} {R} (p : Prog R) (o : Obj) (w : os_state) : Result R :=
  match p with
  | Ret r => {| outcome := Returned r; self_after := o; world_after := w; trace := [] |}
  | Raise e => {| outcome := Raised e; self_after := o; world_after := w; trace := [] |}
  | Self c k =>
      match self_exec c o with
      | None => {| outcome := Blocked; self_after := o; world_after := w; trace := [] |}
      | Some (x, o') => logged (self_event c x) (run (k x) o' w)
      end
  | Sys c k =>
      let xw := os_exec c w in
      logged (sys_event c (fst xw)) (run (k (fst xw)) o (snd xw))
  end.

(** Several callers on one object: a pool of threads, each a program; a
    schedule names the thread that makes the next call.  A thread that is
    finished, or waits for the lock, stays where it is. *)
Record Pool {os : OS} (R : Type) := {
  threads : list (Prog R);
  pool_self : Obj;
  pool_world : os_state;
  pool_log : list (nat * Event)
}.
Arguments threads {os R} p.
Arguments pool_self {os R} p.
Arguments pool_world {os R} p.
Arguments pool_log {os R} p.

Definition step_thread {os : OS} {R} (st : Pool R) (i : nat) : Pool R :=
  match threads st !! i with
  | Some (Self c k) =>
      match self_exec c (pool_self st) with
      | None => st
      | Some (x, o') =>
          {| threads := <[i := k x]> (threads st);
             pool_self := o';
             pool_world := pool_world st;
             pool_log := pool_log st ++ [(i, self_event c x)] |}
      end
  | Some (Sys c k) =>
      let xw := os_exec c (pool_world st) in
      {| threads := <[i := k (fst xw)]> (threads st);
         pool_self := pool_self st;
         pool_world := snd xw;
         pool_log := pool_log st ++ [(i, sys_event c (fst xw))] |}
  | _ => st
  end.

Definition run_schedule {os : OS} {R} (st : Pool R) (sched : list nat) : Pool R :=
  fold_left step_thread sched st.

(** [n] threads that call [dll_filename] on a fresh object. *)
Definition callers {os : OS} (cfg : Config) (n : nat) (w : os_state)
    : Pool (option string) :=
  {| threads := replicate n (dll_filename cfg);
     pool_self := __init__;
     pool_world := w;
     pool_log := [] |}.

(* ===================================================================== *)
(** * A simulated Windows temporary directory                             *)
(* ===================================================================== *)

(** An environment to run the module in: files with open handles, the
    names [tempfile] draws, and two kinds of outside interference. *)
Module Sim.

Record SimFile := {
  sf_data : string;      (* contents *)
  sf_open : nat;         (* handles this process holds on the file *)
  sf_foreign : bool      (* another process holds the file open *)
}.

Record World := {
  frozen : bool;                     (* resources live inside the executable *)
  tempdir : string;
  files : list (string * SimFile);   (* path and file, in directory order *)
  tokens : list string;              (* the random names tempfile draws next *)
  payload : string;                  (* the bytes of the bundled dll *)
  refs : list (nat * string);        (* open file objects and handles *)
  next_ref : nat;
  noexec : bool;       (* the directory lost its read and execute permission *)
  quarantine : bool    (* a scanner denies loads and removes the file *)
}.

Definition with_files (w : World) (fs : list (string * SimFile)) : World :=
  {| frozen := frozen w; tempdir := tempdir w; files := fs;
     tokens := tokens w; payload := payload w; refs := refs w;
     next_ref := next_ref w; noexec := noexec w; quarantine := quarantine w |}.

Definition with_tokens (w : World) (ts : list string) : World :=
  {| frozen := frozen w; tempdir := tempdir w; files := files w;
     tokens := ts; payload := payload w; refs := refs w;
     next_ref := next_ref w; noexec := noexec w; quarantine := quarantine w |}.

(** A new reference to [p]. *)
Definition open_ref (w : World) (p : string) : nat * World :=
  (next_ref w,
   {| frozen := frozen w; tempdir := tempdir w; files := files w;
      tokens := tokens w; payload := payload w;
      refs := (next_ref w, p) :: refs w;
      next_ref := S (next_ref w); noexec := noexec w;
      quarantine := quarantine w |}).

Fixpoint lookup (p : string) (fs : list (string * SimFile)) : option SimFile :=
  match fs with
  | [] => None
  | (q, f) :: rest => if String.eqb p q then Some f else lookup p rest
  end.

Fixpoint remove (p : string) (fs : list (string * SimFile))
    : list (string * SimFile) :=
  match fs with
  | [] => []
  | (q, f) :: rest => if String.eqb p q then rest else (q, f) :: remove p rest
  end.

Fixpoint update (p : string) (g : SimFile -> SimFile)
    (fs : list (string * SimFile)) : list (string * SimFile) :=
  match fs with
  | [] => []
  | (q, f) :: rest =>
      if String.eqb p q then (q, g f) :: rest else (q, f) :: update p g rest
  end.

Fixpoint path_of (r : nat) (rs : list (nat * string)) : option string :=
  match rs with
  | [] => None
  | (n, p) :: rest => if Nat.eqb r n then Some p else path_of r rest
  end.

Definition in_use (f : SimFile) : bool := (0 <? sf_open f)%nat || sf_foreign f.

Definition release (f : SimFile) : SimFile :=
  {| sf_data := sf_data f; sf_open := pred (sf_open f);
     sf_foreign := sf_foreign f |}.

Definition acquire (f : SimFile) : SimFile :=
  {| sf_data := sf_data f; sf_open := S (sf_open f);
     sf_foreign := sf_foreign f |}.

Definition new_file : SimFile :=
  {| sf_data := EmptyString; sf_open := 1; sf_foreign := false |}.

(** The first drawn name that does not exist yet. *)
Fixpoint fresh_name (dir prefix suffix : string) (fs : list (string * SimFile))
    (ts : list string) : option (string * list string) :=
  match ts with
  | [] => None
  | t :: rest =>
      let name := ntpath.join dir (prefix +:+ t +:+ suffix) in
      match lookup name fs with
      | Some _ => fresh_name dir prefix suffix fs rest
      | None => Some (name, rest)
      end
  end.

Definition werr (code : Z) (fn msg : string) : pywin_error :=
  {| winerror := code; funcname := fn; strerror := msg |}.

Definition close_ref (r : nat) (w : World) : World :=
  match path_of r (refs w) with
  | Some p => with_files w (update p release (files w))
  | None => w
  end.

Definition exec (X : Type) (c : SysCall X) : World -> X * World :=
  match c in SysCall X return World -> X * World with
  | resource_filename pkg name => fun w =>
      (if frozen w then inl NotImplementedError
       else inr (ntpath.join pkg name), w)
  | resource_stream pkg name => fun w =>
      let '(r, w') := open_ref w name in (inr r, w')
  | gettempdir => fun w => (inr (tempdir w), w)
  | listdir d => fun w =>
      (if String.eqb d (tempdir w)
       then inr (map (fun pf => ntpath.basename (fst pf)) (files w))
       else inl (WindowsError 3), w)
  | unlink p => fun w =>
      match lookup p (files w) with
      | None => (Some ERROR_FILE_NOT_FOUND, w)
      | Some f =>
          if in_use f then (Some ERROR_SHARING_VIOLATION, w)
          else (None, with_files w (remove p (files w)))
      end
  | path_exists p => fun w =>
      (match lookup p (files w) with Some _ => true | None => false end, w)
  | NamedTemporaryFile prefix suffix delete => fun w =>
      match fresh_name (tempdir w) prefix suffix (files w) (tokens w) with
      | None => (inl (OtherError "IOError"), with_tokens w [])
      | Some (name, rest) =>
          let w1 := with_files (with_tokens w rest)
                      (files w ++ [(name, new_file)]) in
          let '(r, w2) := open_ref w1 name in
          (inr (r, name), w2)
      end
  | CreateFileW p access share disposition flags => fun w =>
      match lookup p (files w) with
      | Some f =>
          if disposition =? CREATE_NEW then
            (inl (werr ERROR_FILE_EXISTS "CreateFileW" "The file exists."), w)
          else if noexec w then
            (inl (werr ERROR_ACCESS_DENIED "CreateFileW" "Access is denied."), w)
          else if in_use f then
            (inl (werr ERROR_SHARING_VIOLATION "CreateFileW"
                    "The process cannot access the file because it is being used by another process."), w)
          else
            let '(r, w') := open_ref (with_files w (update p acquire (files w))) p in
            (inr r, w')
      | None =>
          if disposition =? CREATE_NEW then
            let '(r, w') := open_ref (with_files w (files w ++ [(p, new_file)])) p in
            (inr r, w')
          else
            (inl (werr ERROR_FILE_NOT_FOUND "CreateFileW"
                    "The system cannot find the file specified."), w)
      end
  | Handle_Close h => fun w => (tt, close_ref h w)
  | fdopen_osfhandle h mode => fun w => (inr h, w)
  | copyfileobj fsrc fdst => fun w =>
      match path_of fdst (refs w) with
      | Some p =>
          (None,
           with_files w
             (update p (fun f => {| sf_data := payload w; sf_open := sf_open f;
                                    sf_foreign := sf_foreign f |}) (files w)))
      | None => (Some (OtherError "ValueError"), w)
      end
  | stream_close s => fun w => (tt, w)
  | file_close f => fun w => (None, close_ref f w)
  | LoadLibrary p => fun w =>
      match lookup p (files w) with
      | None =>
          (inl (werr 126 "LoadLibrary" "The specified module could not be found."), w)
      | Some f =>
          if quarantine w then
            (inl (werr ERROR_ACCESS_DENIED "LoadLibrary" "Access is denied."),
             with_files w (remove p (files w)))
          else if noexec w then
            (inl (werr ERROR_ACCESS_DENIED "LoadLibrary" "Access is denied."), w)
          else if String.eqb (sf_data f) EmptyString then
            (inl (werr 193 "LoadLibrary" "%1 is not a valid Win32 application."), w)
          else
            let '(r, w') := open_ref w p in (inr r, w')
      end
  | FreeLibrary h => fun w => (tt, w)
  | TRACE fmt args => fun w => (tt, w)
  | report_bad_assumption fmt args => fun w => (tt, w)
  | unhandled_exc_handler e => fun w => (tt, w)
  end.

Definition os : OS := {| os_state := World; os_exec := exec |}.

(** A frozen application whose temporary directory is [C:\Temp]. *)
Definition world (fs : list (string * SimFile)) (ts : list string) : World :=
  {| frozen := true; tempdir := "C:\Temp"; files := fs; tokens := ts;
     payload := "MZ"; refs := []; next_ref := 0; noexec := false;
     quarantine := false |}.

Definition paths (w : World) : list string := map fst (files w).

End Sim.

(** The configuration of the module as shipped, on Windows. *)
Definition shipped : Config :=
  {| package_name := "dropbox_sqlite_ext";
     dll_name := "dropbox_sqlite_ext";
     sys_platform := "win32" |}.


(* ===================================================================== *)
(** * Reasoning about all runs                                            *)
(* ===================================================================== *)

(** [wp p Q o tr]: whatever the environment answers, when [p] starts with
    attributes [o] after the events [tr], it ends in an outcome,
    attributes and events that [Q] accepts. *)
Definition Post (R : Type) := Outcome R -> Obj -> list Event -> Prop.

Fixpoint wp {R} (p : Prog R) (Q : Post R) (o : Obj) (tr : list Event) : Prop :=
  match p with
  | Ret r => Q (Returned r) o tr
  | Raise e => Q (Raised e) o tr
  | Self c k =>
      match self_exec c o with
      | None => Q Blocked o tr
      | Some (x, o') => wp (k x) Q o' (tr ++ [self_event c x])
      end
  | Sys c k => forall x, wp (k x) Q o (tr ++ [sys_event c x])
  end.


(** ** Vocabulary for traces *)

(** A message to the tracing sink. *)
Definition is_record (e : Event) : bool :=
  match e with
  | EvTRACE _ _ | EvUnhandledExc _ => true
  | _ => false
  end.

(** A filesystem call of the cleanup pass that raised. *)
Definition is_fs_error (e : Event) : bool :=
  match e with
  | EvListdir _ (inl _) | EvUnlink _ (Some _) => true
  | _ => false
  end.

(** Every filesystem error is followed at once by a message to the sink. *)
Fixpoint errors_recorded (tr : list Event) : bool :=
  match tr with
  | [] => true
  | e :: rest =>
      (if is_fs_error e
       then match rest with e' :: _ => is_record e' | [] => false end
       else true)
      && errors_recorded rest
  end.

(** The calls the cleanup pass makes. *)
Definition scan_event (e : Event) : bool :=
  match e with
  | EvListdir _ _ | EvUnlink _ _ | EvTRACE _ _ | EvUnhandledExc _ => true
  | _ => false
  end.

(** A directory entry: a name without slash, backslash or colon. *)
Fixpoint entry_name (b : string) : bool :=
  match b with
  | EmptyString => true
  | String c r =>
      negb (ntpath.is_sep c) && negb (Ascii.eqb c ":"%char) && entry_name r
  end.

(** What the cleanup pass does with the directory entry [basename], as the
    events [seg]: nothing when the name does not match the dll pattern;
    else it first deletes the paired lock file, and
    - when that succeeds, or fails with file-not-found, it goes on to
      delete the dll [filename];
    - when that fails otherwise (sharing violation: the lock is held), it
      only writes to the tracing sink: no call touches either file. *)
Definition candidate_events (cfg : Config) (filename group1 : string)
    (seg : list Event) : Prop :=
  let lockfilename :=
    ntpath.join (ntpath.dirname filename) (group1 +:+ lck_suffix) in
  exists r rest,
    seg = EvUnlink lockfilename r :: rest /\
    let deletes_dll :=
      exists msg r2 rest2,
        rest = msg
               :: EvTRACE "%s: Deleting %r ..." [PStr (dll_name cfg); PStr filename]
               :: EvUnlink filename r2 :: rest2 /\
        is_record msg = true /\
        Forall (fun e => is_record e = true) rest2 in
    match r with
    | None => deletes_dll
    | Some code =>
        if code =? ERROR_FILE_NOT_FOUND then deletes_dll
        else Forall (fun e => is_record e = true) rest
    end.

Definition candidate_handled (cfg : Config) (temp_dir basename : string)
    (seg : list Event) : Prop :=
  match dll_regex cfg basename with
  | None => seg = []
  | Some group1 =>
      candidate_events cfg (ntpath.join temp_dir basename) group1 seg
  end.

(** One turn of the cleanup loop, in full: the name computed for the lock
    file comes from matching the basename of the joined path again. *)
Definition entry_result (cfg : Config) (temp_dir basename : string)
    (out : Outcome unit) (seg : list Event) : Prop :=
  Forall (fun e => scan_event e = true) seg /\
  errors_recorded seg = true /\
  match dll_regex cfg basename with
  | None => out = Returned tt /\ seg = []
  | Some _ =>
      let filename := ntpath.join temp_dir basename in
      match dll_regex cfg (ntpath.basename filename) with
      | None =>
          out = Raised (ValueError "no match: %r" (ntpath.basename filename)) /\
          seg = []
      | Some group1 =>
          out = Returned tt /\ candidate_events cfg filename group1 seg
      end
  end.

(** The outcome and the events of a [for] loop whose turns satisfy [P]:
    one segment of events for each turn that was started. *)
Inductive loop_result {A} (P : A -> Outcome unit -> list Event -> Prop)
    : list A -> Outcome unit -> list (list Event) -> Prop :=
| loop_done : loop_result P [] (Returned tt) []
| loop_next x rest seg out segs :
    P x (Returned tt) seg ->
    loop_result P rest out segs ->
    loop_result P (x :: rest) out (seg :: segs)
| loop_raised x rest seg e :
    P x (Raised e) seg ->
    loop_result P (x :: rest) (Raised e) [seg].

(** The path part of [join d b] before [b], for a directory entry [b]. *)
Definition joined_path (result_path : string) : string :=
  match pystr.last result_path with
  | Some c => if ntpath.is_sep c then result_path else result_path +:+ "\"
  | None => result_path
  end.


(** [holds_at R P tr]: every event [e] of [tr] satisfies [R e pre post],
    where [pre] is [P] and then the events of [tr] before [e], and [post]
    the events of [tr] after it. *)
Definition holds_at (R : Event -> list Event -> list Event -> Prop)
    (P tr : list Event) : Prop :=
  forall pre e post, tr = pre ++ e :: post -> R e (P ++ pre) post.

Arguments scan : simpl never.
Arguments _win32_extract : simpl never.


(** What an extraction does to the attributes: it sets both of them when
    it returns and none of them when it raises; it starts with its first
    trace message. *)
Definition extract_effect (cfg : Config) (o : Obj) : Post unit :=
  fun out o' tr =>
    (exists rest,
        tr = EvTRACE fmt_need_to_extract [PStr (dll_name cfg); PStr (dll_basename cfg)]
             :: rest) /\
    match out with
    | Returned _ =>
        exists lockfile dllfilename,
          o' = {| _lock := _lock o;
                  _extracted_lockfile := Some lockfile;
                  _extracted_filename := Some dllfilename |}
    | Raised _ => o' = o
    | Blocked => False
    end.


(* ===================================================================== *)
(** * Several callers: what the lock protects                             *)
(* ===================================================================== *)

(** ** Reading the log of a pool *)

(** The first trace message of [_win32_extract]: an extraction starts. *)
Definition is_start {X} (c : SysCall X) : bool :=
  match c with
  | TRACE fmt _ => String.eqb fmt fmt_need_to_extract
  | _ => false
  end.

Definition is_start_event (e : Event) : bool :=
  match e with
  | EvTRACE fmt _ => String.eqb fmt fmt_need_to_extract
  | _ => false
  end.

(** The assignment to [_extracted_filename]: an extraction completes. *)
Definition is_set_event (e : Event) : bool :=
  match e with
  | EvSetExtractedFilename _ => true
  | _ => false
  end.

Fixpoint count_events (f : Event -> bool) (log : list (nat * Event)) : nat :=
  match log with
  | [] => 0
  | (_, e) :: rest => (if f e then 1 else 0) + count_events f rest
  end.

(** Extractions started, and extractions completed. *)
Definition extractions (log : list (nat * Event)) : nat :=
  count_events is_start_event log.

Definition completed (log : list (nat * Event)) : nat :=
  count_events is_set_event log.

Definition holds (i : nat) (holder : option nat) : bool :=
  match holder with
  | Some j => Nat.eqb i j
  | None => false
  end.

(** Reads the log as the lock sees it.  The call of [resource_filename]
    comes before the locked section and may happen at any time; the lock
    is acquired only when free and released only by its holder; every
    other call must be made by the holder.  The answer is [None] when an
    event is out of place, else the holder at the end of the log. *)
Fixpoint serial (holder : option nat) (log : list (nat * Event))
    : option (option nat) :=
  match log with
  | [] => Some holder
  | (i, e) :: rest =>
      match e with
      | EvResourceFilename _ _ _ => serial holder rest
      | EvLockAcquire =>
          match holder with
          | None => serial (Some i) rest
          | Some _ => None
          end
      | EvLockRelease => if holds i holder then serial None rest else None
      | _ => if holds i holder then serial holder rest else None
      end
  end.

Definition serialized (log : list (nat * Event)) : bool :=
  match serial None log with
  | Some _ => true
  | None => false
  end.

(** ** The invariant of a pool of callers *)

(** How far the thread that holds the lock has got with an extraction. *)
Inductive Phase :=
| NotStarted
| Started
| Written.

(** An attribute access inside the locked section, on the phase [ph] and
    the value [cur] of [_extracted_filename]: its answer and what follows,
    or [None] where the section may not make it (the lock itself; a
    second assignment; an assignment over a cached path). *)
Definition cs_self {X} (c : SelfCall X) (ph : Phase) (cur : option string)
    : option (X * Phase * option string) :=
  match c in SelfCall X return option (X * Phase * option string) with
  | lock_acquire => None
  | lock_release => None
  | get_extracted_filename => Some (cur, ph, cur)
  | set_extracted_filename p =>
      match ph, cur with
      | Started, None => Some (tt, Written, Some p)
      | _, _ => None
      end
  | set_extracted_lockfile f => Some (tt, ph, cur)
  end.

(** [csq b Q ph cur]: the program [b], run inside the locked section,
    starts an extraction only when none was started and no path is
    cached, assigns [_extracted_filename] only during an extraction, and
    where it returns [a], [Q a] holds of the phase and the attribute. *)
Fixpoint csq {R} (b : Prog R) (Q : R -> Phase -> option string -> Prop)
    (ph : Phase) (cur : option string) : Prop :=
  match b with
  | Ret a => Q a ph cur
  | Raise e => True
  | Self c k =>
      match cs_self c ph cur with
      | None => False
      | Some (x, ph', cur') => csq (k x) Q ph' cur'
      end
  | Sys c k =>
      if is_start c then
        ph = NotStarted /\ cur = None /\ forall x, csq (k x) Q Started cur
      else forall x, csq (k x) Q ph cur
  end.

(** A program that only calls the environment and starts no extraction. *)
Fixpoint sys_quiet {R} (b : Prog R) : Prop :=
  match b with
  | Ret _ | Raise _ => True
  | Self _ _ => False
  | Sys c k => is_start c = false /\ forall x, sys_quiet (k x)
  end.

(** Where a thread of the pool stands. *)
Inductive Ghost :=
| GFresh                      (* has not called yet *)
| GDirect                     (* finished without the lock *)
| GWaiting                    (* about to acquire the lock *)
| GHolding (ph : Phase)       (* inside the locked section *)
| GReturned                   (* returned the cached path *)
| GFailed (pending : bool).   (* raised; [pending]: during an extraction *)

Definition returns_cached (a : option string) (ph : Phase)
    (cur : option string) : Prop :=
  a = cur /\ cur <> None /\ ph <> Started.

Definition thread_ok (cfg : Config) (fn : option string) (g : Ghost)
    (p : Prog (option string)) : Prop :=
  match g with
  | GFresh => p = dll_filename cfg
  | GDirect => match p with Ret _ | Raise _ => True | _ => False end
  | GWaiting => p = dll_filename_extracted cfg
  | GHolding ph =>
      (ph = Started -> fn = None) /\
      exists body,
        p = try_finally body (Self lock_release Ret) /\
        csq body returns_cached ph fn
  | GReturned => exists path, p = Ret (Some path) /\ fn = Some path
  | GFailed _ => exists e, p = Raise e
  end.

(** An extraction that was started and has not completed. *)
Definition pend (g : Ghost) : nat :=
  match g with
  | GHolding Started | GFailed true => 1
  | _ => 0
  end.

Definition entered (g : Ghost) : bool :=
  match g with
  | GHolding _ | GReturned | GFailed _ => true
  | _ => false
  end.

Definition is_holding (g : Ghost) : bool :=
  match g with
  | GHolding _ => true
  | _ => false
  end.

Record Inv {os : OS} (cfg : Config) (st : Pool (option string))
    (gs : list Ghost) (holder : option nat) : Prop := {
  inv_threads :
    forall i, option_Forall2 (thread_ok cfg (_extracted_filename (pool_self st)))
                (gs !! i) (threads st !! i);
  inv_holder1 : forall i ph, gs !! i = Some (GHolding ph) -> holder = Some i;
  inv_holder2 : forall i, holder = Some i -> exists ph, gs !! i = Some (GHolding ph);
  inv_lock :
    _lock (pool_self st) = match holder with Some _ => true | None => false end;
  inv_serial : serial None (pool_log st) = Some holder;
  inv_sets :
    completed (pool_log st)
    = match _extracted_filename (pool_self st) with
      | Some _ => 1%nat
      | None => 0%nat
      end;
  inv_starts :
    extractions (pool_log st)
    = (completed (pool_log st) + sum_list (pend <$> gs))%nat;
  inv_entered :
    forall i, In (i, EvLockAcquire) (pool_log st) ->
              exists g, gs !! i = Some g /\ entered g = true
}.

(* ===================================================================== *)
(** * Concrete environments                                               *)
(* ===================================================================== *)

(** An empty temporary directory. *)
Definition scenario_a : Sim.World := Sim.world [] ["fc6wu2"; "k3v9qa"].

(** The path in [C:\Temp] of a file of this payload whose name ends in
    [ext]. *)
Definition leftover (ext : string) : string :=
  "C:\Temp\dropbox_sqlite_ext.{5f3e3153-5bce-5766-8f84-3e3e7ecf0d81}.tmp" +:+ ext.

Definition leftover_name (ext : string) : string :=
  "dropbox_sqlite_ext.{5f3e3153-5bce-5766-8f84-3e3e7ecf0d81}.tmp" +:+ ext.

(** A file that another process holds open, and one that nobody holds. *)
Definition held : Sim.SimFile :=
  {| Sim.sf_data := "MZ"; Sim.sf_open := 0; Sim.sf_foreign := true |}.

Definition idle : Sim.SimFile :=
  {| Sim.sf_data := "MZ"; Sim.sf_open := 0; Sim.sf_foreign := false |}.

(** A dll of an earlier run that is still in use, its lock file gone; and
    [tempfile] draws the token of its name first. *)
Definition collision_world : Sim.World :=
  Sim.world [(leftover "fc6wu2.dll", held)]
    ["fc6wu2"; "k3v9qa"; "a1b2c3"; "d4e5f6"; "g7h8i9"; "j0k1l2"; "m3n4o5";
     "p6q7r8"; "s9t0u1"; "v2w3x4"].

(** An orphaned pair, a pair whose lock is held, and a bystander. *)
Definition stale_world : Sim.World :=
  Sim.world [(leftover "aaaaaa.lck", idle); (leftover "aaaaaa.dll", idle);
             (leftover "bbbbbb.lck", held); (leftover "bbbbbb.dll", idle);
             ("C:\Temp\notes.txt", idle)]
    ["fc6wu2"].

Definition stale_names : list string :=
  [leftover_name "aaaaaa.lck"; leftover_name "aaaaaa.dll";
   leftover_name "bbbbbb.lck"; leftover_name "bbbbbb.dll"; "notes.txt"].

(** A scanner that denies the load of a new dll and removes the file. *)
Definition quarantine_world : Sim.World :=
  {| Sim.frozen := true; Sim.tempdir := "C:\Temp"; Sim.files := [];
     Sim.tokens := ["fc6wu2"; "k3v9qa"]; Sim.payload := "MZ"; Sim.refs := [];
     Sim.next_ref := 0; Sim.noexec := false; Sim.quarantine := true |}.

(** A temporary directory without read and execute permission. *)
Definition noexec_world : Sim.World :=
  {| Sim.frozen := true; Sim.tempdir := "C:\Temp"; Sim.files := [];
     Sim.tokens := ["fc6wu2"; "k3v9qa"]; Sim.payload := "MZ"; Sim.refs := [];
     Sim.next_ref := 0; Sim.noexec := true; Sim.quarantine := false |}.

(** Two threads that take turns, sixty times each. *)
Definition round_robin : list nat := concat (replicate 60 [0; 1]%nat).

(** The number of [NamedTemporaryFile] calls of a trace. *)
Fixpoint attempts (tr : list Event) : nat :=
  match tr with
  | [] => 0
  | EvNamedTemporaryFile _ _ _ _ :: rest => S (attempts rest)
  | _ :: rest => attempts rest
  end.

(* ===================================================================== *)
(** * What a program can do, whatever it is answered                      *)
(* ===================================================================== *)

(** [always PE p]: every event of every run of [p] satisfies [PE],
    whatever the calls answer and whatever the attributes hold. *)
Fixpoint always {R} (PE : Event -> Prop) (p : Prog R) : Prop :=
  match p with
  | Ret _ | Raise _ => True
  | Self c k => forall x, PE (self_event c x) /\ always PE (k x)
  | Sys c k => forall x, PE (sys_event c x) /\ always PE (k x)
  end.

(** The two ways the module opens a file through [win32file]: a new file
    for writing, which fails when the name exists, or an existing file for
    reading and executing. *)
Definition opens_safely (e : Event) : Prop :=
  match e with
  | EvCreateFileW _ access share disposition flags _ =>
      (access = GENERIC_WRITE /\ share = 0 /\ disposition = CREATE_NEW /\
       flags = FILE_ATTRIBUTE_NORMAL) \/
      (access = Z.lor GENERIC_READ GENERIC_EXECUTE /\ share = 0 /\
       disposition = OPEN_EXISTING /\ flags = 0)
  | EvFdopen _ mode _ => mode = "wb"
  | EvNamedTemporaryFile _ suffix delete _ => suffix = lck_suffix /\ delete = false
  | _ => True
  end.

(** The files the module may delete: a file whose name matches the dll
    pattern, the lock file paired with such a file, and a file whose name
    matches the lock pattern. *)
Definition own_file (cfg : Config) (p : string) : Prop :=
  dll_regex cfg (ntpath.basename p) <> None \/
  lck_regex cfg (ntpath.basename p) <> None \/
  exists f g, dll_regex cfg (ntpath.basename f) = Some g /\
              p = ntpath.join (ntpath.dirname f) (g +:+ lck_suffix).

Definition deletes_own (cfg : Config) (e : Event) : Prop :=
  match e with
  | EvUnlink p _ => own_file cfg p
  | _ => True
  end.

Definition is_lock_event (e : Event) : bool :=
  match e with
  | EvLockAcquire | EvLockRelease => true
  | _ => false
  end.

(** Whether the locked section of [dll_filename] was entered and left:
    the lock is acquired once, after [before]; everything else happens
    while it is held; the release is the last event. *)
Definition locked_section (before : list Event) (tr : list Event) : Prop :=
  exists inside,
    tr = before ++ EvLockAcquire :: inside ++ [EvLockRelease] /\
    Forall (fun e => is_lock_event e = false) before /\
    Forall (fun e => is_lock_event e = false) inside.

(** The module on another platform. *)
Definition shipped_on (platform : string) : Config :=
  {| package_name := "dropbox_sqlite_ext";
     dll_name := "dropbox_sqlite_ext";
     sys_platform := platform |}.

(** An application that is not frozen: resources are files. *)
Definition installed_world : Sim.World :=
  {| Sim.frozen := false; Sim.tempdir := "C:\Temp"; Sim.files := [];
     Sim.tokens := []; Sim.payload := "MZ"; Sim.refs := [];
     Sim.next_ref := 0; Sim.noexec := false; Sim.quarantine := false |}.

(** ** The events of the steps of an extraction *)

Definition report_lockfile_deleted (cfg : Config) (lockfilename : string) : Event :=
  EvReportBadAssumption fmt_lockfile_deleted [PStr (dll_name cfg); PStr lockfilename].

(** The sanity check of the lock file, by what the delete answers and by
    whether the file is there afterwards. *)
Definition sanity_events (cfg : Config) (lockfilename : string)
    (deleted : option Z) (present : bool) : list Event :=
  [EvTRACE "%s: Sanity check..." [PStr (dll_name cfg)];
   EvUnlink lockfilename deleted]
  ++ match deleted with
     | None => [report_lockfile_deleted cfg lockfilename]
     | Some code =>
         if code =? ERROR_SHARING_VIOLATION then []
         else [EvUnhandledExc (WindowsError code)]
     end
  ++ EvPathExists lockfilename present
  :: (if present then [] else [report_lockfile_deleted cfg lockfilename]).

(** The creation of the pair: the lock file of [NamedTemporaryFile], then
    the dll, created exclusively and opened for writing. *)
Definition pair_events (cfg : Config) (lockfile : File) (lockfilename : string)
    (h : Handle) (dllfile : File) (dllfilename : string) : list Event :=
  [EvNamedTemporaryFile (tmp_prefix cfg) lck_suffix false (inr (lockfile, lockfilename));
   EvTRACE "%s: Opened lock file: %r" [PStr (dll_name cfg); PStr lockfilename];
   EvCreateFileW dllfilename GENERIC_WRITE 0 CREATE_NEW FILE_ATTRIBUTE_NORMAL (inr h);
   EvFdopen h "wb" (inr dllfile);
   EvTRACE "%s: Opened dll file: %r" [PStr (dll_name cfg); PStr dllfilename]].

(** The calls with which an extraction gives back what it has opened, or
    deletes a file. *)
Definition is_cleanup_event (e : Event) : bool :=
  match e with
  | EvUnlink _ _ | EvFileClose _ _ | EvHandleClose _ | EvStreamClose _ => true
  | _ => false
  end.

(** ** Progress of a pool of callers *)

(** A thread that has returned or raised. *)
Definition finished {R} (p : Prog R) : bool :=
  match p with
  | Ret _ | Raise _ => true
  | _ => false
  end.

(** A thread that makes a call when it is scheduled: it is not finished,
    and it does not wait for a lock that is held. *)
Definition can_step {os : OS} {R} (st : Pool R) (i : nat) : Prop :=
  match threads st !! i with
  | Some (Sys _ _) => True
  | Some (Self c _) => self_exec c (pool_self st) <> None
  | _ => False
  end.

From Stdlib Require DecimalString.

(* ===================================================================== *)
(** * String formatting, and the fallback sinks of the module             *)
(* ===================================================================== *)

Module pytext.

(** [s.rsplit(sep, 1)] for a one-byte [sep]: [s] cut at its last [sep],
    or [s] alone when it holds none. *)
Fixpoint cut_last (sep : ascii) (s : string) : option (string * string) :=
  match s with
  | EmptyString => None
  | String c r =>
      match cut_last sep r with
      | Some (h, t) => Some (String c h, t)
      | None => if Ascii.eqb c sep then Some (EmptyString, r) else None
      end
  end.

Definition rsplit (sep : ascii) (s : string) : list string :=
  match cut_last sep s with
  | Some (h, t) => [h; t]
  | None => [s]
  end.

Fixpoint contains (c : ascii) (s : string) : bool :=
  match s with
  | EmptyString => false
  | String a r => Ascii.eqb a c || contains c r
  end.

(** [repr(s)] of a byte string: single quotes, unless [s] holds a single
    quote and no double quote; backslash escapes for the quote, the
    backslash, tab, newline, return and the bytes that do not print. *)
Definition quote_of (s : string) : ascii :=
  if contains "'" s && negb (contains "034" s) then "034"%char else "'"%char.

Definition repr_byte (quote c : ascii) : string :=
  let n := Z.of_N (N_of_ascii c) in
  if Ascii.eqb c quote || Ascii.eqb c "\" then String "\" (String c EmptyString)
  else if Ascii.eqb c "009" then "\t"
  else if Ascii.eqb c "010" then "\n"
  else if Ascii.eqb c "013" then "\r"
  else if (n <? 32) || (127 <=? n) then
    String "\" (String "x" (String (uuid.hexdigit (Z.shiftr n 4))
                              (String (uuid.hexdigit (Z.land n 0xF)) EmptyString)))
  else String c EmptyString.

Fixpoint repr_bytes (quote : ascii) (s : string) : string :=
  match s with
  | EmptyString => String quote EmptyString
  | String c r => repr_byte quote c +:+ repr_bytes quote r
  end.

Definition repr_str (s : string) : string :=
  String (quote_of s) (repr_bytes (quote_of s) s).

(** [str(z)] and [repr(z)] of an [int]. *)
Definition repr_int (z : Z) : string :=
  DecimalString.NilZero.string_of_int (Z.to_int z).

(** One conversion: [%s] and [%r]. *)
Definition convert (kind : ascii) (a : PyArg) : string :=
  match a with
  | PStr s => if Ascii.eqb kind "r" then repr_str s else s
  | PInt z => repr_int z
  | PNone => "None"
  end.

Definition map_text (f : string -> string) (r : option (Exn + string))
    : option (Exn + string) :=
  match r with
  | Some (inr t) => Some (inr (f t))
  | other => other
  end.

(** [fmt % args] for a tuple [args], with the conversions [%s], [%r] and
    [%%]; [None] for a format that uses anything else.  Python raises
    [TypeError] when the arguments run out, and when some are left. *)
Fixpoint format (fmt : string) (args : list PyArg) : option (Exn + string) :=
  match fmt with
  | EmptyString =>
      match args with
      | [] => Some (inr EmptyString)
      | _ :: _ => Some (inl (OtherError "TypeError"))
      end
  | String c rest =>
      if Ascii.eqb c "%" then
        match rest with
        | EmptyString => Some (inl (ValueError "incomplete format" EmptyString))
        | String kind rest' =>
            if Ascii.eqb kind "%" then map_text (String "%") (format rest' args)
            else if Ascii.eqb kind "s" || Ascii.eqb kind "r" then
              match args with
              | [] => Some (inl (OtherError "TypeError"))
              | a :: args' =>
                  map_text (String.append (convert kind a)) (format rest' args')
              end
            else None
        end
      else map_text (String c) (format rest args)
  end.

End pytext.

(** The functions the module defines for itself when [dropbox.trace]
    cannot be imported.  Each answers the text it prints on [sys.stderr],
    or the exception that formatting it raises. *)
Module fallback.

Definition TRACE (s : string) (n : list PyArg) : option (Exn + string) :=
  match n with
  | [] => Some (inr s)
  | _ :: _ => pytext.format s n
  end.

(** The keyword arguments are not used. *)
Definition report_bad_assumption (s : string) (n : list PyArg)
    : option (Exn + string) :=
  match n with
  | [] => Some (inr s)
  | _ :: _ => pytext.format s n
  end.

End fallback.

(** A message that the fallback sinks print without an error. *)
Definition sink_accepts (e : Event) : Prop :=
  match e with
  | EvTRACE fmt args => exists text, fallback.TRACE fmt args = Some (inr text)
  | EvReportBadAssumption fmt args =>
      exists text, fallback.report_bad_assumption fmt args = Some (inr text)
  | _ => True
  end.

(* ===================================================================== *)
(** * Loading the extension                                               *)
(* ===================================================================== *)

(** A path is a byte string ([str]) or a [unicode] object, which on
    Windows is a sequence of 16-bit code units. *)
Inductive PyString :=
| PyBytes (s : string)
| PyUnicode (u : list Z).

Module codecs.

Definition byte (z : Z) : ascii := ascii_of_N (Z.to_N z).

(** [u.encode('utf-8')]: one to three bytes for a code unit, four for a
    high surrogate followed by a low one. *)
Fixpoint utf_8_encode (u : list Z) : string :=
  match u with
  | [] => EmptyString
  | ch :: rest =>
      let three (tail : string) :=
        String (byte (Z.lor 0xe0 (Z.shiftr ch 12)))
          (String (byte (Z.lor 0x80 (Z.land (Z.shiftr ch 6) 0x3f)))
             (String (byte (Z.lor 0x80 (Z.land ch 0x3f))) tail)) in
      if ch <? 0x80 then String (byte ch) (utf_8_encode rest)
      else if ch <? 0x800 then
        String (byte (Z.lor 0xc0 (Z.shiftr ch 6)))
          (String (byte (Z.lor 0x80 (Z.land ch 0x3f))) (utf_8_encode rest))
      else if (0xD800 <=? ch) && (ch <=? 0xDBFF) then
        match rest with
        | ch2 :: rest2 =>
            if (0xDC00 <=? ch2) && (ch2 <=? 0xDFFF) then
              let ch4 :=
                Z.lor (Z.shiftl (ch - 0xD800) 10) (ch2 - 0xDC00) + 0x10000 in
              String (byte (Z.lor 0xf0 (Z.shiftr ch4 18)))
                (String (byte (Z.lor 0x80 (Z.land (Z.shiftr ch4 12) 0x3f)))
                   (String (byte (Z.lor 0x80 (Z.land (Z.shiftr ch4 6) 0x3f)))
                      (String (byte (Z.lor 0x80 (Z.land ch4 0x3f)))
                         (utf_8_encode rest2))))
            else three (utf_8_encode rest)
        | [] => three EmptyString
        end
      else three (utf_8_encode rest)
  end.

End codecs.

(** A [sqlite3.Connection], by what its [load_extension] does with the
    path it is given. *)
Record Connection := {
  conn_load_extension : string -> Prog unit
}.

Section Loading.

Context (cfg : Config) (os_name : string).

(** The argument of [load_extension] becomes the argument of
    [pVfs->xDlOpen()]; [sys] has no attribute [filesystemencoding]. *)
Definition __sqlite_pathencode (path : PyString) : Prog string :=
  match path with
  | PyBytes s => Ret s
  | PyUnicode u =>
      if String.eqb os_name "nt" then Ret (codecs.utf_8_encode u)
      else Raise (OtherError "AttributeError")
  end.

(** The full path to the SQLite extension, without .dll/.dylib/.so. *)
Definition dll_filename_without_suffix : Prog string :=
  path <- dll_filename cfg ;;
  match path with
  | None => Raise (OtherError "AttributeError")
  | Some path =>
      match pytext.rsplit "." path with
      | first :: _ => Ret first
      | [] => Raise (OtherError "IndexError")
      end
  end.

(** [load_extension(conn)]: the extension is loaded on the connection
    [conn].  The paths of this development are byte strings, and the
    import of [sqlite3] is taken to succeed. *)
Definition load_extension (conn : Connection) : Prog unit :=
  stem <- dll_filename_without_suffix ;;
  path <- __sqlite_pathencode (PyBytes stem) ;;
  conn_load_extension conn path.

End Loading.

(** [r1] and then [r2]. *)
Definition and_then {os : OS} {A B} (r1 : Result A) (r2 : Result B) : Result B :=
  {| outcome := outcome r2; self_after := self_after r2;
     world_after := world_after r2; trace := trace r1 ++ trace r2 |}.

(** The result of a program that stops in [r1] without a value. *)
Definition stopped {os : OS} {A B} (r1 : Result A) (out : Outcome B) : Result B :=
  {| outcome := out; self_after := self_after r1;
     world_after := world_after r1; trace := trace r1 |}.

(** A connection of SQLite 3.7.17 or later: it appends the dll suffix
    itself and loads the file. *)
Definition sqlite_conn : Connection :=
  {| conn_load_extension := fun path =>
       call_win (LoadLibrary (path +:+ ".dll")) ;; Ret tt |}.

(* ===================================================================== *)
(** * All runs of a program                                               *)
(* ===================================================================== *)

Section Runs.

Context {os : OS}.

Lemma wp_sound {R} (p : Prog R) (Q : Post R) o tr w :
  wp p Q o tr ->
  Q (outcome (run p o w)) (self_after (run p o w)) (tr ++ trace (run p o w)).
Proof.
  revert o tr w. induction p as [r|e|X c k IH|X c k IH]; intros o tr w H; simpl in *.
  - now rewrite app_nil_r.
  - now rewrite app_nil_r.
  - destruct (self_exec c o) as [[x o']|]; simpl.
    + specialize (IH x o' _ w H). now rewrite <- app_assoc in IH.
    + now rewrite app_nil_r.
  - specialize (IH _ o _ (snd (os_exec c w)) (H (fst (os_exec c w)))).
    now rewrite <- app_assoc in IH.
Qed.

Lemma run_bind_returned {A B} (m : Prog A) (f : A -> Prog B) o w a :
  outcome (run m o w) = Returned a ->
  let r := run m o w in
  outcome (run (bind m f) o w)
    = outcome (run (f a) (self_after r) (world_after r)) /\
  trace (run (bind m f) o w)
    = trace r ++ trace (run (f a) (self_after r) (world_after r)).
Proof.
  revert o w. induction m as [r|e|X c k IH|X c k IH]; intros o w H; simpl in *.
  - injection H as ->. auto.
  - discriminate.
  - destruct (self_exec c o) as [[x o']|]; simpl in *; [|discriminate].
    destruct (IH x o' w H) as [H1 H2]. split; [exact H1|]. now rewrite H2.
  - destruct (IH _ o _ H) as [H1 H2]. split; [exact H1|]. now rewrite H2.
Qed.

Lemma run_wp {R} (p : Prog R) (Q : Post R) o w :
  wp p Q o [] ->
  Q (outcome (run p o w)) (self_after (run p o w)) (trace (run p o w)).
Proof. intros H. exact (wp_sound p Q o [] w H). Qed.

End Runs.

(** Turn a goal about [run p o w] into one about all runs of [p]. *)
Ltac by_wp :=
  cbv zeta;
  match goal with
  | |- context [@run ?os ?R ?p ?o ?w] =>
      let r := fresh "r" in
      let E := fresh "E" in
      remember (@run os R p o w) as r eqn:E;
      pattern (outcome r), (self_after r), (trace r);
      lazymatch goal with
      | |- ?F _ _ _ => rewrite E; clear E r; apply (@run_wp os R p F o w)
      end
  end.

Lemma wp_mono {R} (p : Prog R) (Q Q' : Post R) o tr :
  (forall out o' tr', Q out o' tr' -> Q' out o' tr') ->
  wp p Q o tr -> wp p Q' o tr.
Proof.
  intros HQ. revert o tr.
  induction p as [r|e|X c k IH|X c k IH]; intros o tr H; simpl in *; auto.
  destruct (self_exec c o) as [[x o']|]; auto.
Qed.


Lemma wp_bind {A B} (m : Prog A) (f : A -> Prog B) (Q : Post B) o tr :
  wp m (fun out o' tr' =>
          match out with
          | Returned a => wp (f a) Q o' tr'
          | Raised e => Q (Raised e) o' tr'
          | Blocked => Q Blocked o' tr'
          end) o tr ->
  wp (bind m f) Q o tr.
Proof.
  revert o tr. induction m as [r|e|X c k IH|X c k IH]; intros o tr H; simpl in *; auto.
  destruct (self_exec c o) as [[x o']|]; auto.
Qed.

Lemma wp_try_except {A} (m : Prog A) h (Q : Post A) o tr :
  wp m (fun out o' tr' =>
          match out with
          | Raised e =>
              match h e with
              | Some p => wp p Q o' tr'
              | None => Q (Raised e) o' tr'
              end
          | _ => Q out o' tr'
          end) o tr ->
  wp (try_except m h) Q o tr.
Proof.
  revert o tr. induction m as [r|e|X c k IH|X c k IH]; intros o tr H; simpl in *; auto.
  - destruct (h e); auto.
  - destruct (self_exec c o) as [[x o']|]; auto.
Qed.

Lemma wp_try_finally {A} (m : Prog A) fin (Q : Post A) o tr :
  wp m (fun out o' tr' =>
          match out with
          | Returned a => wp (fin ;; Ret a) Q o' tr'
          | Raised e => wp (fin ;; Raise e) Q o' tr'
          | Blocked => Q Blocked o' tr'
          end) o tr ->
  wp (try_finally m fin) Q o tr.
Proof.
  revert o tr. induction m as [r|e|X c k IH|X c k IH]; intros o tr H; simpl in *; auto.
  destruct (self_exec c o) as [[x o']|]; auto.
Qed.

(* ===================================================================== *)
(** * Paths                                                               *)
(* ===================================================================== *)

Lemma append_nil_l (s : string) : EmptyString +:+ s = s.
Proof. reflexivity. Qed.

Lemma append_cons c (r s : string) : String c r +:+ s = String c (r +:+ s).
Proof. reflexivity. Qed.

Ltac str_simpl := repeat (rewrite append_nil_l || rewrite append_cons).

Lemma entry_name_splitdrive b :
  entry_name b = true -> ntpath.splitdrive b = (EmptyString, b).
Proof.
  destruct b as [|c [|c2 r]]; simpl; auto.
  intros H. destruct (Ascii.eqb c2 ":") eqn:E; auto.
  rewrite !andb_true_iff in H. destruct H as [_ [[_ H] _]].
  now rewrite negb_true_iff in H.
Qed.

Lemma entry_name_cut b : entry_name b = true -> ntpath.cut_last_sep b = None.
Proof.
  induction b as [|c r IH]; simpl; auto.
  rewrite !andb_true_iff. intros [[Hc _] Hr]. rewrite (IH Hr).
  apply negb_true_iff in Hc. now rewrite Hc.
Qed.

Lemma cut_last_sep_app h b c :
  pystr.last h = Some c -> ntpath.is_sep c = true -> entry_name b = true ->
  ntpath.cut_last_sep (h +:+ b) = Some (h, b).
Proof.
  intros Hl Hc Hb. revert Hl. induction h as [|a r IH]; simpl; [discriminate|].
  destruct (pystr.last r) as [x|] eqn:E.
  - intros Hx. rewrite (IH Hx). reflexivity.
  - intros [= ->]. destruct r; [|simpl in E; destruct (pystr.last r); discriminate].
    change (EmptyString +:+ b) with b.
    rewrite (entry_name_cut b Hb), Hc. reflexivity.
Qed.

Lemma last_app_sep h : pystr.last (h +:+ "\") = Some "\"%char.
Proof.
  induction h as [|a r IH]; simpl; auto. now rewrite IH.
Qed.

Lemma join_entry d b :
  entry_name b = true ->
  ntpath.join d b =
    fst (ntpath.splitdrive d) +:+ joined_path (snd (ntpath.splitdrive d)) +:+ b.
Proof.
  intros Hb. unfold ntpath.join. rewrite (entry_name_splitdrive b Hb).
  destruct (ntpath.splitdrive d) as [rd rp]. simpl fst. simpl snd.
  assert (Habs : match b with String c _ => ntpath.is_sep c | EmptyString => false end = false).
  { destruct b; auto. simpl in Hb. rewrite !andb_true_iff in Hb.
    destruct Hb as [[Hc _] _]. now apply negb_true_iff in Hc. }
  rewrite Habs. simpl. reflexivity.
Qed.

Lemma cut_joined rp b :
  entry_name b = true ->
  match ntpath.cut_last_sep (joined_path rp +:+ b) with
  | Some (_, t) => t
  | None => joined_path rp +:+ b
  end = b.
Proof.
  intros Hb. unfold joined_path.
  destruct (pystr.last rp) as [c|] eqn:E.
  - destruct (ntpath.is_sep c) eqn:Hc.
    + now rewrite (cut_last_sep_app rp b c E Hc Hb).
    + now rewrite (cut_last_sep_app (rp +:+ "\") b "\"%char (last_app_sep rp) eq_refl Hb).
  - destruct rp; [|simpl in E; destruct (pystr.last rp); discriminate].
    change (EmptyString +:+ b) with b. now rewrite (entry_name_cut b Hb).
Qed.

Lemma splitdrive_joined d b :
  entry_name b = true ->
  ntpath.splitdrive
    (fst (ntpath.splitdrive d) +:+ joined_path (snd (ntpath.splitdrive d)) +:+ b)
  = (fst (ntpath.splitdrive d), joined_path (snd (ntpath.splitdrive d)) +:+ b).
Proof.
  intros Hb.
  destruct d as [|c [|c2 r]].
  - apply entry_name_splitdrive, Hb.
  - cbn. unfold joined_path. cbn.
    destruct (ntpath.is_sep c); str_simpl; cbn.
    + destruct b as [|c3 b']; auto. simpl in Hb.
      rewrite !andb_true_iff in Hb. destruct Hb as [[_ Hc] _].
      apply negb_true_iff in Hc. now rewrite Hc.
    + reflexivity.
  - cbn. destruct (Ascii.eqb c2 ":") eqn:E; cbn.
    + str_simpl. cbn. rewrite E. reflexivity.
    + unfold joined_path. cbn.
      destruct (pystr.last r) as [x|]; [destruct (ntpath.is_sep x)|destruct (ntpath.is_sep c2)];
        str_simpl; cbn; rewrite ?E; reflexivity.
Qed.

Lemma basename_join d b :
  entry_name b = true -> ntpath.basename (ntpath.join d b) = b.
Proof.
  intros Hb. rewrite (join_entry d b Hb).
  unfold ntpath.basename, ntpath.split.
  rewrite (splitdrive_joined d b Hb).
  pose proof (cut_joined (snd (ntpath.splitdrive d)) b Hb) as Hc.
  destruct (ntpath.cut_last_sep (joined_path (snd (ntpath.splitdrive d)) +:+ b)) as [[h t]|];
    simpl; exact Hc.
Qed.

(* ===================================================================== *)
(** * The load probe                                                      *)
(* ===================================================================== *)

Section LoadProbe.

Context {os : OS}.

(** C5 (as amended): the load probe.  After the trace message the probe
    calls [LoadLibrary] on the file.  When the load succeeds it frees the
    handle at once and returns, and the attributes of the object are as
    before: no handle is kept.  When the load fails with access denied the
    probe opens the file for read and execute: if that too is denied it
    raises [BrokenTempDirError] with the directory of the file; if that
    fails with another error, this other error is what the probe raises;
    if it succeeds the original loader error is raised.  When the load
    fails with any other code the original loader error is raised and no
    permission check is made. *)
Theorem test_load_outcomes (cfg : Config) (dllfilename : string) o w :
  let r := run (test_load cfg dllfilename) o w in
  self_after r = o /\
  exists a tail,
    trace r =
      EvTRACE "%s: Testing LoadLibrary: %r" [PStr (dll_name cfg); PStr dllfilename]
      :: EvLoadLibrary dllfilename a :: tail /\
    match a with
    | inr dllhandle =>
        outcome r = Returned tt /\
        tail = [EvTRACE "%s: LoadLibrary succeeded.  Freeing: %r"
                  [PStr (dll_name cfg); PStr dllfilename];
                EvFreeLibrary dllhandle]
    | inl e =>
        let failed :=
          EvTRACE "!! %s: LoadLibrary(%r) failed (error %r, %r)"
            [PStr (dll_name cfg); PStr dllfilename;
             PInt (winerror e); PStr (strerror e)] in
        if winerror e =? ERROR_ACCESS_DENIED then
          exists a2 tail2,
            tail = failed
                   :: EvCreateFileW dllfilename
                        (Z.lor GENERIC_READ GENERIC_EXECUTE) 0 OPEN_EXISTING 0 a2
                   :: tail2 /\
            match a2 with
            | inr h2 =>
                tail2 = [EvHandleClose h2] /\
                outcome r = Raised (pywintypes_error e)
            | inl e2 =>
                tail2 = [] /\
                outcome r =
                  if winerror e2 =? ERROR_ACCESS_DENIED then
                    Raised (BrokenTempDirError
                              "Broken temporary directory (missing execute permission): %r"
                              (ntpath.dirname dllfilename))
                  else Raised (pywintypes_error e2)
            end
        else
          tail = [failed] /\ outcome r = Raised (pywintypes_error e)
    end.
Proof.
  by_wp.
  unfold test_load. cbn. intros [] [e|h].
  - cbn. intros []. destruct (winerror e =? ERROR_ACCESS_DENIED) eqn:E; cbn.
    + intros [e2|h2]; cbn.
      * destruct (winerror e2 =? ERROR_ACCESS_DENIED) eqn:E2; cbn;
          (split; [reflexivity|]); eexists (inl e), _; (split; [reflexivity|]);
          cbn; rewrite E; eexists (inl e2), _; (split; [reflexivity|]);
          cbn; rewrite E2; split; reflexivity.
      * intros []. cbn. split; [reflexivity|].
        eexists (inl e), _. split; [reflexivity|]. cbn. rewrite E.
        eexists (inr h2), _. split; [reflexivity|]. split; reflexivity.
    + split; [reflexivity|]. eexists (inl e), _. split; [reflexivity|].
      cbn. rewrite E. split; reflexivity.
  - cbn. intros [] []. cbn. split; [reflexivity|].
    eexists (inr h), _. split; [reflexivity|]. split; reflexivity.
Qed.

End LoadProbe.

(* ===================================================================== *)
(** * The cleanup pass                                                    *)
(* ===================================================================== *)

Lemma wp_for_each {A} (items : list A) (body : A -> Prog unit)
    (P : A -> Outcome unit -> list Event -> Prop) (Q : Post unit) o tr :
  (forall x seg, ~ P x Blocked seg) ->
  (forall x tr0 (Q' : Post unit),
      (forall out seg, P x out seg -> Q' out o (tr0 ++ seg)) ->
      wp (body x) Q' o tr0) ->
  (forall out segs, loop_result P items out segs -> Q out o (tr ++ concat segs)) ->
  wp (for_each items body) Q o tr.
Proof.
  intros HB Hbody. revert tr Q.
  induction items as [|x rest IH]; intros tr Q HQ; simpl.
  - specialize (HQ _ _ (loop_done P)). simpl in HQ. now rewrite app_nil_r in HQ.
  - apply wp_bind. apply Hbody. intros out seg HP.
    destruct out as [[]|e|].
    + apply IH. intros out segs HL.
      specialize (HQ _ _ (loop_next P x rest seg out segs HP HL)).
      simpl in HQ. now rewrite app_assoc in HQ.
    + specialize (HQ _ _ (loop_raised P x rest seg e HP)).
      simpl in HQ. now rewrite app_nil_r in HQ.
    + destruct (HB _ _ HP).
Qed.

Ltac entry_leaf H :=
  rewrite <- ?app_assoc; cbn [app]; apply H;
  split; [repeat constructor|]; split; [reflexivity|]; split; [reflexivity|];
  unfold candidate_events; eexists _, _; split; [reflexivity|]; cbn;
  repeat match goal with C : (_ =? _) = _ |- _ => rewrite C; clear C end;
  first [ eexists _, _, _; split; [reflexivity|]; split;
          [reflexivity|repeat constructor]
        | repeat constructor ].

Lemma wp_scan_entry cfg temp_dir basename (Q : Post unit) o tr :
  (forall out seg, entry_result cfg temp_dir basename out seg -> Q out o (tr ++ seg)) ->
  wp (scan_entry cfg temp_dir basename) Q o tr.
Proof.
  intros H. unfold scan_entry, entry_result in *.
  destruct (dll_regex cfg basename) as [g0|] eqn:E0.
  2:{ cbn. rewrite <- (app_nil_r tr). apply H. repeat split; constructor. }
  unfold dll_to_lck.
  destruct (dll_regex cfg (ntpath.basename (ntpath.join temp_dir basename))) as [g|] eqn:E1.
  2:{ cbn. rewrite <- (app_nil_r tr). apply H. repeat split; constructor. }
  cbn. intros [code|].
  - cbn. destruct (code =? ERROR_FILE_NOT_FOUND) eqn:C1.
    + cbn. intros [] [] [code2|].
      * cbn. destruct (code2 =? ERROR_FILE_NOT_FOUND) eqn:C2; cbn; intros [];
          entry_leaf H.
      * cbn. intros []. entry_leaf H.
    + destruct (code =? ERROR_SHARING_VIOLATION) eqn:C3; cbn.
      * intros []. entry_leaf H.
      * intros [] []. entry_leaf H.
  - cbn. intros [] [] [code2|].
    + cbn. destruct (code2 =? ERROR_FILE_NOT_FOUND) eqn:C2; cbn; intros [];
        entry_leaf H.
    + cbn. intros []. entry_leaf H.
Qed.

Lemma errors_recorded_app a b :
  errors_recorded a = true -> errors_recorded b = true ->
  errors_recorded (a ++ b) = true.
Proof.
  intros Ha Hb. induction a as [|e a IH]; simpl in *; auto.
  apply andb_true_iff in Ha. destruct Ha as [He Ha].
  rewrite (IH Ha), andb_true_r.
  destruct (is_fs_error e); auto. destruct a; [discriminate|exact He].
Qed.

Lemma entry_result_not_blocked cfg temp_dir basename seg :
  ~ entry_result cfg temp_dir basename Blocked seg.
Proof.
  unfold entry_result. intros (_ & _ & H).
  destruct (dll_regex cfg basename); [|destruct H; discriminate].
  destruct (dll_regex cfg _); destruct H; discriminate.
Qed.

Lemma loop_result_not_blocked {A} (P : A -> Outcome unit -> list Event -> Prop)
    items segs :
  ~ loop_result P items Blocked segs.
Proof.
  intros H. remember Blocked as out eqn:E.
  induction H; try discriminate; auto.
Qed.

Lemma loop_entries_events cfg temp_dir names out segs :
  loop_result (entry_result cfg temp_dir) names out segs ->
  Forall (fun e => scan_event e = true) (concat segs) /\
  errors_recorded (concat segs) = true.
Proof.
  induction 1 as [|x rest seg out segs HP HL IH|x rest seg e HP]; simpl.
  - split; [constructor|reflexivity].
  - destruct HP as (F & R & _). destruct IH as [F' R']. split.
    + apply Forall_app; auto.
    + apply errors_recorded_app; auto.
  - destruct HP as (F & R & _). rewrite app_nil_r. auto.
Qed.

Lemma loop_entries_candidates cfg temp_dir names out segs :
  Forall (fun b => entry_name b = true) names ->
  loop_result (entry_result cfg temp_dir) names out segs ->
  out = Returned tt /\ Forall2 (candidate_handled cfg temp_dir) names segs.
Proof.
  intros HN HL. induction HL as [|x rest seg out segs HP HL IH|x rest seg e HP].
  - split; [reflexivity|constructor].
  - inversion HN as [|? ? Hx Hrest]; subst. destruct (IH Hrest) as [-> F2].
    split; [reflexivity|]. constructor; [|exact F2].
    destruct HP as (_ & _ & HP). unfold candidate_handled.
    cbv zeta in HP. rewrite (basename_join temp_dir x Hx) in HP.
    destruct (dll_regex cfg x); [|tauto]. tauto.
  - exfalso. inversion HN as [|? ? Hx Hrest]; subst.
    destruct HP as (_ & _ & HP).
    cbv zeta in HP. rewrite (basename_join temp_dir x Hx) in HP.
    destruct (dll_regex cfg x); destruct HP; discriminate.
Qed.

Lemma wp_scan cfg temp_dir (Q : Post unit) o tr :
  (forall e, Q (Returned tt) o (tr ++ [EvListdir temp_dir (inl e); EvUnhandledExc e])) ->
  (forall names out segs,
      loop_result (entry_result cfg temp_dir) names out segs ->
      match out with
      | Returned _ =>
          Q (Returned tt) o (tr ++ EvListdir temp_dir (inr names) :: concat segs)
      | Raised e =>
          Q (Returned tt) o
            (tr ++ EvListdir temp_dir (inr names) :: concat segs ++ [EvUnhandledExc e])
      | Blocked => True
      end) ->
  wp (scan cfg temp_dir) Q o tr.
Proof.
  intros He Hn. unfold scan. cbn. intros [e|names]; cbn.
  - intros []. rewrite <- app_assoc. apply He.
  - apply wp_try_except.
    apply wp_for_each with (P := entry_result cfg temp_dir).
    + intros x seg. apply entry_result_not_blocked.
    + intros x tr0 Q' HQ'. apply wp_scan_entry, HQ'.
    + intros out segs HL. specialize (Hn names out segs HL).
      destruct out as [[]|e|]; cbn.
      * now rewrite <- app_assoc.
      * intros []. now rewrite <- !app_assoc.
      * destruct (loop_result_not_blocked _ _ _ HL).
Qed.

(** The cleanup pass never raises and leaves the attributes alone; all it
    does is list the directory, delete files and write to the sink. *)
Lemma wp_scan_frame cfg temp_dir (Q : Post unit) o tr :
  (forall tr',
      Forall (fun e => scan_event e = true) tr' ->
      errors_recorded tr' = true ->
      Q (Returned tt) o (tr ++ tr')) ->
  wp (scan cfg temp_dir) Q o tr.
Proof.
  intros H. apply wp_scan.
  - intros e. apply H; [repeat constructor|reflexivity].
  - intros names out segs HL.
    destruct (loop_entries_events _ _ _ _ _ HL) as [F R].
    destruct out as [[]|e|].
    + apply H; [constructor; auto|].
      cbn [errors_recorded is_fs_error andb]. exact R.
    + apply H.
      * constructor; [reflexivity|]. apply Forall_app. split; [exact F|repeat constructor].
      * cbn [errors_recorded is_fs_error andb].
        apply errors_recorded_app; auto.
    + exact I.
Qed.

Section CleanupPass.

Context {os : OS}.

Lemma scan_returns (cfg : Config) (temp_dir : string) o w :
  let r := run (scan cfg temp_dir) o w in
  outcome r = Returned tt /\
  self_after r = o /\
  Forall (fun e => scan_event e = true) (trace r) /\
  errors_recorded (trace r) = true.
Proof.
  by_wp. apply wp_scan_frame. intros tr' F R. simpl. auto.
Qed.

(** C8: whatever the directory listing and the deletes answer, the cleanup
    pass returns normally and leaves the attributes alone; every
    filesystem error in its trace is followed at once by a message to the
    tracing sink; and whatever statements [k] follow the pass (the rest
    of the extraction) run next, as they would after a pass without
    errors: their outcome is the outcome of the whole. *)
Theorem scan_never_raises (cfg : Config) (temp_dir : string) o w :
  let r := run (scan cfg temp_dir) o w in
  outcome r = Returned tt /\
  self_after r = o /\
  Forall (fun e => scan_event e = true) (trace r) /\
  errors_recorded (trace r) = true /\
  forall (R : Type) (k : Prog R),
    let rk := run k o (world_after r) in
    outcome (run (scan cfg temp_dir ;; k) o w) = outcome rk /\
    trace (run (scan cfg temp_dir ;; k) o w) = trace r ++ trace rk.
Proof.
  intros r. destruct (scan_returns cfg temp_dir o w) as (Hout & Hself & F & Rec).
  fold r in Hout, Hself, F, Rec.
  repeat (split; [assumption|]).
  intros R k rk.
  destruct (run_bind_returned (scan cfg temp_dir) (fun _ => k) o w tt Hout)
    as (H1 & H2).
  fold r in H1, H2. rewrite Hself in H1, H2. auto.
Qed.

(** C2: when the listing of the temporary directory answers [names], all
    of them directory entries, the trace of the cleanup pass is the
    listing followed by one segment of events for each name, in order,
    and each segment handles its candidate as [candidate_handled] says:
    lock delete first; on success or file-not-found the dll is deleted
    too; on a sharing violation neither file is touched. *)
Theorem scan_handles_each_candidate (cfg : Config) (temp_dir : string) o w names :
  fst (os_exec (listdir temp_dir) w) = inr names ->
  Forall (fun b => entry_name b = true) names ->
  exists segs,
    trace (run (scan cfg temp_dir) o w)
      = EvListdir temp_dir (inr names) :: concat segs /\
    Forall2 (candidate_handled cfg temp_dir) names segs.
Proof.
  intros Hls HN.
  assert (H : forall names' rest,
             trace (run (scan cfg temp_dir) o w)
               = EvListdir temp_dir (inr names') :: rest ->
             Forall (fun b => entry_name b = true) names' ->
             exists segs, rest = concat segs /\
                          Forall2 (candidate_handled cfg temp_dir) names' segs).
  { by_wp. apply wp_scan.
    - intros e names' rest [=].
    - intros names' out segs HL. destruct out as [u|e|]; auto.
      + intros names2 rest [= <- <-] HN2.
        destruct (loop_entries_candidates _ _ _ _ _ HN2 HL) as [_ F2]. eauto.
      + intros names2 rest [= <- <-] HN2.
        destruct (loop_entries_candidates _ _ _ _ _ HN2 HL) as [[=] _]. }
  assert (Hhd : exists rest, trace (run (scan cfg temp_dir) o w)
                             = EvListdir temp_dir (inr names) :: rest).
  { unfold scan. cbn. rewrite Hls. eauto. }
  destruct Hhd as [rest Hrest].
  destruct (H names rest Hrest HN) as (segs & -> & F2).
  exists segs. split; [exact Hrest|exact F2].
Qed.

End CleanupPass.

(* ===================================================================== *)
(** * The order of the calls of an extraction                             *)
(* ===================================================================== *)

Lemma holds_at_nil R P : holds_at R P [].
Proof. intros [|] ? ? [=]. Qed.

Lemma holds_at_cons R P e tr :
  R e P tr -> holds_at R (P ++ [e]) tr -> holds_at R P (e :: tr).
Proof.
  intros He Htr [|x pre] e' post E; simpl in E.
  - injection E as <- <-. now rewrite app_nil_r.
  - injection E as <- E. specialize (Htr pre e' post E).
    now rewrite <- app_assoc in Htr.
Qed.

Lemma holds_at_app R P S tr :
  (forall S1 e S2, S = S1 ++ e :: S2 -> R e (P ++ S1) (S2 ++ tr)) ->
  holds_at R (P ++ S) tr ->
  holds_at R P (S ++ tr).
Proof.
  revert P. induction S as [|x S IH]; intros P HS Htr; simpl.
  - now rewrite app_nil_r in Htr.
  - apply holds_at_cons.
    + specialize (HS [] x S eq_refl). now rewrite app_nil_r in HS.
    + apply IH.
      * intros S1 e S2 ->. specialize (HS (x :: S1) e S2 eq_refl).
        now rewrite <- app_assoc.
      * now rewrite <- app_assoc.
Qed.

(** The term on which the program of a [wp] goal is stuck. *)
Ltac head_stuck p :=
  lazymatch p with
  | bind ?m _ => head_stuck m
  | try_except ?m _ => head_stuck m
  | try_except_else ?m _ _ => head_stuck m
  | try_finally ?m _ => head_stuck m
  | match ?x with _ => _ end => x
  end.

Ltac wp_step :=
  lazymatch goal with
  | |- forall _, _ => intro
  | |- wp (bind (scan _ _) _) _ _ _ =>
      apply wp_bind, wp_scan_frame; intros ? ? ?
  | |- wp ?p _ _ _ =>
      first [ progress cbn
            | progress unfold lck_to_dll
            | let x := head_stuck p in destruct x eqn:? ]
  end.

Ltac wp_run := repeat wp_step.

Ltac sub_search :=
  solve [ apply sublist_nil_l
        | apply sublist_skip; sub_search
        | apply sublist_cons; sub_search
        | apply sublist_inserts_l; sub_search ].

Lemma in_scan_trace tr S1 e S2 :
  Forall (fun e => scan_event e = true) tr -> tr = S1 ++ e :: S2 ->
  scan_event e = true /\
  Forall (fun e => scan_event e = true) S1 /\
  Forall (fun e => scan_event e = true) S2.
Proof.
  intros F ->. apply Forall_app in F as [F1 F2].
  inversion F2; subst. auto.
Qed.

(** Walk over a trace [e1 :: ... :: S ++ ...]: [side] solves the goal at
    each event, [scan_side] the goal at an event of the cleanup pass. *)
Ltac walk side scan_side :=
  rewrite <- ?app_assoc; cbn [app];
  repeat (apply holds_at_cons; [side|]);
  try (apply holds_at_app;
       [ let S1 := fresh "S1" in let e := fresh "e" in
         let S2 := fresh "S2" in let E := fresh "E" in
         intros S1 e S2 E;
         match goal with
         | F : Forall _ _ |- _ =>
             destruct (in_scan_trace _ _ _ _ F E) as (? & ? & ?)
         end;
         scan_side e
       | repeat (apply holds_at_cons; [side|]) ]);
  apply holds_at_nil.

(** State a goal about every position of a trace with [holds_at]. *)
Ltac as_holds_at :=
  match goal with
  | |- _ = ?pre ++ ?e :: ?post -> _ => revert pre e post
  end;
  match goal with
  | |- forall pre e post, ?tr = pre ++ e :: post -> @?G pre e post =>
      change (holds_at (fun e pre post => G pre e post) [] tr)
  end.

(** The events of a trace that come before the creation of the pair. *)
Ltac before_pair l :=
  lazymatch l with
  | EvNamedTemporaryFile _ _ _ _ :: _ => constr:(@nil Event)
  | ?x :: ?l' => let b := before_pair l' in constr:(x :: b)
  | ?S ++ ?l' => let b := before_pair l' in constr:(S ++ b)
  end.

(** The events before a copy or a close end with the creation of the
    pair, the sanity check and the start of the write: the answers of
    the delete and of the existence test are read off the trace. *)
Ltac pair_then_check :=
  rewrite <- ?app_assoc; cbn [app];
  lazymatch goal with
  | |- context [EvUnlink _ ?a :: _] =>
      lazymatch goal with
      | |- context [EvPathExists _ ?b :: _] =>
          lazymatch goal with
          | |- context [EvTRACE fmt_need_to_extract ?args :: ?l] =>
              let bf := before_pair (EvTRACE fmt_need_to_extract args :: l) in
              first [ eexists _, _, _, _, a, b, bf
                    | eexists _, _, _, _, a, b, _, bf ]
          end
      end
  end;
  (split;
   [ unfold lck_to_dll;
     match goal with H : lck_regex _ _ = _ |- _ => rewrite H end;
     reflexivity
   | unfold sanity_events, pair_events; cbn [app]; rewrite <- ?app_assoc; cbn [app];
     repeat match goal with C : (_ =? _) = _ |- _ => rewrite C; clear C end;
     cbn [app]; reflexivity ]).

Section CallOrder.

Context {os : OS}.

(** C6: in every extraction, whatever the environment answers, a
    [LoadLibrary] of a path, and the publication of a path as
    [_extracted_filename], come after these calls, in this order: the
    exclusive creation of the file at that path, its opening as [dllfile],
    the opening of the resource stream of the dll, a copy of that stream
    into [dllfile] that returned, and a close of [dllfile] that
    returned. *)
Theorem load_after_write_and_close (cfg : Config) o w pre e post :
  trace (run (_win32_extract cfg) o w) = pre ++ e :: post ->
  match e with
  | EvLoadLibrary p _ | EvSetExtractedFilename p =>
      exists h dllfile infile,
        [EvCreateFileW p GENERIC_WRITE 0 CREATE_NEW FILE_ATTRIBUTE_NORMAL (inr h);
         EvFdopen h "wb" (inr dllfile);
         EvResourceStream (package_name cfg) (dll_basename cfg) (inr infile);
         EvCopyfileobj infile dllfile None;
         EvFileClose dllfile None] `sublist_of` pre
  | _ => True
  end.
Proof.
  as_holds_at.
  by_wp. unfold _win32_extract. wp_run; subst.
  all: walk ltac:(first [ exact I
                        | eexists _, _, _; rewrite <- ?app_assoc; cbn [app];
                          sub_search ])
            ltac:(fun e => destruct e; first [exact I | discriminate]).
Qed.

(** C7 (as amended): in every extraction, whatever the environment
    answers, the copy of the payload into the dll file and the close of
    that file come after the sanity check of the lock, and the sanity
    check comes right after the creation of the pair.  The events before
    the copy end with the creation of the lock file and of the dll named
    after it, then the sanity check (the delete attempt on that lock file,
    what is reported for its answer, and the test that the file still
    exists), then the message of the write and the opening of the
    resource stream; the copy is into the file object of that dll.  The
    events before the close are these, the copy that returned and the
    close of the stream.  No delete or existence test follows the copy or
    the close: the sanity check is made before the payload is written,
    not after. *)
Theorem sanity_check_before_write (cfg : Config) o w pre e post :
  trace (run (_win32_extract cfg) o w) = pre ++ e :: post ->
  match e with
  | EvCopyfileobj infile dllfile _ =>
      (exists lockfile lockfilename h dllfilename deleted present before,
          lck_to_dll cfg lockfilename = Ret dllfilename /\
          pre = before
                ++ pair_events cfg lockfile lockfilename h dllfile dllfilename
                ++ sanity_events cfg lockfilename deleted present
                ++ [EvTRACE "%s: Writing dll contents: %r"
                      [PStr (dll_name cfg); PStr dllfilename];
                    EvResourceStream (package_name cfg) (dll_basename cfg)
                      (inr infile)]) /\
      Forall (fun e' => match e' with
                        | EvUnlink _ _ | EvPathExists _ _ => False
                        | _ => True
                        end) post
  | EvFileClose dllfile _ =>
      (exists lockfile lockfilename h dllfilename deleted present infile before,
          lck_to_dll cfg lockfilename = Ret dllfilename /\
          pre = before
                ++ pair_events cfg lockfile lockfilename h dllfile dllfilename
                ++ sanity_events cfg lockfilename deleted present
                ++ [EvTRACE "%s: Writing dll contents: %r"
                      [PStr (dll_name cfg); PStr dllfilename];
                    EvResourceStream (package_name cfg) (dll_basename cfg)
                      (inr infile);
                    EvCopyfileobj infile dllfile None;
                    EvStreamClose infile]) /\
      Forall (fun e' => match e' with
                        | EvUnlink _ _ | EvPathExists _ _ => False
                        | _ => True
                        end) post
  | _ => True
  end.
Proof.
  as_holds_at. by_wp. unfold _win32_extract. wp_run; subst.
  all: repeat match goal with p : _ * _ |- _ => destruct p end; cbn [fst snd] in *.
  all: repeat match goal with
              | H : negb _ = true |- _ => apply negb_true_iff in H
              | H : negb _ = false |- _ => apply negb_false_iff in H
              end; subst.
  all: walk ltac:(first
         [ exact I
         | split;
           [ pair_then_check
           | repeat (constructor; [exact I|]); constructor ] ])
       ltac:(fun e => destruct e; first [exact I | discriminate]).
Qed.

(** The loop over [range(10)] makes one attempt, whatever happens. *)
Lemma create_pair_never_retries (cfg : Config) o w :
  (attempts (trace (run (create_pair cfg) o w)) <= 1)%nat.
Proof.
  by_wp. unfold create_pair. wp_run; subst; cbn; lia.
Qed.

Lemma tempfile_prefix (cfg : Config) o w pre e post :
  trace (run (_win32_extract cfg) o w) = pre ++ e :: post ->
  match e with
  | EvNamedTemporaryFile prefix suffix delete _ =>
      prefix = tmp_prefix cfg /\ suffix = lck_suffix /\ delete = false
  | _ => True
  end.
Proof.
  as_holds_at. by_wp. unfold _win32_extract. wp_run; subst.
  all: walk ltac:(first [ exact I | repeat split ])
            ltac:(fun e => destruct e; first [exact I | discriminate]).
Qed.

End CallOrder.

(** C9: the identity that names the temporary files depends on the package
    name and the dll name only.  Take two extractions, in two environments
    that may differ in everything (the operating system, its state,
    [sys.platform], the attributes of the object), for the same package
    name and dll name: every [NamedTemporaryFile] call of the one and of
    the other is made with the same prefix, which is the dll name, the
    [uuid5] of the two names in braces, and [.tmp]. *)
Theorem payload_identity_deterministic (os1 os2 : OS) (cfg1 cfg2 : Config)
    o1 w1 o2 w2 prefix1 suffix1 delete1 a1 prefix2 suffix2 delete2 a2 :
  package_name cfg1 = package_name cfg2 ->
  dll_name cfg1 = dll_name cfg2 ->
  In (EvNamedTemporaryFile prefix1 suffix1 delete1 a1)
     (trace (@run os1 _ (_win32_extract cfg1) o1 w1)) ->
  In (EvNamedTemporaryFile prefix2 suffix2 delete2 a2)
     (trace (@run os2 _ (_win32_extract cfg2) o2 w2)) ->
  dll_uuid cfg1 = dll_uuid cfg2 /\
  prefix1 = prefix2 /\
  prefix1 = dll_name cfg1 +:+ ".{" +:+ uuid.str (dll_uuid cfg1) +:+ "}.tmp".
Proof.
  intros Hp Hd H1 H2.
  apply in_split in H1 as (pre1 & post1 & E1).
  apply in_split in H2 as (pre2 & post2 & E2).
  pose proof (tempfile_prefix (os := os1) cfg1 o1 w1 _ _ _ E1) as (-> & _ & _).
  pose proof (tempfile_prefix (os := os2) cfg2 o2 w2 _ _ _ E2) as (-> & _ & _).
  unfold tmp_prefix, dll_uuid. rewrite Hp, Hd. auto.
Qed.

(* ===================================================================== *)
(** * The memoized path                                                   *)
(* ===================================================================== *)

Lemma wp_shift_gen {R} (p : Prog R) (Q : Post R) o tr tr0 :
  wp p (fun out o' tr' => Q out o' (tr ++ tr')) o tr0 ->
  wp p Q o (tr ++ tr0).
Proof.
  revert o tr0. induction p as [r|e|X c k IH|X c k IH]; intros o tr0 H; simpl in *; auto.
  - destruct (self_exec c o) as [[x o']|]; auto.
    rewrite <- app_assoc. auto.
  - intros x. rewrite <- app_assoc. auto.
Qed.

Lemma wp_shift {R} (p : Prog R) (Q : Post R) o tr :
  wp p (fun out o' tr' => Q out o' (tr ++ tr')) o [] ->
  wp p Q o tr.
Proof.
  intros H. apply wp_shift_gen in H. now rewrite app_nil_r in H.
Qed.

Lemma extract_self cfg o : wp (_win32_extract cfg) (extract_effect cfg o) o [].
Proof.
  unfold _win32_extract, extract_effect. wp_run; subst.
  all: rewrite <- ?app_assoc; cbn [app].
  all: split; [eexists; reflexivity|]; try reflexivity.
  all: destruct o; cbn; eauto.
Qed.

Lemma wp_extract cfg (Q : Post unit) o tr :
  (forall out o' tr', extract_effect cfg o out o' tr' -> Q out o' (tr ++ tr')) ->
  wp (_win32_extract cfg) Q o tr.
Proof.
  intros H. apply wp_shift. eapply wp_mono; [|apply extract_self].
  intros out o' tr'. apply H.
Qed.

Section Memo.

Context {os : OS}.

Lemma dll_filename_first (cfg : Config) o w v :
  let r := run (dll_filename cfg) o w in
  outcome r = Returned v ->
  In EvLockAcquire (trace r) ->
  exists path,
    v = Some path /\
    _extracted_filename (self_after r) = Some path /\
    _lock (self_after r) = false.
Proof.
  cbv zeta. revert v. by_wp.
  destruct o as [l lf fn]. unfold dll_filename. cbn. intros [e|path]; cbn.
  - destruct e; cbn; try (intros v [=]).
    unfold dll_filename_extracted, with_lock. cbn.
    destruct l; cbn; [intros v [=]|].
    destruct fn as [f|]; cbn.
    + intros v [= <-] _. eauto.
    + destruct (pystr.startswith "win" (sys_platform cfg)); cbn; [|intros v [=]].
      apply wp_try_finally, wp_bind, wp_extract. intros out o' tr' (_ & H).
      destruct out as [[]|e|]; cbn.
      * destruct H as (lockfile & dllfilename & ->). cbn.
        intros v [= <-] _. eauto.
      * intros v [=].
      * destruct H.
  - intros v [= <-] [[=]|[]].
Qed.

Lemma locked_extract_starts (cfg : Config) o w :
  exists rest,
    trace (run (try_finally
                  (_win32_extract cfg ;; Self get_extracted_filename Ret)
                  (Self lock_release Ret)) o w)
      = EvTRACE fmt_need_to_extract [PStr (dll_name cfg); PStr (dll_basename cfg)]
        :: rest.
Proof.
  by_wp. apply wp_try_finally, wp_bind, wp_extract.
  intros out o' tr' ([rest ->] & H).
  destruct out as [[]|e|]; cbn; try (destruct H; fail); eauto.
Qed.

(** C3: once a call of [dll_filename] has returned through the locked
    section, it returned a path, and every later call in which
    [pkg_resources.resource_filename] raises [NotImplementedError] again
    returns that same path: the call makes no other call to the
    environment than that one, reads the attribute under the lock, and
    leaves the attributes as they were. *)
Theorem cached_path_is_returned (cfg : Config) o w v :
  let r1 := run (dll_filename cfg) o w in
  outcome r1 = Returned v ->
  In EvLockAcquire (trace r1) ->
  exists path,
    v = Some path /\
    forall w2,
      let ask := resource_filename (package_name cfg) (dll_basename cfg) in
      fst (os_exec ask w2) = inl NotImplementedError ->
      let r2 := run (dll_filename cfg) (self_after r1) w2 in
      outcome r2 = Returned (Some path) /\
      self_after r2 = self_after r1 /\
      world_after r2 = snd (os_exec ask w2) /\
      trace r2 = [EvResourceFilename (package_name cfg) (dll_basename cfg)
                    (inl NotImplementedError);
                  EvLockAcquire;
                  EvGetExtractedFilename (Some path);
                  EvGetExtractedFilename (Some path);
                  EvLockRelease].
Proof.
  intros r1 Hout Hin.
  destruct (dll_filename_first cfg o w v Hout Hin) as (path & -> & Hfn & Hlock).
  exists path. split; [reflexivity|]. intros w2 ask Hask r2. subst r2.
  fold r1 in Hfn, Hlock. destruct (self_after r1) as [l lf fn].
  cbn in Hfn, Hlock. subst l fn.
  unfold dll_filename. cbn. fold ask. rewrite Hask. cbn. auto.
Qed.

(** C10: a call of [dll_filename] that raises leaves the attributes of the
    object as they were before the call, the lock released.  So when no
    path was cached before, none is cached after, and the next call in
    which [resource_filename] raises [NotImplementedError] starts the
    extraction from its beginning again. *)
Theorem failed_extraction_is_not_cached (cfg : Config) o w e :
  _lock o = false ->
  let r := run (dll_filename cfg) o w in
  outcome r = Raised e ->
  self_after r = o /\
  forall w2,
    let ask := resource_filename (package_name cfg) (dll_basename cfg) in
    _extracted_filename o = None ->
    pystr.startswith "win" (sys_platform cfg) = true ->
    fst (os_exec ask w2) = inl NotImplementedError ->
    exists rest,
      trace (run (dll_filename cfg) (self_after r) w2)
        = EvResourceFilename (package_name cfg) (dll_basename cfg)
            (inl NotImplementedError)
          :: EvLockAcquire
          :: EvGetExtractedFilename None
          :: EvTRACE fmt_need_to_extract
               [PStr (dll_name cfg); PStr (dll_basename cfg)]
          :: rest.
Proof.
  intros Hlock r Hout.
  assert (Hself : self_after r = o).
  { subst r. revert e Hout. by_wp.
    destruct o as [l lf fn]. cbn in Hlock. subst l.
    unfold dll_filename. cbn. intros [e|path]; cbn.
    - destruct e; cbn; try (intros; reflexivity).
      unfold dll_filename_extracted, with_lock. cbn.
      destruct fn as [f|]; cbn.
      + intros e [=].
      + destruct (pystr.startswith "win" (sys_platform cfg)); cbn;
          [|intros; reflexivity].
        apply wp_try_finally, wp_bind, wp_extract. intros out o' tr' (_ & H).
        destruct out as [[]|e|]; cbn.
        * destruct H as (lockfile & dllfilename & ->). cbn. intros e [=].
        * subst o'. cbn. intros; reflexivity.
        * destruct H.
    - intros e [=]. }
  split; [exact Hself|]. rewrite Hself.
  intros w2 ask Hfn Hwin Hask.
  destruct o as [l lf fn]. cbn in Hlock, Hfn. subst l fn.
  unfold dll_filename. cbn. fold ask. rewrite Hask. cbn. rewrite Hwin.
  match goal with
  | |- context [run ?p ?o ?w] => destruct (locked_extract_starts cfg o w) as [rest ->]
  end.
  eauto.
Qed.

End Memo.

(* ===================================================================== *)
(** * Several callers                                                     *)
(* ===================================================================== *)

Lemma csq_bind {A B} (m : Prog A) (f : A -> Prog B) Q ph cur :
  csq m (fun a ph' cur' => csq (f a) Q ph' cur') ph cur ->
  csq (bind m f) Q ph cur.
Proof.
  revert ph cur. induction m as [r|e|X c k IH|X c k IH]; intros ph cur H; simpl in *; auto.
  - destruct (cs_self c ph cur) as [[[x ph'] cur']|]; auto.
  - destruct (is_start c); [destruct H as (? & ? & ?)|]; auto.
Qed.

Lemma csq_frame {A} (m : Prog A) (Q : A -> Phase -> option string -> Prop) ph cur :
  sys_quiet m -> (forall a, Q a ph cur) -> csq m Q ph cur.
Proof.
  intros Hq HQ. induction m as [r|e|X c k IH|X c k IH]; simpl in *; auto.
  - destruct Hq.
  - destruct Hq as [-> Hk]. auto.
Qed.

Lemma sys_quiet_bind {A B} (m : Prog A) (f : A -> Prog B) :
  sys_quiet m -> (forall a, sys_quiet (f a)) -> sys_quiet (bind m f).
Proof.
  intros Hm Hf. induction m as [r|e|X c k IH|X c k IH]; simpl in *; auto.
  destruct Hm. auto.
Qed.

Lemma sys_quiet_try_except {A} (m : Prog A) h :
  sys_quiet m -> (forall e p, h e = Some p -> sys_quiet p) ->
  sys_quiet (try_except m h).
Proof.
  intros Hm Hh. induction m as [r|e|X c k IH|X c k IH]; simpl in *; auto.
  - destruct (h e) eqn:E; simpl; eauto.
  - destruct Hm. auto.
Qed.

Lemma sys_quiet_for_each {A} (items : list A) body :
  (forall x, sys_quiet (body x)) -> sys_quiet (for_each items body).
Proof.
  intros H. induction items; simpl; auto. apply sys_quiet_bind; auto.
Qed.

Lemma sys_quiet_scan_entry cfg d b : sys_quiet (scan_entry cfg d b).
Proof.
  unfold scan_entry, dll_to_lck.
  destruct (dll_regex cfg b); [|exact I].
  destruct (dll_regex cfg (ntpath.basename (ntpath.join d b))); [|exact I].
  cbn. split; [reflexivity|]. intros [code|]; cbn.
  - destruct (code =? ERROR_FILE_NOT_FOUND); cbn.
    + repeat (split; [reflexivity|]; intros).
      destruct x1 as [code2|]; cbn.
      * destruct (code2 =? ERROR_FILE_NOT_FOUND); cbn; split; auto.
      * split; auto.
    + destruct (code =? ERROR_SHARING_VIOLATION); cbn;
        repeat (split; [reflexivity|]; intros); auto.
  - repeat (split; [reflexivity|]; intros).
    destruct x1 as [code2|]; cbn.
    + destruct (code2 =? ERROR_FILE_NOT_FOUND); cbn; split; auto.
    + split; auto.
Qed.

Lemma sys_quiet_scan cfg d : sys_quiet (scan cfg d).
Proof.
  unfold scan. apply sys_quiet_try_except.
  - apply sys_quiet_bind.
    + cbn. split; [reflexivity|]. intros [e|names]; exact I.
    + intros names. apply sys_quiet_for_each. intros b. apply sys_quiet_scan_entry.
  - intros e p [= <-]. cbn. auto.
Qed.

Ltac cs_step :=
  lazymatch goal with
  | |- forall _, _ => intro
  | |- _ /\ _ => split; [reflexivity|]
  | |- csq (bind (scan _ _) _) _ _ _ =>
      apply csq_bind, csq_frame; [apply sys_quiet_scan|intros ?]
  | |- csq ?p _ _ _ =>
      first [ progress cbn
            | progress unfold lck_to_dll
            | let x := head_stuck p in destruct x eqn:? ]
  end.

Lemma extract_cs cfg :
  csq (_win32_extract cfg) (fun _ ph cur => ph = Written /\ cur <> None)
      NotStarted None.
Proof.
  unfold _win32_extract. repeat cs_step.
  all: first [exact I | discriminate].
Qed.

Lemma csq_mono {A} (m : Prog A) (Q Q' : A -> Phase -> option string -> Prop) ph cur :
  (forall a ph' cur', Q a ph' cur' -> Q' a ph' cur') ->
  csq m Q ph cur -> csq m Q' ph cur.
Proof.
  intros HQ. revert ph cur.
  induction m as [r|e|X c k IH|X c k IH]; intros ph cur H; simpl in *; auto.
  - destruct (cs_self c ph cur) as [[[x ph'] cur']|]; auto.
  - destruct (is_start c); [destruct H as (? & ? & ?); repeat split|]; auto.
Qed.

Lemma locked_cs cfg cur : csq (dll_filename_locked cfg) returns_cached NotStarted cur.
Proof.
  unfold dll_filename_locked. cbn. destruct cur as [f|]; cbn.
  - repeat split; discriminate.
  - destruct (pystr.startswith "win" (sys_platform cfg)); [|exact I].
    apply csq_bind. eapply csq_mono; [|apply extract_cs].
    intros [] ph cur [-> H]. cbn. repeat split; auto; discriminate.
Qed.
Lemma count_snoc f log i e :
  count_events f (log ++ [(i, e)])
  = (count_events f log + (if f e then 1 else 0))%nat.
Proof.
  induction log as [|[j e'] log IH]; simpl.
  - destruct (f e); reflexivity.
  - rewrite IH. destruct (f e'), (f e); lia.
Qed.

Lemma serial_app h log h' l2 :
  serial h log = Some h' -> serial h (log ++ l2) = serial h' l2.
Proof.
  revert h. induction log as [|[j e] log IH]; intros h H; simpl in *.
  - now injection H as ->.
  - destruct e; try (destruct (holds j h); [auto|discriminate]); auto.
    destruct h; [discriminate|auto].
Qed.

Lemma sum_pend_insert gs i g g' :
  gs !! i = Some g ->
  (sum_list (pend <$> <[i:=g']> gs) + pend g = sum_list (pend <$> gs) + pend g')%nat.
Proof.
  revert i. induction gs as [|x gs IH]; intros [|i] H; simpl in *; try discriminate.
  - injection H as ->. lia.
  - specialize (IH i H). unfold fmap in *. lia.
Qed.

Section Pool.

Context {os : OS}.

Lemma inv_update (cfg : Config) (st : Pool (option string)) gs holder
    i p g p' g' o' w' e h' :
  Inv cfg st gs holder ->
  threads st !! i = Some p ->
  gs !! i = Some g ->
  thread_ok cfg (_extracted_filename o') g' p' ->
  (forall j gj pj, j <> i -> gs !! j = Some gj ->
     thread_ok cfg (_extracted_filename (pool_self st)) gj pj ->
     thread_ok cfg (_extracted_filename o') gj pj) ->
  h' = (if is_holding g' then Some i else if holds i holder then None else holder) ->
  (is_holding g' = true -> holder = None \/ holder = Some i) ->
  _lock o' = match h' with Some _ => true | None => false end ->
  serial holder [(i, e)] = Some h' ->
  ((match _extracted_filename (pool_self st) with Some _ => 1 | None => 0 end)
   + (if is_set_event e then 1 else 0)
   = match _extracted_filename o' with Some _ => 1 | None => 0 end)%nat ->
  ((if is_start_event e then 1 else 0) + pend g
   = (if is_set_event e then 1 else 0) + pend g')%nat ->
  (e = EvLockAcquire -> entered g' = true) ->
  (entered g = true -> entered g' = true) ->
  Inv cfg {| threads := <[i:=p']> (threads st); pool_self := o';
             pool_world := w'; pool_log := pool_log st ++ [(i, e)] |}
      (<[i:=g']> gs) h'.
Proof.
  intros [T H1 H2 L S C1 C2 E] Hp Hg Hok Hothers Hh' Hacq Hlock Hser Hsets Hstarts He1 He2.
  pose proof (lookup_lt_Some _ _ _ Hp) as Lp.
  pose proof (lookup_lt_Some _ _ _ Hg) as Lg.
  constructor; cbn.
  - intros j. destruct (decide (j = i)) as [->|Hne].
    + rewrite !list_lookup_insert_eq by assumption. now constructor.
    + rewrite !list_lookup_insert_ne by auto.
      specialize (T j). inversion T as [gj pj Hj Eg Ep|Eg Ep]; constructor.
      eapply Hothers; eauto.
  - intros j ph Hj. destruct (decide (j = i)) as [->|Hne].
    + rewrite list_lookup_insert_eq in Hj by assumption. injection Hj as ->.
      now rewrite Hh'.
    + rewrite list_lookup_insert_ne in Hj by auto.
      pose proof (H1 j ph Hj) as Hhold. rewrite Hh'.
      destruct (is_holding g') eqn:Eh.
      * destruct (Hacq eq_refl) as [Hn|Hs]; congruence.
      * rewrite Hhold. cbn. destruct (Nat.eqb_spec i j); congruence.
  - intros j Hj. rewrite Hh' in Hj. destruct (is_holding g') eqn:Eh.
    + injection Hj as <-. rewrite list_lookup_insert_eq by assumption.
      destruct g'; try discriminate. eauto.
    + destruct (holds i holder) eqn:Ehol; [discriminate|].
      destruct (H2 j Hj) as [ph Hph]. exists ph.
      rewrite list_lookup_insert_ne; [exact Hph|].
      intros ->. rewrite Hj in Ehol. cbn in Ehol. now rewrite Nat.eqb_refl in Ehol.
  - exact Hlock.
  - rewrite (serial_app _ _ _ _ S). exact Hser.
  - unfold completed in *. rewrite count_snoc, C1. exact Hsets.
  - unfold extractions, completed in *. rewrite !count_snoc, C2.
    pose proof (sum_pend_insert gs i g g' Hg). lia.
  - intros j Hin. apply in_app_or in Hin as [Hin|[[= <- ->]|[]]].
    + destruct (E j Hin) as (g0 & Hg0 & He0).
      destruct (decide (j = i)) as [->|Hne].
      * exists g'. rewrite list_lookup_insert_eq by assumption.
        split; [reflexivity|]. apply He2. congruence.
      * exists g0. rewrite list_lookup_insert_ne by auto. auto.
    + exists g'. rewrite list_lookup_insert_eq by assumption. auto.
Qed.

End Pool.
Lemma cs_self_exec {X} (c : SelfCall X) ph cur x ph' cur' o i :
  cs_self c ph cur = Some (x, ph', cur') ->
  _lock o = true ->
  _extracted_filename o = cur ->
  exists o',
    self_exec c o = Some (x, o') /\
    _lock o' = true /\
    _extracted_filename o' = cur' /\
    serial (Some i) [(i, self_event c x)] = Some (Some i) /\
    is_start_event (self_event c x) = false /\
    self_event c x <> EvLockAcquire /\
    (if is_set_event (self_event c x)
     then ph = Started /\ cur = None /\ ph' = Written /\ cur' <> None
     else ph' = ph /\ cur' = cur).
Proof.
  destruct c; cbn; intros H Hl Hf; try discriminate; subst cur.
  - injection H as <- <- <-. exists o. rewrite Nat.eqb_refl.
    repeat split; first [reflexivity | assumption | discriminate].
  - destruct ph; try discriminate.
    destruct (_extracted_filename o) eqn:E; try discriminate.
    injection H as <- <- <-. eexists. rewrite Nat.eqb_refl.
    repeat split; first [reflexivity | assumption | discriminate].
  - injection H as <- <- <-. eexists. rewrite Nat.eqb_refl.
    repeat split; first [reflexivity | assumption | discriminate].
Qed.

Lemma sys_event_facts {X} (c : SysCall X) (x : X) i :
  is_set_event (sys_event c x) = false /\
  is_start_event (sys_event c x) = is_start c /\
  (forall hd, serial hd [(i, sys_event c x)]
              = if match c with resource_filename _ _ => true | _ => false end
                then Some hd
                else if holds i hd then Some hd else None) /\
  sys_event c x <> EvLockAcquire.
Proof.
  destruct c; cbn; (split; [reflexivity|]); (split; [reflexivity|]);
    (split; [intros hd; reflexivity|discriminate]).
Qed.

Section PoolSteps.

Context {os : OS}.

Lemma not_holder cfg (st : Pool (option string)) gs holder i g :
  Inv cfg st gs holder -> gs !! i = Some g -> is_holding g = false ->
  holds i holder = false.
Proof.
  intros HI Hg Hh. destruct holder as [j|]; [|reflexivity]. cbn.
  destruct (Nat.eqb_spec i j) as [->|]; [|reflexivity].
  destruct (inv_holder2 _ _ _ _ HI j eq_refl) as [ph Hph].
  rewrite Hg in Hph. injection Hph as ->. discriminate.
Qed.

Lemma inv_step (cfg : Config) (st : Pool (option string)) gs holder i :
  Inv cfg st gs holder ->
  exists gs' holder', Inv cfg (step_thread st i) gs' holder'.
Proof.
  intros HI. unfold step_thread.
  destruct (threads st !! i) as [p|] eqn:Hp; [|eauto].
  pose proof (inv_threads _ _ _ _ HI i) as T. rewrite Hp in T.
  inversion T as [g p0 Hok Eg Ep|]; subst p0. symmetry in Eg. clear T.
  destruct g; cbn in Hok.
  - (* the thread makes its first call *)
    subst p. unfold dll_filename in *. cbn in *.
    set (x := fst (os_exec (resource_filename (package_name cfg) (dll_basename cfg))
                     (pool_world st))).
    pose proof (not_holder _ _ _ _ _ _ HI Eg eq_refl) as Hnh.
    exists (<[i := match x with inl NotImplementedError => GWaiting | _ => GDirect end]> gs), holder.
    eapply (inv_update cfg st gs holder i _ _ _ _ _ _ _ _ HI Hp Eg); cbn.
    + destruct x as [[]|]; cbn; auto.
    + auto.
    + destruct x as [[]|]; cbn; rewrite Hnh; reflexivity.
    + destruct x as [[]|]; cbn; discriminate.
    + apply (inv_lock _ _ _ _ HI).
    + reflexivity.
    + destruct (_extracted_filename (pool_self st)); reflexivity.
    + destruct x as [[]|]; reflexivity.
    + discriminate.
    + discriminate.
  - (* finished without the lock *)
    destruct p; try contradiction; eauto.
  - (* the thread asks for the lock *)
    subst p.
    change (dll_filename_extracted cfg)
      with (Self lock_acquire
              (fun _ => try_finally (dll_filename_locked cfg) (Self lock_release Ret)))
      in *.
    cbn -[try_finally dll_filename_locked].
    destruct (_lock (pool_self st)) eqn:El; [eauto|].
    assert (Hnone : holder = None).
    { pose proof (inv_lock _ _ _ _ HI) as L. rewrite El in L.
      destruct holder; [discriminate|reflexivity]. }
    exists (<[i := GHolding NotStarted]> gs), (Some i).
    eapply (inv_update cfg st gs holder i _ _ _ _ _ _ _ _ HI Hp Eg);
      cbn -[try_finally dll_filename_locked].
    + split; [discriminate|]. eexists. split; [reflexivity|]. apply locked_cs.
    + auto.
    + reflexivity.
    + auto.
    + reflexivity.
    + rewrite Hnone. reflexivity.
    + destruct (_extracted_filename (pool_self st)); reflexivity.
    + reflexivity.
    + reflexivity.
    + discriminate.
  - (* the thread holds the lock *)
    destruct Hok as (Hst & body & -> & Hcs).
    pose proof (inv_holder1 _ _ _ _ HI i ph Eg) as Hhol.
    pose proof (inv_lock _ _ _ _ HI) as L. rewrite Hhol in L.
    destruct body as [a|e|X c k|X c k]; cbn in Hcs, Hp |- *.
    + (* leaves the section with the cached path *)
      destruct Hcs as (-> & Hsome & Hph).
      destruct (_extracted_filename (pool_self st)) as [path|] eqn:Efn; [|congruence].
      exists (<[i := GReturned]> gs), None.
      eapply (inv_update cfg st gs holder i _ _ _ _ _ _ _ _ HI Hp Eg); cbn.
      * rewrite ?Efn. eauto.
      * rewrite ?Efn. auto.
      * rewrite Hhol. cbn. now rewrite Nat.eqb_refl.
      * discriminate.
      * reflexivity.
      * rewrite Hhol. cbn. now rewrite Nat.eqb_refl.
      * rewrite ?Efn. reflexivity.
      * destruct ph; try reflexivity. congruence.
      * discriminate.
      * reflexivity.
    + (* leaves the section with an exception *)
      exists (<[i := GFailed match ph with Started => true | _ => false end]> gs), None.
      eapply (inv_update cfg st gs holder i _ _ _ _ _ _ _ _ HI Hp Eg); cbn.
      * eauto.
      * auto.
      * rewrite Hhol. cbn. now rewrite Nat.eqb_refl.
      * discriminate.
      * reflexivity.
      * rewrite Hhol. cbn. now rewrite Nat.eqb_refl.
      * destruct (_extracted_filename (pool_self st)); reflexivity.
      * destruct ph; reflexivity.
      * discriminate.
      * reflexivity.
    + (* reads or writes an attribute *)
      destruct (cs_self c ph (_extracted_filename (pool_self st)))
        as [[[x ph'] cur']|] eqn:Ecs; [|contradiction].
      destruct (cs_self_exec c _ _ _ _ _ (pool_self st) i Ecs L eq_refl)
        as (o' & Hex & Hl' & Hf' & Hser & Hns & Hna & Hset).
      rewrite Hex.
      exists (<[i := GHolding ph']> gs), (Some i).
      eapply (inv_update cfg st gs holder i _ _ _ _ _ _ _ _ HI Hp Eg); cbn.
      * rewrite Hf'. split.
        -- destruct (is_set_event (self_event c x)).
           ++ destruct Hset as (_ & _ & -> & _). discriminate.
           ++ destruct Hset as [-> ->]. exact Hst.
        -- eexists. split; [reflexivity|exact Hcs].
      * intros j gj pj Hne Hgj Hokj. rewrite Hf'.
        destruct (is_set_event (self_event c x)).
        -- destruct Hset as (_ & Hnone & _ & _).
           destruct gj; cbn in *; auto.
           ++ pose proof (inv_holder1 _ _ _ _ HI j ph0 Hgj). congruence.
           ++ destruct Hokj as (path & _ & Hpath). congruence.
        -- destruct Hset as [_ ->]. exact Hokj.
      * reflexivity.
      * auto.
      * rewrite Hl'. reflexivity.
      * rewrite Hhol. exact Hser.
      * rewrite Hf'. destruct (is_set_event (self_event c x)).
        -- destruct Hset as (_ & -> & _ & Hsome). destruct cur'; [reflexivity|congruence].
        -- destruct Hset as [_ ->].
           destruct (_extracted_filename (pool_self st)); reflexivity.
      * rewrite Hns. destruct (is_set_event (self_event c x)).
        -- destruct Hset as (-> & _ & -> & _). reflexivity.
        -- destruct Hset as [-> _]. reflexivity.
      * intros He. destruct (Hna He).
      * reflexivity.
    + (* calls the environment *)
      set (x := fst (os_exec c (pool_world st))).
      destruct (sys_event_facts c x i) as (Hns & Hst' & Hser & Hna).
      exists (<[i := GHolding (if is_start c then Started else ph)]> gs), (Some i).
      eapply (inv_update cfg st gs holder i _ _ _ _ _ _ _ _ HI Hp Eg).
      * cbn. destruct (is_start c).
        -- destruct Hcs as (-> & Hnone & Hk). split; [auto|].
           eexists. split; [reflexivity|apply Hk].
        -- split; [exact Hst|]. eexists. split; [reflexivity|apply Hcs].
      * auto.
      * reflexivity.
      * auto.
      * exact L.
      * rewrite Hhol, Hser. cbn. rewrite Nat.eqb_refl. destruct c; reflexivity.
      * fold x. rewrite Hns. cbn.
        destruct (_extracted_filename (pool_self st)); reflexivity.
      * fold x. rewrite Hns, Hst'. destruct (is_start c).
        -- destruct Hcs as (-> & _). reflexivity.
        -- cbn. lia.
      * intros He. destruct (Hna He).
      * reflexivity.
  - (* finished with the cached path *)
    destruct Hok as (path & -> & _). eauto.
  - (* finished with an exception *)
    destruct Hok as (e & ->). eauto.
Qed.

End PoolSteps.
Lemma sum_pend_zero gs :
  (forall i g, gs !! i = Some g -> pend g = 0%nat) ->
  sum_list (pend <$> gs) = 0%nat.
Proof.
  induction gs as [|g gs IH]; intros H; [reflexivity|].
  rewrite fmap_cons. cbn. rewrite (H 0%nat g eq_refl). cbn.
  apply IH. intros i g' Hi. apply (H (S i) g' Hi).
Qed.

Lemma try_finally_not_ret {A} (body : Prog A) fin (v : A) :
  try_finally body (Self lock_release fin) <> Ret v.
Proof. destruct body; discriminate. Qed.

Section Callers.

Context {os : OS}.

Lemma inv_init (cfg : Config) n w :
  Inv cfg (callers cfg n w) (replicate n GFresh) None.
Proof.
  constructor;
    unfold callers;
    cbn [threads pool_self pool_log _extracted_filename _lock __init__ serial
         count_events extractions completed].
  - intros i. destruct (decide (i < n)%nat) as [Hlt|Hge].
    + rewrite !lookup_replicate_2 by assumption. now constructor.
    + assert (H1 : replicate n GFresh !! i = None)
        by (apply lookup_replicate_None; lia).
      assert (H2 : replicate n (dll_filename cfg) !! i = None)
        by (apply lookup_replicate_None; lia).
      rewrite H1, H2. constructor.
  - intros i ph H. apply lookup_replicate_1 in H as [[=] _].
  - discriminate.
  - reflexivity.
  - reflexivity.
  - reflexivity.
  - rewrite sum_pend_zero; [reflexivity|].
    intros i g H. apply lookup_replicate_1 in H as [-> _]. reflexivity.
  - intros i [].
Qed.

Lemma inv_run (cfg : Config) sched (st : Pool (option string)) gs holder :
  Inv cfg st gs holder ->
  exists gs' holder', Inv cfg (run_schedule st sched) gs' holder'.
Proof.
  revert st gs holder. induction sched as [|i sched IH]; intros st gs holder HI.
  - eauto.
  - destruct (inv_step cfg st gs holder i HI) as (gs1 & h1 & H1).
    exact (IH _ _ _ H1).
Qed.

(** C4 (as amended): [n] threads call [dll_filename] on one fresh object,
    interleaved by any schedule, in any environment.  Then
    - the log is serialized: but for the [resource_filename] call that
      precedes the locked section, every call is made by the thread that
      holds the lock, which is acquired only when free;
    - at most one extraction completes (publishes a path);
    - all callers that have returned through the locked section have
      returned the same value, and it is a path;
    - when no thread has raised and some caller has returned through the
      locked section, exactly one extraction has been started. *)
Theorem callers_are_serialized (cfg : Config) (n : nat) w (sched : list nat) :
  let st := run_schedule (callers cfg n w) sched in
  serialized (pool_log st) = true /\
  (completed (pool_log st) <= 1)%nat /\
  (forall i j p q,
      threads st !! i = Some (Ret p) ->
      threads st !! j = Some (Ret q) ->
      In (i, EvLockAcquire) (pool_log st) ->
      In (j, EvLockAcquire) (pool_log st) ->
      p = q /\ exists path, p = Some path) /\
  ((forall i e, threads st !! i <> Some (Raise e)) ->
   (exists i v, threads st !! i = Some (Ret v) /\
                In (i, EvLockAcquire) (pool_log st)) ->
   extractions (pool_log st) = 1%nat).
Proof.
  intros st.
  destruct (inv_run cfg sched _ _ _ (inv_init cfg n w)) as (gs & holder & HI).
  fold st in HI.
  assert (Hret : forall i v,
             threads st !! i = Some (Ret v) ->
             In (i, EvLockAcquire) (pool_log st) ->
             exists path, v = Some path /\
                          _extracted_filename (pool_self st) = Some path).
  { intros i v Hi Hin.
    destruct (inv_entered _ _ _ _ HI i Hin) as (g & Hg & He).
    pose proof (inv_threads _ _ _ _ HI i) as T. rewrite Hg, Hi in T.
    inversion T as [? ? Hok|]; subst.
    destruct g; try discriminate; cbn in Hok.
    - destruct Hok as (_ & body & Hb & _). symmetry in Hb.
      destruct (try_finally_not_ret _ _ _ Hb).
    - destruct Hok as (path & [= ->] & Hfn). eauto.
    - destruct Hok as (e & [=]). }
  split; [|split; [|split]].
  - unfold serialized. now rewrite (inv_serial _ _ _ _ HI).
  - rewrite (inv_sets _ _ _ _ HI).
    destruct (_extracted_filename (pool_self st)); lia.
  - intros i j p q Hi Hj Ii Ij.
    destruct (Hret i p Hi Ii) as (path & -> & Hp).
    destruct (Hret j q Hj Ij) as (path' & -> & Hq).
    split; [congruence|eauto].
  - intros Hnr (i & v & Hi & Ii).
    destruct (Hret i v Hi Ii) as (path & -> & Hfn).
    rewrite (inv_starts _ _ _ _ HI), (inv_sets _ _ _ _ HI), Hfn.
    rewrite sum_pend_zero; [reflexivity|].
    intros j g Hg.
    pose proof (inv_threads _ _ _ _ HI j) as T. rewrite Hg in T.
    inversion T as [? pj Hok Eg Ep|]; subst.
    destruct g as [| | |[]| |[]]; try reflexivity; cbn in Hok.
    + destruct Hok as (Hst & _). rewrite Hfn in Hst.
      specialize (Hst eq_refl). discriminate.
    + destruct Hok as (e & ->). symmetry in Ep. destruct (Hnr j e Ep).
Qed.

End Callers.

(* ===================================================================== *)
(** * The theorems at work in the simulated directory                     *)
(* ===================================================================== *)

(** The names of the comment in [_win32_extract]. *)
Example example_dll_name :
  tmp_prefix shipped +:+ "fc6wu23" +:+ dll_suffix shipped
  = "dropbox_sqlite_ext.{5f3e3153-5bce-5766-8f84-3e3e7ecf0d81}.tmpfc6wu23.dll".
Proof. vm_compute. reflexivity. Qed.

Example example_lck_to_dll :
  lck_to_dll shipped
    "C:\Users\dlitz\AppData\Local\Temp\dropbox_sqlite_ext.{5f3e3153-5bce-5766-8f84-3e3e7ecf0d81}.tmpfc6wu23.lck"
  = Ret "C:\Users\dlitz\AppData\Local\Temp\dropbox_sqlite_ext.{5f3e3153-5bce-5766-8f84-3e3e7ecf0d81}.tmpfc6wu23.dll".
Proof. vm_compute. reflexivity. Qed.

(** The pattern ignores case, and unrelated files do not match. *)
Example example_dll_regex :
  dll_regex shipped (leftover_name "AbCdEf.DLL") = Some (leftover_name "AbCdEf") /\
  dll_regex shipped (leftover_name "abcdef.lck") = None /\
  dll_regex shipped "notes.txt" = None.
Proof. vm_compute. repeat split. Qed.

(** An extraction into an empty directory creates one pair; a second call
    on the same object returns the same path and creates nothing. *)
Example example_second_call :
  let r1 := @run Sim.os _ (dll_filename shipped) __init__ scenario_a in
  let r2 := @run Sim.os _ (dll_filename shipped) (self_after r1) (world_after r1) in
  outcome r1 = Returned (Some (leftover "fc6wu2.dll")) /\
  outcome r2 = outcome r1 /\
  Sim.paths (world_after r1) = [leftover "fc6wu2.lck"; leftover "fc6wu2.dll"] /\
  Sim.files (world_after r2) = Sim.files (world_after r1).
Proof. vm_compute. repeat split. Qed.

(** An extraction into a directory with an orphaned pair, a pair whose
    lock is held and a bystander: the orphaned pair goes, the held pair
    and the bystander stay, and a fresh pair is created. *)
Example example_stale_pairs :
  let r := @run Sim.os _ (dll_filename shipped) __init__ stale_world in
  outcome r = Returned (Some (leftover "fc6wu2.dll")) /\
  Sim.paths (world_after r)
  = [leftover "bbbbbb.lck"; leftover "bbbbbb.dll"; "C:\Temp\notes.txt";
     leftover "fc6wu2.lck"; leftover "fc6wu2.dll"].
Proof. vm_compute. split; reflexivity. Qed.

Ltac pick := repeat (first [left; reflexivity | right]).

(** Defect behind C1: a dll of an earlier run is still in use and
    [tempfile] draws its token again.  The creation of the dll collides;
    the loop makes no second attempt though nine more tokens are there to
    draw; what the caller gets is the error of [CreateFileW], not an
    assertion on the retries; and the lock file just created stays in the
    directory, next to the old dll. *)
Theorem first_collision_is_fatal :
  let r := @run Sim.os _ (dll_filename shipped) __init__ collision_world in
  outcome r
    = Raised (pywintypes_error
                (Sim.werr ERROR_FILE_EXISTS "CreateFileW" "The file exists.")) /\
  attempts (trace r) = 1%nat /\
  Sim.paths (world_after r) = [leftover "fc6wu2.dll"; leftover "fc6wu2.lck"] /\
  length (Sim.tokens (world_after r)) = 9%nat.
Proof. vm_compute. repeat split. Qed.

Lemma scan_handles_each_candidate_witness :
  exists segs,
    trace (@run Sim.os _ (scan shipped "C:\Temp") __init__ stale_world)
      = EvListdir "C:\Temp" (inr stale_names) :: concat segs /\
    Forall2 (candidate_handled shipped "C:\Temp") stale_names segs.
Proof.
  apply (@scan_handles_each_candidate Sim.os shipped "C:\Temp" __init__
           stale_world stale_names).
  - vm_compute. reflexivity.
  - repeat (constructor; [vm_compute; reflexivity|]). constructor.
Defined.

Lemma cached_path_is_returned_witness :
  exists path,
    Some (leftover "fc6wu2.dll") = Some path /\
    forall w2,
      let ask := resource_filename (package_name shipped) (dll_basename shipped) in
      fst (@os_exec Sim.os _ ask w2) = inl NotImplementedError ->
      let r2 := @run Sim.os _ (dll_filename shipped)
                  (self_after (@run Sim.os _ (dll_filename shipped) __init__ scenario_a))
                  w2 in
      outcome r2 = Returned (Some path) /\
      self_after r2
        = self_after (@run Sim.os _ (dll_filename shipped) __init__ scenario_a) /\
      world_after r2 = snd (@os_exec Sim.os _ ask w2) /\
      trace r2 = [EvResourceFilename (package_name shipped) (dll_basename shipped)
                    (inl NotImplementedError);
                  EvLockAcquire;
                  EvGetExtractedFilename (Some path);
                  EvGetExtractedFilename (Some path);
                  EvLockRelease].
Proof.
  apply (@cached_path_is_returned Sim.os shipped __init__ scenario_a
           (Some (leftover "fc6wu2.dll"))).
  - vm_compute. reflexivity.
  - vm_compute. pick.
Defined.

(** Counterexample to C5 as stated: a scanner denies the load and removes
    the file.  [LoadLibrary] fails with access denied; the permission
    check then fails with file-not-found, and that error, not the error
    of the loader, is what the caller receives. *)
Lemma load_error_replaced_example :
  let r := @run Sim.os _ (dll_filename shipped) __init__ quarantine_world in
  In (EvLoadLibrary (leftover "fc6wu2.dll")
        (inl (Sim.werr ERROR_ACCESS_DENIED "LoadLibrary" "Access is denied.")))
     (trace r) /\
  outcome r
    = Raised (pywintypes_error
                (Sim.werr ERROR_FILE_NOT_FOUND "CreateFileW"
                   "The system cannot find the file specified.")).
Proof. vm_compute. split; [pick|reflexivity]. Qed.

Lemma load_after_write_and_close_witness :
  let tr := trace (@run Sim.os _ (_win32_extract shipped) __init__ scenario_a) in
  exists h dllfile infile,
    [EvCreateFileW (leftover "fc6wu2.dll") GENERIC_WRITE 0 CREATE_NEW
       FILE_ATTRIBUTE_NORMAL (inr h);
     EvFdopen h "wb" (inr dllfile);
     EvResourceStream (package_name shipped) (dll_basename shipped) (inr infile);
     EvCopyfileobj infile dllfile None;
     EvFileClose dllfile None] `sublist_of` take 19 tr.
Proof.
  intros tr.
  apply (@load_after_write_and_close Sim.os shipped __init__ scenario_a
           (take 19 tr) (EvLoadLibrary (leftover "fc6wu2.dll") (inr 3%nat))
           (drop 20 tr)).
  vm_compute. reflexivity.
Defined.

(** Counterexample to C7 as stated: in an extraction into an empty
    directory the delete attempt on the lock and the existence test are
    events 11 and 12, the copy of the payload is event 15 and the close of
    the dll file event 17; no delete or test follows. *)
Lemma sanity_check_precedes_write_example :
  let tr := trace (@run Sim.os _ (_win32_extract shipped) __init__ scenario_a) in
  tr !! 11%nat = Some (EvUnlink (leftover "fc6wu2.lck") (Some ERROR_SHARING_VIOLATION)) /\
  tr !! 12%nat = Some (EvPathExists (leftover "fc6wu2.lck") true) /\
  tr !! 15%nat = Some (EvCopyfileobj 2%nat 1%nat None) /\
  tr !! 17%nat = Some (EvFileClose 1%nat None) /\
  Forall (fun e => match e with
                   | EvUnlink _ _ | EvPathExists _ _ => False
                   | _ => True
                   end) (drop 13 tr).
Proof.
  vm_compute. repeat (split; [reflexivity|]).
  repeat (constructor; [exact I|]). constructor.
Qed.

Lemma sanity_check_before_write_witness :
  let tr := trace (@run Sim.os _ (_win32_extract shipped) __init__ scenario_a) in
  (exists lockfile lockfilename h dllfilename deleted present before,
      lck_to_dll shipped lockfilename = Ret dllfilename /\
      take 15 tr
      = before
        ++ pair_events shipped lockfile lockfilename h 1%nat dllfilename
        ++ sanity_events shipped lockfilename deleted present
        ++ [EvTRACE "%s: Writing dll contents: %r"
              [PStr (dll_name shipped); PStr dllfilename];
            EvResourceStream (package_name shipped) (dll_basename shipped)
              (inr 2%nat)]) /\
  Forall (fun e' => match e' with
                    | EvUnlink _ _ | EvPathExists _ _ => False
                    | _ => True
                    end) (drop 16 tr).
Proof.
  intros tr.
  apply (@sanity_check_before_write Sim.os shipped __init__ scenario_a
           (take 15 tr) (EvCopyfileobj 2%nat 1%nat None) (drop 16 tr)).
  vm_compute. reflexivity.
Defined.

Lemma payload_identity_deterministic_witness :
  dll_uuid shipped = dll_uuid shipped /\
  "dropbox_sqlite_ext.{5f3e3153-5bce-5766-8f84-3e3e7ecf0d81}.tmp"
  = "dropbox_sqlite_ext.{5f3e3153-5bce-5766-8f84-3e3e7ecf0d81}.tmp" /\
  "dropbox_sqlite_ext.{5f3e3153-5bce-5766-8f84-3e3e7ecf0d81}.tmp"
  = dll_name shipped +:+ ".{" +:+ uuid.str (dll_uuid shipped) +:+ "}.tmp".
Proof.
  apply (payload_identity_deterministic Sim.os Sim.os shipped shipped
           __init__ scenario_a
           {| _lock := true; _extracted_lockfile := None; _extracted_filename := None |}
           collision_world
           _ ".lck" false (inr (0%nat, leftover "fc6wu2.lck"))
           _ ".lck" false (inr (0%nat, leftover "fc6wu2.lck")));
    try reflexivity; vm_compute; pick.
Defined.

Lemma failed_extraction_is_not_cached_witness :
  let r := @run Sim.os _ (dll_filename shipped) __init__ quarantine_world in
  self_after r = __init__ /\
  forall w2,
    let ask := resource_filename (package_name shipped) (dll_basename shipped) in
    _extracted_filename __init__ = None ->
    pystr.startswith "win" (sys_platform shipped) = true ->
    fst (@os_exec Sim.os _ ask w2) = inl NotImplementedError ->
    exists rest,
      trace (@run Sim.os _ (dll_filename shipped) (self_after r) w2)
        = EvResourceFilename (package_name shipped) (dll_basename shipped)
            (inl NotImplementedError)
          :: EvLockAcquire
          :: EvGetExtractedFilename None
          :: EvTRACE fmt_need_to_extract
               [PStr (dll_name shipped); PStr (dll_basename shipped)]
          :: rest.
Proof.
  apply (@failed_extraction_is_not_cached Sim.os shipped __init__ quarantine_world
           (pywintypes_error
              (Sim.werr ERROR_FILE_NOT_FOUND "CreateFileW"
                 "The system cannot find the file specified."))).
  - reflexivity.
  - vm_compute. reflexivity.
Defined.

(** Counterexample to C4 as stated: the temporary directory lacks the
    execute permission and two threads call [dll_filename].  Each of them
    performs an extraction of its own, and each receives
    [BrokenTempDirError], not a path. *)
Lemma two_failed_extractions_example :
  let st := @run_schedule Sim.os _ (@callers Sim.os shipped 2 noexec_world) round_robin in
  threads st
    = [Raise (BrokenTempDirError
                "Broken temporary directory (missing execute permission): %r"
                "C:\Temp");
       Raise (BrokenTempDirError
                "Broken temporary directory (missing execute permission): %r"
                "C:\Temp")] /\
  extractions (pool_log st) = 2%nat.
Proof. vm_compute. split; reflexivity. Qed.

Lemma callers_are_serialized_witness :
  extractions (pool_log (@run_schedule Sim.os _ (@callers Sim.os shipped 2 scenario_a) round_robin)) = 1%nat /\
  (Some (leftover "fc6wu2.dll") = Some (leftover "fc6wu2.dll") /\
   exists path, Some (leftover "fc6wu2.dll") = Some path).
Proof.
  pose proof (@callers_are_serialized Sim.os shipped 2 scenario_a round_robin) as H.
  cbv zeta in H.
  destruct H as (_ & _ & Hsame & Hone).
  assert (Hth : threads (@run_schedule Sim.os _ (@callers Sim.os shipped 2 scenario_a) round_robin) = [Ret (Some (leftover "fc6wu2.dll"));
                              Ret (Some (leftover "fc6wu2.dll"))])
    by (vm_compute; reflexivity).
  assert (H0 : In (0%nat, EvLockAcquire) (pool_log (@run_schedule Sim.os _ (@callers Sim.os shipped 2 scenario_a) round_robin))) by (vm_compute; pick).
  assert (H1 : In (1%nat, EvLockAcquire) (pool_log (@run_schedule Sim.os _ (@callers Sim.os shipped 2 scenario_a) round_robin))) by (vm_compute; pick).
  split.
  - apply Hone.
    + (intros i e; rewrite Hth). (destruct i as [|[|i]]; cbn; intros [=]).
    + exists 0%nat, (Some (leftover "fc6wu2.dll")). rewrite Hth. (split; [reflexivity|exact H0]).
  - (apply (Hsame 0%nat 1%nat); [rewrite Hth; reflexivity|rewrite Hth; reflexivity|exact H0|exact H1]).
Defined.

(* ===================================================================== *)
(** * Every call of every run                                             *)
(* ===================================================================== *)

Lemma always_trace {os : OS} {R} (PE : Event -> Prop) (p : Prog R) o w :
  always PE p -> Forall PE (trace (run p o w)).
Proof.
  revert o w. induction p as [r|e|X c k IH|X c k IH]; intros o w H; simpl in *.
  - constructor.
  - constructor.
  - destruct (self_exec c o) as [[x o']|]; simpl; [|constructor].
    constructor; [apply H|apply IH, H].
  - constructor; [apply H|apply IH, H].
Qed.

Lemma always_mono {R} (PE PE' : Event -> Prop) (p : Prog R) :
  (forall e, PE e -> PE' e) -> always PE p -> always PE' p.
Proof.
  intros HP. induction p as [r|e|X c k IH|X c k IH]; simpl; auto;
    intros H x; (split; [apply HP, H|apply IH, H]).
Qed.

Lemma always_bind {A B} PE (m : Prog A) (f : A -> Prog B) :
  always PE m -> (forall a, always PE (f a)) -> always PE (bind m f).
Proof.
  intros Hm Hf. induction m as [r|e|X c k IH|X c k IH]; simpl in *; auto;
    intros x; (split; [apply Hm|apply IH, Hm]).
Qed.

Lemma always_try_except {A} PE (m : Prog A) h :
  always PE m -> (forall e p, h e = Some p -> always PE p) ->
  always PE (try_except m h).
Proof.
  intros Hm Hh. induction m as [r|e|X c k IH|X c k IH]; simpl in *; auto.
  - destruct (h e) eqn:E; [eapply Hh, E|exact I].
  - intros x; (split; [apply Hm|apply IH, Hm]).
  - intros x; (split; [apply Hm|apply IH, Hm]).
Qed.

Lemma always_try_finally {A} PE (m : Prog A) fin :
  always PE m -> always PE fin -> always PE (try_finally m fin).
Proof.
  intros Hm Hf. induction m as [r|e|X c k IH|X c k IH]; simpl in *.
  - apply always_bind; [exact Hf|intros; exact I].
  - apply always_bind; [exact Hf|intros; exact I].
  - intros x; (split; [apply Hm|apply IH, Hm]).
  - intros x; (split; [apply Hm|apply IH, Hm]).
Qed.

Lemma always_for_each {A} PE (items : list A) body :
  (forall x, always PE (body x)) -> always PE (for_each items body).
Proof.
  intros Hb. induction items as [|x rest IH]; simpl; [exact I|].
  apply always_bind; [apply Hb|intros; exact IH].
Qed.

(** One step in the proof that a program always satisfies a predicate:
    the events that are left are those the predicate speaks about. *)
Ltac always_step :=
  lazymatch goal with
  | |- True => exact I
  | |- forall _, _ => intro
  | |- _ /\ _ => split
  | |- always _ (bind (scan _ _) _) => apply always_bind; [unfold scan|intros ?]
  | |- always _ (try_except (for_each _ _) _) =>
      apply always_try_except;
      [apply always_for_each; intros ?; unfold scan_entry, dll_to_lck
      |intros ? ? [= <-]]
  | |- always _ ?p =>
      first [ progress cbn
            | progress unfold lck_to_dll
            | let x := head_stuck p in destruct x eqn:? ]
  end.

Ltac always_run := repeat always_step.

Lemma extract_opens_safely cfg : always opens_safely (_win32_extract cfg).
Proof.
  unfold _win32_extract. always_run; cbn; auto.
Qed.

Lemma extract_deletes_own cfg : always (deletes_own cfg) (_win32_extract cfg).
Proof.
  unfold _win32_extract. always_run; cbn.
  all: unfold own_file;
    first [ right; right; eexists _, _; split; [eassumption|reflexivity]
          | left; congruence
          | right; left; congruence ].
Qed.

Lemma extract_keeps_lock cfg :
  always (fun e => is_lock_event e = false) (_win32_extract cfg).
Proof.
  unfold _win32_extract. always_run; reflexivity.
Qed.

(** A property of the events of an extraction holds of the events of
    every call of [dll_filename], when the calls around the extraction
    have it too. *)
Lemma always_dll_filename cfg (PE : Event -> Prop) :
  (forall a, PE (EvResourceFilename (package_name cfg) (dll_basename cfg) a)) ->
  PE EvLockAcquire -> PE EvLockRelease ->
  (forall a, PE (EvGetExtractedFilename a)) ->
  always PE (_win32_extract cfg) ->
  always PE (dll_filename cfg).
Proof.
  intros Hr Ha Hl Hg He. unfold dll_filename. apply always_try_except.
  { cbn. intros a. split; [apply Hr|]. destruct a; exact I. }
  intros e p. destruct e; intros [= <-].
  unfold dll_filename_extracted, with_lock. intros []. split; [exact Ha|].
  apply always_try_finally; [|cbn; intros []; split; [exact Hl|exact I]].
  unfold dll_filename_locked. cbn. intros cached. split; [apply Hg|].
  destruct cached as [p|]; cbn.
  - intros x. split; [apply Hg|exact I].
  - destruct (pystr.startswith "win" (sys_platform cfg)); [|exact I].
    apply always_bind; [exact He|]. intros _. cbn. intros x. split; [apply Hg|exact I].
Qed.

Section WholeCall.

Context {os : OS}.

(** X12: whatever the environment answers, every [CreateFileW] call of
    [dll_filename] either creates a new file for writing, with
    [CREATE_NEW] and no sharing, which fails when the name exists, or
    opens an existing file for reading and executing; every [fdopen] is
    for writing bytes; and every [NamedTemporaryFile] is kept on close
    and named [.lck].  No existing file is opened for writing. *)
Theorem files_are_opened_safely (cfg : Config) o w :
  Forall opens_safely (trace (run (dll_filename cfg) o w)).
Proof.
  apply always_trace, always_dll_filename; cbn; auto.
  apply extract_opens_safely.
Qed.

(** X11: whatever the environment answers, every file that a call of
    [dll_filename] tries to delete is one of these: a file whose
    basename matches the dll pattern, a file whose basename matches the
    lock pattern, or the lock file that [dll_to_lck] pairs with a file
    whose basename matches the dll pattern. *)
Theorem only_own_files_are_deleted (cfg : Config) o w p a :
  In (EvUnlink p a) (trace (run (dll_filename cfg) o w)) -> own_file cfg p.
Proof.
  intros H.
  assert (F : Forall (deletes_own cfg) (trace (run (dll_filename cfg) o w))).
  { apply always_trace, always_dll_filename; cbn; auto.
    apply extract_deletes_own. }
  exact (proj1 (List.Forall_forall _ _) F _ H).
Qed.

End WholeCall.
(* ===================================================================== *)
(** * Strings, patterns and paths                                         *)
(* ===================================================================== *)

Lemma append_nil_r (s : string) : s +:+ EmptyString = s.
Proof. induction s as [|c s IH]; [reflexivity|]. rewrite append_cons, IH. reflexivity. Qed.

Lemma append_assoc (a b c : string) : (a +:+ b) +:+ c = a +:+ b +:+ c.
Proof.
  induction a as [|x a IH]; [reflexivity|]. rewrite !append_cons, IH. reflexivity.
Qed.

Lemma length_append (a b : string) :
  String.length (a +:+ b) = (String.length a + String.length b)%nat.
Proof.
  induction a as [|x a IH]; [reflexivity|]. rewrite append_cons. simpl. now rewrite IH.
Qed.

Lemma substring_all (s : string) : String.substring 0 (String.length s) s = s.
Proof. induction s as [|c s IH]; simpl; [reflexivity|now rewrite IH]. Qed.

Lemma substring_0_append (a b : string) (n : nat) :
  String.substring 0 (String.length a + n) (a +:+ b) = a +:+ String.substring 0 n b.
Proof.
  induction a as [|x a IH]; [reflexivity|].
  rewrite !append_cons. simpl. now rewrite IH.
Qed.

Lemma substring_prefix (a b : string) :
  String.substring 0 (String.length a) (a +:+ b) = a.
Proof.
  rewrite <- (Nat.add_0_r (String.length a)), substring_0_append.
  destruct b; simpl; apply append_nil_r.
Qed.

Lemma substring_skip_append (a b : string) (n : nat) :
  String.substring (String.length a) n (a +:+ b) = String.substring 0 n b.
Proof.
  induction a as [|x a IH]; [reflexivity|]. rewrite append_cons. simpl. exact IH.
Qed.

Lemma ieq_refl (s : string) : pystr.ieq s s = true.
Proof. apply String.eqb_refl. Qed.

(** The compiled pattern on a name made of the prefix, any text and the
    suffix: it matches, and the group is the name without the suffix. *)
Lemma search_literal (prefix suffix t : string) :
  re.search prefix suffix (prefix +:+ t +:+ suffix) = Some (prefix +:+ t).
Proof.
  assert (H1 : String.substring 0 (String.length prefix) (prefix +:+ t +:+ suffix)
               = prefix) by apply substring_prefix.
  assert (H2 : String.substring (String.length prefix + String.length t)
                 (String.length suffix) (prefix +:+ t +:+ suffix) = suffix).
  { rewrite <- append_assoc, <- length_append, substring_skip_append.
    apply substring_all. }
  assert (H3 : String.substring 0 (String.length prefix + String.length t)
                 (prefix +:+ t +:+ suffix) = prefix +:+ t).
  { rewrite <- append_assoc, <- length_append. apply substring_prefix. }
  unfold re.search. cbv zeta.
  rewrite !length_append.
  replace (String.length prefix + (String.length t + String.length suffix)
           - String.length suffix)%nat
    with (String.length prefix + String.length t)%nat by lia.
  rewrite H1, H2, H3, !ieq_refl.
  replace (String.length prefix + String.length suffix
           <=? String.length prefix + (String.length t + String.length suffix))%nat
    with true by (symmetry; apply Nat.leb_le; lia).
  reflexivity.
Qed.

Lemma entry_name_app (a b : string) :
  entry_name (a +:+ b) = entry_name a && entry_name b.
Proof.
  induction a as [|c a IH]; [reflexivity|].
  rewrite append_cons. simpl. rewrite IH. now rewrite !andb_assoc.
Qed.

Lemma entry_name_dll_suffix cfg : entry_name (dll_suffix cfg) = true.
Proof.
  unfold dll_suffix.
  destruct (String.eqb _ _); [reflexivity|]. destruct (String.eqb _ _); reflexivity.
Qed.

(** ** [dirname] of a path joined to a directory name *)

Lemma cut_last_sep_append (p h t : string) :
  ntpath.cut_last_sep p = Some (h, t) -> p = h +:+ t.
Proof.
  revert h t. induction p as [|c p IH]; simpl; [discriminate|]. intros h t.
  destruct (ntpath.cut_last_sep p) as [[h' t']|].
  - intros [= <- <-]. rewrite append_cons, <- (IH h' t' eq_refl). reflexivity.
  - destruct (ntpath.is_sep c); [|discriminate]. intros [= <- <-]. reflexivity.
Qed.

Lemma rstrip_seps_prefix (h : string) :
  exists rest, h = ntpath.rstrip_seps h +:+ rest.
Proof.
  induction h as [|c h [rest IH]]; simpl; [exists EmptyString; reflexivity|].
  destruct (ntpath.rstrip_seps h) as [|c' r'] eqn:E.
  - destruct (ntpath.is_sep c).
    + exists (String c h). reflexivity.
    + exists h. reflexivity.
  - exists rest. rewrite append_cons, <- IH. reflexivity.
Qed.

Lemma rstrip_seps_last (h : string) c :
  pystr.last (ntpath.rstrip_seps h) = Some c -> ntpath.is_sep c = false.
Proof.
  induction h as [|a h IH]; simpl; [discriminate|].
  destruct (ntpath.rstrip_seps h) as [|c' r'] eqn:E.
  - destruct (ntpath.is_sep a) eqn:Ha; simpl; [discriminate|].
    intros [= <-]. exact Ha.
  - change (pystr.last (String a (String c' r'))) with
      (match pystr.last (String c' r') with Some x => Some x | None => Some a end).
    destruct (pystr.last (String c' r')) as [x|] eqn:L.
    + intros [= <-]. apply IH. reflexivity.
    + simpl in L. destruct (pystr.last r'); discriminate.
Qed.

Lemma last_none (s : string) : pystr.last s = None -> s = EmptyString.
Proof. destruct s; simpl; [reflexivity|]. destruct (pystr.last s); discriminate. Qed.

Lemma rstrip_seps_id (h : string) c :
  pystr.last h = Some c -> ntpath.is_sep c = false -> ntpath.rstrip_seps h = h.
Proof.
  intros Hl Hc. induction h as [|a h IH]; [reflexivity|]. simpl in *.
  destruct (pystr.last h) as [x|] eqn:L.
  - rewrite (IH Hl). destruct h; [discriminate|reflexivity].
  - injection Hl as ->. rewrite (last_none h L). simpl. now rewrite Hc.
Qed.

Lemma rstrip_seps_app_sep (h : string) :
  ntpath.rstrip_seps (h +:+ "\") = ntpath.rstrip_seps h.
Proof.
  induction h as [|a h IH]; [reflexivity|]. rewrite append_cons. simpl. now rewrite IH.
Qed.

Lemma splitdrive_none_prefix (a b : string) :
  ntpath.splitdrive (a +:+ b) = (EmptyString, a +:+ b) ->
  ntpath.splitdrive a = (EmptyString, a).
Proof.
  destruct a as [|c [|c2 r]]; try reflexivity.
  rewrite !append_cons. simpl. destruct (Ascii.eqb c2 ":"); [discriminate|reflexivity].
Qed.

Lemma splitdrive_cases (p : string) :
  (exists c r, p = String c (String ":" r) /\
               ntpath.splitdrive p = (String c (String ":" EmptyString), r)) \/
  ntpath.splitdrive p = (EmptyString, p).
Proof.
  destruct p as [|c [|c2 r]]; auto. simpl.
  destruct (Ascii.eqb c2 ":") eqn:E; auto.
  apply Ascii.eqb_eq in E. subst. left. eauto.
Qed.

(** The head [ntpath.split] answers, for the path after the drive. *)
Lemma split_head_stable (p : string) :
  let '(head, tail) :=
    match ntpath.cut_last_sep p with
    | Some (h, t) => (h, t)
    | None => (EmptyString, p)
    end in
  let head2 := ntpath.rstrip_seps head in
  let head := match head2 with EmptyString => head | _ => head2 end in
  (exists rest, p = head +:+ rest) /\
  forall b, entry_name b = true ->
    match ntpath.cut_last_sep (joined_path head +:+ b) with
    | Some (h, _) =>
        match ntpath.rstrip_seps h with
        | EmptyString => h
        | String _ _ => ntpath.rstrip_seps h
        end
    | None => EmptyString
    end = head.
Proof.
  destruct (ntpath.cut_last_sep p) as [[h t]|] eqn:E.
  2:{ simpl. split; [exists p; reflexivity|]. intros b Hb.
      unfold joined_path. simpl. change (EmptyString +:+ b) with b.
      now rewrite (entry_name_cut b Hb). }
  apply cut_last_sep_append in E. subst p.
  destruct (ntpath.rstrip_seps h) as [|c r] eqn:R.
  - split; [exists t; reflexivity|]. intros b Hb. unfold joined_path.
    destruct (pystr.last h) as [x|] eqn:L.
    + destruct (ntpath.is_sep x) eqn:Hx.
      * rewrite (cut_last_sep_app h b x L Hx Hb), R. reflexivity.
      * rewrite (rstrip_seps_id h x L Hx) in R. subst h. discriminate.
    + rewrite (last_none h L). change (EmptyString +:+ b) with b.
      now rewrite (entry_name_cut b Hb).
  - split.
    { destruct (rstrip_seps_prefix h) as [rest Hrest]. rewrite R in Hrest.
      exists (rest +:+ t). rewrite <- append_assoc, <- Hrest. reflexivity. }
    intros b Hb. unfold joined_path.
    destruct (pystr.last (String c r)) as [x|] eqn:L.
    2:{ apply last_none in L. discriminate. }
    assert (Hx : ntpath.is_sep x = false).
    { apply (rstrip_seps_last h). now rewrite R. }
    rewrite Hx.
    rewrite (cut_last_sep_app (String c r +:+ "\") b "\"%char
               (last_app_sep (String c r)) eq_refl Hb).
    rewrite rstrip_seps_app_sep, (rstrip_seps_id _ x L Hx). reflexivity.
Qed.

Lemma dirname_join_dirname (path b : string) :
  entry_name b = true ->
  ntpath.dirname (ntpath.join (ntpath.dirname path) b) = ntpath.dirname path.
Proof.
  intros Hb.
  assert (K : forall d head,
             ntpath.splitdrive (d +:+ head) = (d, head) ->
             (forall b, entry_name b = true ->
                match ntpath.cut_last_sep (joined_path head +:+ b) with
                | Some (h, _) =>
                    match ntpath.rstrip_seps h with
        | EmptyString => h
        | String _ _ => ntpath.rstrip_seps h
        end
                | None => EmptyString
                end = head) ->
             ntpath.dirname (ntpath.join (d +:+ head) b) = d +:+ head).
  { intros d head Hsd Hst. rewrite (join_entry _ b Hb).
    unfold ntpath.dirname, ntpath.split.
    rewrite (splitdrive_joined (d +:+ head) b Hb). rewrite Hsd. cbn [fst snd].
    specialize (Hst b Hb).
    destruct (ntpath.cut_last_sep (joined_path head +:+ b)) as [[h t]|];
      cbn [fst]; [now rewrite Hst|subst head; reflexivity]. }
  unfold ntpath.dirname at 2 3. unfold ntpath.split.
  destruct (splitdrive_cases path) as [(c & r & -> & Hsd)|Hsd]; rewrite Hsd.
  - pose proof (split_head_stable r) as Hst.
    destruct (ntpath.cut_last_sep r) as [[h t]|]; cbn [fst] in *;
      destruct Hst as [_ Hst]; apply K; auto; rewrite !append_cons, append_nil_l;
      simpl; reflexivity.
  - pose proof (split_head_stable path) as Hst.
    destruct (ntpath.cut_last_sep path) as [[h t]|]; cbn [fst] in *;
      destruct Hst as [[rest Hrest] Hst]; rewrite append_nil_l; apply (K EmptyString);
      auto; rewrite append_nil_l; apply (splitdrive_none_prefix _ rest);
      rewrite <- Hrest; exact Hsd.
Qed.

(** ** The prefix is a file name *)

Lemma hexdigit_plain (x : Z) :
  let c := uuid.hexdigit (Z.land x 0xF) in
  ntpath.is_sep c = false /\ Ascii.eqb c ":" = false.
Proof.
  assert (H : 0 <= Z.land x 0xF < 16).
  { change 0xF with (Z.ones 4). rewrite Z.land_ones by lia.
    apply Z.mod_pos_bound. reflexivity. }
  remember (Z.land x 0xF) as d eqn:E. clear E.
  assert (C : d = 0 \/ d = 1 \/ d = 2 \/ d = 3 \/ d = 4 \/ d = 5 \/ d = 6 \/ d = 7 \/
              d = 8 \/ d = 9 \/ d = 10 \/ d = 11 \/ d = 12 \/ d = 13 \/ d = 14 \/
              d = 15) by lia.
  repeat (destruct C as [->|C]; [split; reflexivity|]). subst d. split; reflexivity.
Qed.

Lemma entry_name_hex (n : nat) (x : Z) : entry_name (uuid.hex n x) = true.
Proof.
  induction n as [|n IH]; [reflexivity|]. simpl.
  destruct (hexdigit_plain (Z.shiftr x (4 * Z.of_nat n))) as [-> ->]. exact IH.
Qed.

Lemma entry_name_substring (s : string) (n m : nat) :
  entry_name s = true -> entry_name (String.substring n m s) = true.
Proof.
  revert n m. induction s as [|c s IH]; intros n m H.
  - destruct n, m; reflexivity.
  - simpl in H. apply andb_true_iff in H as [Hc Hs].
    destruct n as [|n]; simpl.
    + destruct m as [|m]; [reflexivity|]. simpl. rewrite Hc. apply IH, Hs.
    + apply IH, Hs.
Qed.

Lemma entry_name_uuid (u : uuid.UUID) : entry_name (uuid.str u) = true.
Proof.
  unfold uuid.str, pystr.take, pystr.drop. cbv zeta.
  rewrite !entry_name_app.
  repeat match goal with
         | |- _ && _ = true => apply andb_true_iff; split
         end;
    first [ reflexivity
          | repeat apply entry_name_substring; apply entry_name_hex ].
Qed.

Lemma entry_name_tmp_prefix (cfg : Config) :
  entry_name (dll_name cfg) = true -> entry_name (tmp_prefix cfg) = true.
Proof.
  intros H. unfold tmp_prefix. rewrite !entry_name_app, H, entry_name_uuid. reflexivity.
Qed.

(** X9: [lck_to_dll] and [dll_to_lck] pair the names.  For a dll name
    without separator or colon, and a lock file whose basename is the
    prefix, a token of that kind and [.lck]: [lck_to_dll] answers the
    dll of the same directory and token; [dll_to_lck] of that dll
    answers the lock file of the same directory and basename; and
    [lck_to_dll] of that lock file is the dll again. *)
Theorem lock_and_dll_names_pair (cfg : Config) (lockfilename token : string) :
  entry_name (dll_name cfg) = true ->
  entry_name token = true ->
  ntpath.basename lockfilename = tmp_prefix cfg +:+ token +:+ lck_suffix ->
  let dir := ntpath.dirname lockfilename in
  let dllfilename := ntpath.join dir (tmp_prefix cfg +:+ token +:+ dll_suffix cfg) in
  let paired := ntpath.join dir (tmp_prefix cfg +:+ token +:+ lck_suffix) in
  lck_to_dll cfg lockfilename = Ret dllfilename /\
  dll_to_lck cfg dllfilename = Ret paired /\
  lck_to_dll cfg paired = Ret dllfilename /\
  ntpath.dirname paired = dir /\
  ntpath.basename paired = ntpath.basename lockfilename.
Proof.
  intros Hd Ht Hb. cbv zeta.
  assert (Hp : entry_name (tmp_prefix cfg) = true) by now apply entry_name_tmp_prefix.
  assert (Hl : entry_name (tmp_prefix cfg +:+ token +:+ lck_suffix) = true).
  { rewrite !entry_name_app, Hp, Ht. reflexivity. }
  assert (Hs : entry_name (tmp_prefix cfg +:+ token +:+ dll_suffix cfg) = true).
  { rewrite !entry_name_app, Hp, Ht, entry_name_dll_suffix. reflexivity. }
  assert (E1 : lck_regex cfg (tmp_prefix cfg +:+ token +:+ lck_suffix)
               = Some (tmp_prefix cfg +:+ token)) by apply search_literal.
  assert (E2 : dll_regex cfg (tmp_prefix cfg +:+ token +:+ dll_suffix cfg)
               = Some (tmp_prefix cfg +:+ token)) by apply search_literal.
  pose proof (dirname_join_dirname lockfilename _ Hs) as D1.
  pose proof (dirname_join_dirname lockfilename _ Hl) as D2.
  unfold lck_to_dll, dll_to_lck.
  rewrite (basename_join _ _ Hs), (basename_join _ _ Hl), Hb, E1, E2, D1, D2.
  rewrite !append_assoc. repeat split; reflexivity.
Qed.

(* ===================================================================== *)
(** * Calls of [dll_filename] that extract nothing                        *)
(* ===================================================================== *)

Lemma wp_conj {R} (p : Prog R) (Q1 Q2 : Post R) o tr :
  wp p Q1 o tr -> wp p Q2 o tr ->
  wp p (fun out o' tr' => Q1 out o' tr' /\ Q2 out o' tr') o tr.
Proof.
  revert o tr. induction p as [r|e|X c k IH|X c k IH]; intros o tr H1 H2; simpl in *; auto.
  destruct (self_exec c o) as [[x o']|]; auto.
Qed.

Lemma wp_always {R} (PE : Event -> Prop) (p : Prog R) o tr :
  always PE p -> Forall PE tr -> wp p (fun _ _ tr' => Forall PE tr') o tr.
Proof.
  revert o tr. induction p as [r|e|X c k IH|X c k IH]; intros o tr H F; simpl in *; auto.
  - destruct (self_exec c o) as [[x o']|]; auto.
    apply IH; [apply H|]. apply Forall_app. split; [exact F|]. repeat constructor. apply H.
  - intros x. apply IH; [apply H|]. apply Forall_app. split; [exact F|].
    repeat constructor. apply H.
Qed.

(** An extraction, seen from the locked section: it sets both attributes
    or none, it never ends waiting for the lock, and it leaves the lock
    alone. *)
Lemma wp_extract_quiet cfg (Q : Post unit) o tr :
  (forall out o' tr',
      extract_effect cfg o out o' tr' ->
      Forall (fun e => is_lock_event e = false) tr' ->
      Q out o' (tr ++ tr')) ->
  wp (_win32_extract cfg) Q o tr.
Proof.
  intros H. apply wp_shift.
  eapply wp_mono;
    [|apply (wp_conj _ _ _ _ _ (extract_self cfg o)
               (wp_always _ _ o [] (extract_keeps_lock cfg) (List.Forall_nil _)))].
  intros out o' tr' [H1 H2]. now apply H.
Qed.

Section NoExtraction.

Context {os : OS}.

(** X1: when [pkg_resources.resource_filename] answers a path,
    [dll_filename] returns that path, and when it raises anything but
    [NotImplementedError], [dll_filename] raises the same exception.
    Either way that call is the only event: the lock is not taken, so the
    caller cannot block even while another thread holds it, and the
    attributes are as before. *)
Theorem resource_path_is_returned (cfg : Config) o w :
  let ask := resource_filename (package_name cfg) (dll_basename cfg) in
  let r := run (dll_filename cfg) o w in
  match fst (os_exec ask w) with
  | inl NotImplementedError => True
  | answer =>
      outcome r = match answer with
                  | inr path => Returned (Some path)
                  | inl e => Raised e
                  end /\
      self_after r = o /\
      world_after r = snd (os_exec ask w) /\
      trace r = [EvResourceFilename (package_name cfg) (dll_basename cfg) answer]
  end.
Proof.
  cbv zeta. unfold dll_filename. cbn.
  destruct (fst (os_exec (resource_filename (package_name cfg) (dll_basename cfg)) w))
    as [e|path] eqn:E; [destruct e|]; cbn; auto.
Qed.

(** X2: in a frozen application on a platform whose name does not start
    with [win], and with no path cached, [dll_filename] raises the
    [NotImplementedError] of [resource_filename] again: it takes the
    lock, reads [_extracted_filename], releases the lock and calls
    nothing else; the attributes are as before. *)
Theorem other_platforms_reraise (cfg : Config) o w :
  let ask := resource_filename (package_name cfg) (dll_basename cfg) in
  let r := run (dll_filename cfg) o w in
  pystr.startswith "win" (sys_platform cfg) = false ->
  _lock o = false ->
  _extracted_filename o = None ->
  fst (os_exec ask w) = inl NotImplementedError ->
  outcome r = Raised NotImplementedError /\
  self_after r = o /\
  world_after r = snd (os_exec ask w) /\
  trace r = [EvResourceFilename (package_name cfg) (dll_basename cfg)
               (inl NotImplementedError);
             EvLockAcquire; EvGetExtractedFilename None; EvLockRelease].
Proof.
  cbv zeta. intros Hwin Hlock Hfn Hask.
  destruct o as [l lf fn]. cbn in Hlock, Hfn. subst l fn.
  unfold dll_filename. cbn. rewrite Hask. cbn. rewrite Hwin. cbn. auto.
Qed.

(** X3: a call of [dll_filename] that starts with the lock free never
    ends waiting for the lock and ends with the lock free, whether it
    returns or raises.  When it takes the lock it does so once, right
    after the call of [resource_filename], and the release is its last
    event: everything else, the extraction included, happens while the
    lock is held. *)
Theorem lock_is_released (cfg : Config) o w :
  let r := run (dll_filename cfg) o w in
  _lock o = false ->
  outcome r <> Blocked /\
  _lock (self_after r) = false /\
  (In EvLockAcquire (trace r) \/ In EvLockRelease (trace r) ->
   exists a, locked_section
               [EvResourceFilename (package_name cfg) (dll_basename cfg) a]
               (trace r)).
Proof.
  cbv zeta. intros Hlock. by_wp.
  destruct o as [l lf fn]. cbn in Hlock. subst l.
  unfold dll_filename. cbn. intros [e|path]; cbn.
  2:{ split; [discriminate|]. split; [reflexivity|].
      intros [[[=]|[]]|[[=]|[]]]. }
  destruct e; cbn;
    try (split; [discriminate|]; split; [reflexivity|];
         intros [[[=]|[]]|[[=]|[]]]; fail).
  unfold dll_filename_extracted, with_lock. cbn.
  assert (Hsec : forall inside rest,
             Forall (fun e => is_lock_event e = false) inside ->
             rest = inside ++ [EvLockRelease] ->
             exists a, locked_section
               [EvResourceFilename (package_name cfg) (dll_basename cfg) a]
               (EvResourceFilename (package_name cfg) (dll_basename cfg)
                  (inl NotImplementedError)
                :: EvLockAcquire :: rest)).
  { intros inside rest F ->. exists (inl NotImplementedError), inside.
    split; [reflexivity|]. split; [repeat constructor|exact F]. }
  destruct fn as [f|]; cbn.
  - split; [discriminate|]. split; [reflexivity|]. intros _.
    apply (Hsec [EvGetExtractedFilename (Some f); EvGetExtractedFilename (Some f)]);
      [repeat constructor|reflexivity].
  - destruct (pystr.startswith "win" (sys_platform cfg)); cbn.
    + apply wp_try_finally, wp_bind, wp_extract_quiet. intros out o' tr' (_ & H) F.
      destruct out as [[]|e|]; cbn.
      * destruct H as (lockfile & dllfilename & ->). cbn.
        split; [discriminate|]. split; [reflexivity|]. intros _.
        rewrite <- !app_assoc. cbn [app].
        apply (Hsec (EvGetExtractedFilename None
                     :: tr' ++ [EvGetExtractedFilename (Some dllfilename)])).
        -- constructor; [reflexivity|]. apply Forall_app.
           split; [exact F|repeat constructor].
        -- cbn. now rewrite <- app_assoc.
      * subst o'. cbn. split; [discriminate|]. split; [reflexivity|]. intros _.
        rewrite <- ?app_assoc. cbn [app].
        apply (Hsec (EvGetExtractedFilename None :: tr')); [|reflexivity].
        constructor; [reflexivity|exact F].
      * destruct H.
    + split; [discriminate|]. split; [reflexivity|]. intros _.
      apply (Hsec [EvGetExtractedFilename None]); [repeat constructor|reflexivity].
Qed.

End NoExtraction.

(* ===================================================================== *)
(** * The steps of an extraction, one by one                              *)
(* ===================================================================== *)

Section Steps.

Context {os : OS}.

(** X8: [can_read_and_execute] makes one [CreateFileW] call, for reading
    and executing an existing file.  It answers [True] when the file
    opens, and then closes the handle at once; [False] when the call
    fails with access denied; any other error of the call is raised
    again.  The attributes are as before. *)
Theorem can_read_and_execute_outcomes (filename : string) o w :
  let r := run (can_read_and_execute filename) o w in
  self_after r = o /\
  exists a,
    trace r =
      EvCreateFileW filename (Z.lor GENERIC_READ GENERIC_EXECUTE) 0 OPEN_EXISTING 0 a
      :: match a with
         | inr h2 => [EvHandleClose h2]
         | inl _ => []
         end /\
    outcome r =
      match a with
      | inr _ => Returned true
      | inl e =>
          if winerror e =? ERROR_ACCESS_DENIED then Returned false
          else Raised (pywintypes_error e)
      end.
Proof.
  by_wp. unfold can_read_and_execute. cbn. intros [e|h2]; cbn.
  - destruct (winerror e =? ERROR_ACCESS_DENIED) eqn:E; cbn;
      (split; [reflexivity|]); exists (inl e); rewrite E; split; reflexivity.
  - intros []. cbn. split; [reflexivity|]. exists (inr h2). split; reflexivity.
Qed.

(** X6: the sanity check of the lock file never raises and leaves the
    attributes alone.  It makes one delete attempt: a sharing violation
    is what it expects and is silent, another error goes to
    [unhandled_exc_handler], and a delete that succeeds is reported as a
    bad assumption.  Then it tests once that the file exists, and
    reports a file that is gone.  The extraction goes on in every case. *)
Theorem sanity_check_only_reports (cfg : Config) (lockfilename : string) o w :
  let r := run (sanity_check cfg lockfilename) o w in
  outcome r = Returned tt /\
  self_after r = o /\
  exists deleted present,
    trace r = sanity_events cfg lockfilename deleted present.
Proof.
  by_wp. unfold sanity_check. cbn. intros [] [code|]; cbn.
  - destruct (code =? ERROR_SHARING_VIOLATION) eqn:E; cbn.
    + intros [|]; cbn; [|intros []]; (split; [reflexivity|]); (split; [reflexivity|]);
        [exists (Some code), true|exists (Some code), false];
        unfold sanity_events; rewrite E; reflexivity.
    + intros [] [|]; cbn; [|intros []]; (split; [reflexivity|]);
        (split; [reflexivity|]);
        [exists (Some code), true|exists (Some code), false];
        unfold sanity_events; rewrite E; reflexivity.
  - intros [] [|]; cbn; [|intros []]; (split; [reflexivity|]); (split; [reflexivity|]);
      [exists None, true|exists None, false]; reflexivity.
Qed.

(** X7: [write_contents] opens the resource stream, copies it into the
    dll file and closes that file.  A stream that was opened is closed
    once, whether the copy raised or not; the dll file is closed only
    after a copy that returned, so a failed copy leaves it open; and the
    exception of the first call that fails is what is raised. *)
Theorem write_contents_closes_stream (cfg : Config) (dllfile : File)
    (dllfilename : string) o w :
  let r := run (write_contents cfg dllfile dllfilename) o w in
  self_after r = o /\
  exists opened rest,
    trace r =
      EvTRACE "%s: Writing dll contents: %r" [PStr (dll_name cfg); PStr dllfilename]
      :: EvResourceStream (package_name cfg) (dll_basename cfg) opened :: rest /\
    match opened with
    | inl e => rest = [] /\ outcome r = Raised e
    | inr infile =>
        exists copied rest2,
          rest = EvCopyfileobj infile dllfile copied :: EvStreamClose infile :: rest2 /\
          match copied with
          | Some e => rest2 = [] /\ outcome r = Raised e
          | None =>
              exists closed,
                rest2 = [EvFileClose dllfile closed] /\
                outcome r = match closed with
                            | Some e => Raised e
                            | None => Returned tt
                            end
          end
    end.
Proof.
  by_wp. unfold write_contents. cbn. intros [] [e|infile]; cbn.
  - split; [reflexivity|]. eexists (inl e), _. split; [reflexivity|]. split; reflexivity.
  - intros [e|]; cbn; intros [].
    + cbn. split; [reflexivity|]. eexists (inr infile), _. split; [reflexivity|].
      eexists (Some e), _. split; [reflexivity|]. split; reflexivity.
    + cbn. intros [e|]; cbn; (split; [reflexivity|]);
        eexists (inr infile), _; (split; [reflexivity|]);
        eexists None, _; (split; [reflexivity|]);
        eexists; split; reflexivity.
Qed.

(** X5: the loop that creates the pair makes at most one
    [NamedTemporaryFile] call, leaves the attributes alone, and deletes
    or closes nothing, whatever fails.  When it returns, its events are
    the creation of the lock file, of the dll and of its file object,
    with two messages, and the dll is named [lck_to_dll] of the lock file.
    When it raises, the exception is that of the call that failed, or
    the [ValueError] of [lck_to_dll]: the assertion on the retries is
    never its own. *)
Theorem create_pair_single_attempt (cfg : Config) o w :
  let r := run (create_pair cfg) o w in
  self_after r = o /\
  (attempts (trace r) <= 1)%nat /\
  Forall (fun e => is_cleanup_event e = false) (trace r) /\
  match outcome r with
  | Returned (dllfile, dllfilename, lockfile, lockfilename) =>
      exists h,
        lck_to_dll cfg lockfilename = Ret dllfilename /\
        trace r =
          [EvNamedTemporaryFile (tmp_prefix cfg) lck_suffix false
             (inr (lockfile, lockfilename));
           EvTRACE "%s: Opened lock file: %r" [PStr (dll_name cfg); PStr lockfilename];
           EvCreateFileW dllfilename GENERIC_WRITE 0 CREATE_NEW
             FILE_ATTRIBUTE_NORMAL (inr h);
           EvFdopen h "wb" (inr dllfile);
           EvTRACE "%s: Opened dll file: %r" [PStr (dll_name cfg); PStr dllfilename]]
  | Raised e =>
      In (EvNamedTemporaryFile (tmp_prefix cfg) lck_suffix false (inl e)) (trace r)
      \/ (exists basename, e = ValueError "no match: %r" basename)
      \/ (exists p err,
            e = pywintypes_error err /\
            In (EvCreateFileW p GENERIC_WRITE 0 CREATE_NEW FILE_ATTRIBUTE_NORMAL
                  (inl err)) (trace r))
      \/ (exists h, In (EvFdopen h "wb" (inl e)) (trace r))
  | Blocked => False
  end.
Proof.
  by_wp. unfold create_pair. wp_run; subst; cbn.
  all: repeat match goal with p : _ * _ |- _ => destruct p end; cbn [fst snd] in *.
  all: split; [reflexivity|]; split; [lia|]; split; [repeat constructor|].
  all: try (left; left; reflexivity).
  all: try (right; left; eexists; reflexivity).
  all: try (right; right; left; eexists _, _; split; [reflexivity|];
            right; right; left; reflexivity).
  all: try (right; right; right; eexists; right; right; right; left; reflexivity).
  all: eexists; split; [|reflexivity].
  all: unfold lck_to_dll; match goal with H : lck_regex _ _ = _ |- _ => rewrite H end;
    reflexivity.
Qed.

End Steps.

(* ===================================================================== *)
(** * An extraction that succeeds                                         *)
(* ===================================================================== *)

Section Success.

Context {os : OS}.

(** X4: an extraction that returns has made these calls, in this order:
    the first message, [gettempdir], the cleanup pass, one
    [NamedTemporaryFile], the exclusive creation of the dll named after
    the lock file, the sanity check, the copy of the resource with the
    stream and then the dll file closed, a [LoadLibrary] that succeeded
    and its [FreeLibrary], the two assignments, the read of
    [_extracted_filename] and the last message, which shows what was read.
    Both attributes are set: [_extracted_lockfile] to the file object of
    [NamedTemporaryFile] and [_extracted_filename] to [lck_to_dll] of
    its name; the one file object that was closed is that of the dll. *)
Theorem successful_extraction (cfg : Config) o w :
  let r := run (_win32_extract cfg) o w in
  outcome r = Returned tt ->
  exists temp_dir cleanup lockfile lockfilename h dllfile dllfilename deleted present
         infile dllhandle,
    lck_to_dll cfg lockfilename = Ret dllfilename /\
    self_after r = {| _lock := _lock o;
                      _extracted_lockfile := Some lockfile;
                      _extracted_filename := Some dllfilename |} /\
    Forall (fun e => scan_event e = true) cleanup /\
    trace r =
      EvTRACE fmt_need_to_extract [PStr (dll_name cfg); PStr (dll_basename cfg)]
      :: EvGettempdir (inr temp_dir)
      :: EvTRACE "%s: Temporary directory is %r" [PStr (dll_name cfg); PStr temp_dir]
      :: cleanup
      ++ EvTRACE "%s: Creating .dll & .lck pair ..." [PStr (dll_name cfg)]
      :: EvNamedTemporaryFile (tmp_prefix cfg) lck_suffix false
           (inr (lockfile, lockfilename))
      :: EvTRACE "%s: Opened lock file: %r" [PStr (dll_name cfg); PStr lockfilename]
      :: EvCreateFileW dllfilename GENERIC_WRITE 0 CREATE_NEW FILE_ATTRIBUTE_NORMAL
           (inr h)
      :: EvFdopen h "wb" (inr dllfile)
      :: EvTRACE "%s: Opened dll file: %r" [PStr (dll_name cfg); PStr dllfilename]
      :: sanity_events cfg lockfilename deleted present
      ++ [EvTRACE "%s: Writing dll contents: %r"
            [PStr (dll_name cfg); PStr dllfilename];
          EvResourceStream (package_name cfg) (dll_basename cfg) (inr infile);
          EvCopyfileobj infile dllfile None;
          EvStreamClose infile;
          EvFileClose dllfile None;
          EvTRACE "%s: Testing LoadLibrary: %r"
            [PStr (dll_name cfg); PStr dllfilename];
          EvLoadLibrary dllfilename (inr dllhandle);
          EvTRACE "%s: LoadLibrary succeeded.  Freeing: %r"
            [PStr (dll_name cfg); PStr dllfilename];
          EvFreeLibrary dllhandle;
          EvSetExtractedLockfile lockfile;
          EvSetExtractedFilename dllfilename;
          EvGetExtractedFilename (Some dllfilename);
          EvTRACE "%s: Done extracting %s to %r"
            [PStr (dll_name cfg); PStr (dll_basename cfg); PStr dllfilename]].
Proof.
  cbv zeta. by_wp. unfold _win32_extract. wp_run; subst.
  all: try discriminate.
  all: repeat match goal with p : _ * _ |- _ => destruct p end; cbn [fst snd] in *.
  all: repeat match goal with
              | H : negb _ = true |- _ => apply negb_true_iff in H
              | H : negb _ = false |- _ => apply negb_false_iff in H
              end; subst.
  all: rewrite <- ?app_assoc; cbn [app].
  all: lazymatch goal with
       | |- context [EvUnlink _ ?a :: _] =>
           lazymatch goal with
           | |- context [EvPathExists _ ?b :: _] =>
               eexists _, _, _, _, _, _, _, a, b, _, _
           end
       end.
  all: split;
    [unfold lck_to_dll;
     match goal with H : lck_regex _ _ = _ |- _ => rewrite H end; reflexivity|].
  all: split; [reflexivity|].
  all: split; [eassumption|].
  all: unfold sanity_events; cbn [app];
    repeat match goal with C : (_ =? _) = _ |- _ => rewrite C; clear C end;
    cbn [app]; reflexivity.
Qed.

End Success.

(* ===================================================================== *)
(** * The messages of the module                                          *)
(* ===================================================================== *)

Lemma extract_messages cfg : always sink_accepts (_win32_extract cfg).
Proof.
  unfold _win32_extract. always_run; cbn; eexists; reflexivity.
Qed.

Section Messages.

Context {os : OS}.

(** X13: every message that a call of [dll_filename] sends to [TRACE] or
    [report_bad_assumption] has as many arguments as its format has
    conversions: the fallback sinks of the module, which format with
    [%], print each of them and never raise. *)
Theorem messages_are_well_formed (cfg : Config) o w :
  Forall sink_accepts (trace (run (dll_filename cfg) o w)).
Proof.
  apply always_trace, always_dll_filename; cbn; auto.
  apply extract_messages.
Qed.

End Messages.

(* ===================================================================== *)
(** * The path without its suffix, and the load                           *)
(* ===================================================================== *)

Lemma run_bind {os : OS} {A B} (m : Prog A) (f : A -> Prog B) o w :
  let r := run m o w in
  run (bind m f) o w =
    match outcome r with
    | Returned a => and_then r (run (f a) (self_after r) (world_after r))
    | Raised e => stopped r (Raised e)
    | Blocked => stopped r Blocked
    end.
Proof.
  cbv zeta. revert o w. induction m as [r|e|X c k IH|X c k IH]; intros o w; simpl.
  - destruct (run (f r) o w); reflexivity.
  - reflexivity.
  - destruct (self_exec c o) as [[x o']|]; simpl; [|reflexivity].
    rewrite IH. destruct (outcome (run (k x) o' w)); reflexivity.
  - rewrite IH. destruct (outcome (run (k _) o _)); reflexivity.
Qed.

Lemma cut_last_none sep (s : string) :
  pytext.contains sep s = false -> pytext.cut_last sep s = None.
Proof.
  induction s as [|c s IH]; simpl; [reflexivity|].
  intros H. apply orb_false_iff in H as [Hc Hs]. now rewrite (IH Hs), Hc.
Qed.

Lemma cut_last_suffix sep (x ext : string) :
  pytext.contains sep ext = false ->
  pytext.cut_last sep (x +:+ String sep ext) = Some (x, ext).
Proof.
  intros H. induction x as [|c x IH].
  - rewrite append_nil_l. simpl. now rewrite (cut_last_none _ _ H), Ascii.eqb_refl.
  - rewrite append_cons. simpl. now rewrite IH.
Qed.

Lemma cut_last_some sep (s h t : string) :
  pytext.cut_last sep s = Some (h, t) ->
  s = h +:+ String sep t /\ pytext.contains sep t = false.
Proof.
  revert h t. induction s as [|c s IH]; simpl; [discriminate|]. intros h t.
  destruct (pytext.cut_last sep s) as [[h' t']|] eqn:E.
  - intros [= <- <-]. destruct (IH _ _ eq_refl) as [-> Ht].
    split; [reflexivity|exact Ht].
  - destruct (Ascii.eqb c sep) eqn:Ec; [|discriminate]. intros [= <- <-].
    apply Ascii.eqb_eq in Ec. subst c. split; [reflexivity|].
    clear IH. induction s as [|a s IH]; simpl in *; [reflexivity|].
    destruct (pytext.cut_last sep s) as [[h' t']|]; [discriminate|].
    destruct (Ascii.eqb a sep); [discriminate|]. simpl. apply IH. reflexivity.
Qed.

Lemma rsplit_dll_suffix cfg (x : string) :
  exists ext, pytext.rsplit "." (x +:+ dll_suffix cfg) = [x; ext].
Proof.
  unfold pytext.rsplit, dll_suffix.
  destruct (String.eqb _ _); [|destruct (String.eqb _ _)];
    rewrite cut_last_suffix by reflexivity; eauto.
Qed.

(** Joining a name that ends in the dll suffix. *)
Lemma join_dll_suffix cfg (d g : string) :
  ntpath.join d (g +:+ dll_suffix cfg) = ntpath.join d g +:+ dll_suffix cfg.
Proof.
  assert (H : exists a b r, dll_suffix cfg = String a (String b r) /\
                            ntpath.is_sep a = false /\ Ascii.eqb a ":" = false /\
                            Ascii.eqb b ":" = false).
  { unfold dll_suffix. destruct (String.eqb _ _); [|destruct (String.eqb _ _)];
      eexists _, _, _; repeat split; reflexivity. }
  destruct H as (a & b & r & -> & Ha & Hc & Hb).
  unfold ntpath.join. destruct (ntpath.splitdrive d) as [rd rp].
  destruct g as [|c [|c2 g']]; str_simpl; cbn [ntpath.splitdrive];
    rewrite ?Hb, ?Hc, ?Ha;
    try destruct (Ascii.eqb c2 ":");
    try (destruct g' as [|c3 g'']; str_simpl; rewrite ?Ha);
    repeat match goal with |- context [if ?b then _ else _] => destruct b end;
    cbn;
    repeat (rewrite append_nil_r || rewrite append_assoc || rewrite append_cons
            || rewrite append_nil_l);
    reflexivity.
Qed.

Lemma cut_last_none_inv sep (s : string) :
  pytext.cut_last sep s = None -> pytext.contains sep s = false.
Proof.
  induction s as [|c s IH]; simpl; [reflexivity|].
  destruct (pytext.cut_last sep s) as [[h t]|]; [discriminate|].
  destruct (Ascii.eqb c sep); [discriminate|]. intros _. now apply IH.
Qed.

(** An extraction that returns has cached a path that ends in the dll
    suffix. *)
Lemma extract_names cfg o :
  wp (_win32_extract cfg)
     (fun out o' _ =>
        match out with
        | Returned _ =>
            exists lockfile d g,
              o' = {| _lock := _lock o;
                      _extracted_lockfile := Some lockfile;
                      _extracted_filename :=
                        Some (ntpath.join d (g +:+ dll_suffix cfg)) |}
        | Raised _ => o' = o
        | Blocked => False
        end) o [].
Proof.
  unfold _win32_extract. wp_run; subst; try reflexivity.
  all: destruct o; cbn; eauto.
Qed.

Section Stem.

Context {os : OS}.

Lemma extracted_path_has_suffix (cfg : Config) o w v :
  let r := run (dll_filename cfg) o w in
  _extracted_filename o = None ->
  outcome r = Returned v ->
  In EvLockAcquire (trace r) ->
  exists stem,
    v = Some (stem +:+ dll_suffix cfg) /\
    _extracted_filename (self_after r) = Some (stem +:+ dll_suffix cfg).
Proof.
  cbv zeta. intros Hfn. revert v. by_wp.
  destruct o as [l lf fn]. cbn in Hfn. subst fn.
  unfold dll_filename. cbn. intros [e|path]; cbn.
  - destruct e; cbn; try (intros v [=]).
    unfold dll_filename_extracted, with_lock. cbn.
    destruct l; cbn; [intros v [=]|].
    destruct (pystr.startswith "win" (sys_platform cfg)); cbn; [|intros v [=]].
    apply wp_try_finally, wp_bind, wp_shift.
    eapply wp_mono; [|apply extract_names].
    intros out o' tr' H. destruct out as [[]|e|]; cbn.
    + destruct H as (lockfile & d & g & ->). cbn.
      intros v [= <-] _. exists (ntpath.join d g).
      rewrite join_dll_suffix. auto.
    + intros v [=].
    + destruct H.
  - intros v [= <-] [[=]|[]].
Qed.

(** X14: when [dll_filename_without_suffix] returns after an extraction,
    what it returns followed by the dll suffix of the platform is the
    path that the extraction has cached: the cut at the last dot removes
    the suffix and nothing else. *)
Theorem stem_of_extracted_file (cfg : Config) o w stem :
  let r := run (dll_filename_without_suffix cfg) o w in
  _extracted_filename o = None ->
  outcome r = Returned stem ->
  In EvLockAcquire (trace r) ->
  _extracted_filename (self_after r) = Some (stem +:+ dll_suffix cfg).
Proof.
  cbv zeta. unfold dll_filename_without_suffix. rewrite run_bind.
  intros Hfn.
  pose proof (extracted_path_has_suffix cfg o w) as H. cbv zeta in H.
  destruct (outcome (run (dll_filename cfg) o w)) as [[path|]|e|]; cbn;
    try discriminate.
  destruct (pytext.rsplit "." path) as [|first rest] eqn:E; cbn; [discriminate|].
  rewrite app_nil_r. intros [= ->] Hin.
  destruct (H _ Hfn eq_refl Hin) as (stem' & [= ->] & Hself).
  destruct (rsplit_dll_suffix cfg stem') as [ext Hext].
  rewrite Hext in E. injection E as <- _. exact Hself.
Qed.

(** X15: [dll_filename_without_suffix] makes the calls of [dll_filename]
    and no other.  It raises what [dll_filename] raises; it returns the
    path of [dll_filename] cut before its last dot, wherever that dot
    is, and the whole path when it holds no dot; and it never fails with
    an [IndexError]. *)
Theorem stem_cuts_at_last_dot (cfg : Config) o w :
  let r0 := run (dll_filename cfg) o w in
  let r := run (dll_filename_without_suffix cfg) o w in
  self_after r = self_after r0 /\
  world_after r = world_after r0 /\
  trace r = trace r0 /\
  match outcome r0 with
  | Returned (Some path) =>
      exists stem,
        outcome r = Returned stem /\
        ((pytext.contains "." path = false /\ stem = path) \/
         (exists ext, path = stem +:+ "." +:+ ext /\
                      pytext.contains "." ext = false))
  | Returned None => outcome r = Raised (OtherError "AttributeError")
  | Raised e => outcome r = Raised e
  | Blocked => outcome r = Blocked
  end.
Proof.
  cbv zeta. unfold dll_filename_without_suffix. rewrite run_bind.
  destruct (outcome (run (dll_filename cfg) o w)) as [[path|]|e|]; cbn;
    rewrite ?app_nil_r; auto.
  unfold pytext.rsplit.
  destruct (pytext.cut_last "." path) as [[h t]|] eqn:E; cbn;
    rewrite ?app_nil_r; repeat (split; [reflexivity|]).
  - exists h. split; [reflexivity|]. right.
    destruct (cut_last_some _ _ _ _ E) as [-> Ht]. eauto.
  - exists path. split; [reflexivity|]. left.
    split; [now apply cut_last_none_inv|reflexivity].
Qed.

(** X16: [load_extension] on an object without a cached path.  When
    [dll_filename] raises, [load_extension] raises the same exception
    and the connection is not called.  When [dll_filename] returns after
    an extraction, the connection is asked, next and once, to load the
    path that followed by the dll suffix is the extracted file; the
    outcome of [load_extension] is the outcome of the connection. *)
Theorem load_extension_outcome (cfg : Config) (os_name : string)
    (conn : Connection) o w :
  let r1 := run (dll_filename cfg) o w in
  let r := run (load_extension cfg os_name conn) o w in
  _extracted_filename o = None ->
  match outcome r1 with
  | Returned _ =>
      In EvLockAcquire (trace r1) ->
      exists stem,
        _extracted_filename (self_after r1) = Some (stem +:+ dll_suffix cfg) /\
        r = and_then r1 (run (conn_load_extension conn stem)
                           (self_after r1) (world_after r1))
  | Raised e => r = stopped r1 (Raised e)
  | Blocked => r = stopped r1 Blocked
  end.
Proof.
  cbv zeta. intros Hfn.
  unfold load_extension, dll_filename_without_suffix.
  rewrite !run_bind.
  pose proof (extracted_path_has_suffix cfg o w) as H. cbv zeta in H.
  destruct (run (dll_filename cfg) o w) as [out o1 w1 tr1]. cbn in *.
  destruct out as [v|e|]; cbn; [|reflexivity|reflexivity].
  intros Hin. destruct (H v Hfn eq_refl Hin) as (stem & -> & Hself).
  exists stem. split; [exact Hself|].
  destruct (rsplit_dll_suffix cfg stem) as [ext ->]. cbn.
  unfold and_then. cbn. rewrite app_nil_r. reflexivity.
Qed.

End Stem.

(* ===================================================================== *)
(** * The two patterns                                                    *)
(* ===================================================================== *)

Lemma get_lower (s : string) (i : nat) :
  String.get i (pystr.lower s) = option_map pystr.lower_ascii (String.get i s).
Proof.
  revert i. induction s as [|c s IH]; intros i; [reflexivity|].
  destruct i as [|i]; simpl; [reflexivity|apply IH].
Qed.

Lemma last_get (s : string) c :
  pystr.last s = Some c -> String.get (String.length s - 1) s = Some c.
Proof.
  induction s as [|a s IH]; simpl; [discriminate|].
  destruct (pystr.last s) as [x|] eqn:L.
  - intros [= <-]. specialize (IH eq_refl).
    destruct s as [|b s]; [discriminate|]. simpl in *.
    now rewrite Nat.sub_0_r in *.
  - intros [= <-]. now rewrite (last_none s L).
Qed.

(** Where a match of a pattern ends: at the end of the name, or before
    the newline that ends it; there the name has the suffix, whatever
    the case of its letters. *)
Lemma search_end (prefix suffix s g : string) :
  re.search prefix suffix s = Some g ->
  exists e,
    (e = String.length s \/
     (e = (String.length s - 1)%nat /\ pystr.last s = Some "010"%char)) /\
    (String.length suffix <= e)%nat /\
    pystr.ieq (String.substring (e - String.length suffix)
                 (String.length suffix) s) suffix = true.
Proof.
  unfold re.search. cbv zeta.
  destruct ((String.length prefix + String.length suffix <=? String.length s)%nat
            && pystr.ieq (String.substring 0 (String.length prefix) s) prefix
            && pystr.ieq (String.substring (String.length s - String.length suffix)
                            (String.length suffix) s) suffix) eqn:E1.
  - intros _. apply andb_true_iff in E1 as [E1 E3]. apply andb_true_iff in E1 as [E1 _].
    apply Nat.leb_le in E1. exists (String.length s). split; [auto|]. split; [lia|exact E3].
  - destruct (pystr.last s) as [c|] eqn:L; [|discriminate].
    destruct (Ascii.eqb c "010") eqn:Ec; [|discriminate].
    apply Ascii.eqb_eq in Ec. subst c.
    destruct ((String.length prefix + String.length suffix <=? String.length s - 1)%nat
              && pystr.ieq (String.substring 0 (String.length prefix) s) prefix
              && pystr.ieq (String.substring (String.length s - 1 - String.length suffix)
                              (String.length suffix) s) suffix) eqn:E2; [|discriminate].
    intros _. apply andb_true_iff in E2 as [E2 E3]. apply andb_true_iff in E2 as [E2 _].
    apply Nat.leb_le in E2. exists (String.length s - 1)%nat.
    split; [auto|]. split; [lia|exact E3].
Qed.

(** The byte of the name on which a match ends is the last byte of the
    suffix, up to case. *)
Lemma search_last_byte (prefix suffix s g : string) (k : ascii) :
  re.search prefix suffix s = Some g ->
  String.get (String.length suffix - 1) suffix = Some k ->
  exists e,
    (e = String.length s \/
     (e = (String.length s - 1)%nat /\ pystr.last s = Some "010"%char)) /\
    option_map pystr.lower_ascii (String.get (e - 1) s) = Some (pystr.lower_ascii k).
Proof.
  intros H Hk. destruct (search_end _ _ _ _ H) as (e & He & Hle & Hi).
  exists e. split; [exact He|].
  assert (Hpos : (0 < String.length suffix)%nat).
  { destruct suffix; [discriminate|simpl; lia]. }
  unfold pystr.ieq in Hi. apply String.eqb_eq in Hi.
  apply (f_equal (String.get (String.length suffix - 1))) in Hi.
  rewrite !get_lower, Hk in Hi.
  rewrite substring_correct1 in Hi by lia.
  replace (String.length suffix - 1 + (e - String.length suffix))%nat
    with (e - 1)%nat in Hi by lia.
  exact Hi.
Qed.

(** X10: no name matches both the dll pattern and the lock pattern,
    whatever the platform and the names: the cleanup pass never takes a
    lock file for a dll. *)
Theorem lock_is_never_taken_for_a_dll (cfg : Config) (name : string) :
  dll_regex cfg name = None \/ lck_regex cfg name = None.
Proof.
  destruct (dll_regex cfg name) as [g1|] eqn:E1; [|auto].
  destruct (lck_regex cfg name) as [g2|] eqn:E2; [|auto]. exfalso.
  assert (Hd : exists k, String.get (String.length (dll_suffix cfg) - 1) (dll_suffix cfg)
                         = Some k /\
                         pystr.lower_ascii k <> "k"%char /\
                         pystr.lower_ascii k <> "010"%char).
  { unfold dll_suffix. destruct (String.eqb _ _); [|destruct (String.eqb _ _)];
      eexists; (split; [reflexivity|]); split; discriminate. }
  destruct Hd as (k & Hk & Hk1 & Hk2).
  destruct (search_last_byte _ _ _ _ k E1 Hk) as (e1 & He1 & H1).
  destruct (search_last_byte _ _ _ _ "k"%char E2 eq_refl) as (e2 & He2 & H2).
  destruct He1 as [->|[-> L1]], He2 as [->|[-> L2]].
  - rewrite H1 in H2. injection H2 as H2. now apply Hk1.
  - apply last_get in L2. rewrite L2 in H1. injection H1 as H1. now apply Hk2.
  - apply last_get in L1. rewrite L1 in H2. discriminate.
  - rewrite H1 in H2. injection H2 as H2. now apply Hk1.
Qed.

(* ===================================================================== *)
(** * Callers do not wait for ever                                        *)
(* ===================================================================== *)

Section Progress.

Context {os : OS}.

Lemma can_step_steps {R} (st : Pool R) (i : nat) :
  can_step st i ->
  exists e, pool_log (step_thread st i) = pool_log st ++ [(i, e)].
Proof.
  unfold can_step, step_thread.
  destruct (threads st !! i) as [[r|e|X c k|X c k]|]; try contradiction.
  - destruct (self_exec c (pool_self st)) as [[x o']|]; [|congruence].
    intros _. cbn. eauto.
  - intros _. cbn. eauto.
Qed.

(** X18: [n] threads call [dll_filename] on one fresh object, interleaved
    by any schedule, in any environment.  At every moment, if some
    caller has not finished, then some caller makes a call when it is
    scheduled, and that call is added to the log: the callers never all
    wait for the lock.  And when all callers have finished, the lock is
    free. *)
Theorem callers_never_deadlock (cfg : Config) (n : nat) w (sched : list nat) :
  let st := run_schedule (callers cfg n w) sched in
  (forall i p,
      threads st !! i = Some p -> finished p = false ->
      exists j e,
        can_step st j /\
        pool_log (step_thread st j) = pool_log st ++ [(j, e)]) /\
  ((forall i p, threads st !! i = Some p -> finished p = true) ->
   _lock (pool_self st) = false).
Proof.
  intros st.
  destruct (inv_run cfg sched _ _ _ (inv_init cfg n w)) as (gs & holder & HI).
  fold st in HI. clearbody st.
  assert (Hholder : forall j, holder = Some j ->
             exists pj, threads st !! j = Some pj /\ finished pj = false /\
                        can_step st j).
  { intros j ->. destruct (inv_holder2 _ _ _ _ HI j eq_refl) as [ph Hph].
    pose proof (inv_threads _ _ _ _ HI j) as T. rewrite Hph in T.
    inversion T as [g pj Hok Eg Ep|]; subst. symmetry in Ep.
    cbn in Hok. destruct Hok as (_ & body & -> & Hcs).
    exists (try_finally body (Self lock_release Ret)).
    split; [first [exact Ep|reflexivity]|].
    unfold can_step. rewrite Ep.
    destruct body as [r|e|X c k|X c k]; cbn; try (split; [reflexivity|]); auto;
      try discriminate.
    cbn in Hcs. destruct c; cbn in *; try contradiction; discriminate. }
  split.
  - intros i p Hi Hf.
    assert (Hj : exists j, can_step st j).
    { destruct holder as [j|] eqn:Eh.
      - destruct (Hholder j eq_refl) as (pj & _ & _ & Hc). eauto.
      - exists i. pose proof (inv_threads _ _ _ _ HI i) as T. rewrite Hi in T.
        inversion T as [g p0 Hok Eg Ep|]; subst p0. symmetry in Eg.
        unfold can_step. rewrite Hi.
        destruct g; cbn in Hok.
        + subst p. cbn. exact I.
        + destruct p; try contradiction; discriminate.
        + subst p. cbn. rewrite (inv_lock _ _ _ _ HI). discriminate.
        + pose proof (inv_holder1 _ _ _ _ HI i ph Eg) as C. discriminate.
        + destruct Hok as (path & -> & _). discriminate.
        + destruct Hok as (e & ->). discriminate. }
    destruct Hj as [j Hc]. destruct (can_step_steps st j Hc) as [e He]. eauto.
  - intros Hall. rewrite (inv_lock _ _ _ _ HI).
    destruct holder as [j|]; [|reflexivity].
    destruct (Hholder j eq_refl) as (pj & Hpj & Hf & _).
    rewrite (Hall j pj Hpj) in Hf. discriminate.
Qed.

End Progress.


(* ===================================================================== *)
(** * What the lock file protects                                         *)
(* ===================================================================== *)

Lemma search_group (prefix suffix s g : string) :
  re.search prefix suffix s = Some g -> exists k, g = String.substring 0 k s.
Proof.
  unfold re.search. cbv zeta.
  destruct (_ && _ && _).
  - intros [= <-]. eauto.
  - destruct (pystr.last s) as [c|]; [|discriminate].
    destruct (Ascii.eqb c "010"); [|discriminate].
    destruct (_ && _ && _); [|discriminate]. intros [= <-]. eauto.
Qed.

Lemma last_append_cons (a : string) c (b : string) :
  pystr.last (a +:+ String c b) = pystr.last (String c b).
Proof.
  induction a as [|x a IH]; [reflexivity|].
  rewrite append_cons.
  change (pystr.last (String x (a +:+ String c b)))
    with (match pystr.last (a +:+ String c b) with
          | Some y => Some y
          | None => Some x
          end).
  rewrite IH. simpl. destruct (pystr.last b); reflexivity.
Qed.

Lemma lock_name_is_no_dll_name cfg (g x : string) :
  g +:+ lck_suffix <> x +:+ dll_suffix cfg.
Proof.
  intros H. apply (f_equal pystr.last) in H. revert H.
  unfold lck_suffix, dll_suffix.
  destruct (String.eqb _ _); [|destruct (String.eqb _ _)];
    rewrite !last_append_cons; discriminate.
Qed.

Lemma record_is_no_unlink (e : Event) p a : is_record e = true -> e <> EvUnlink p a.
Proof. destruct e; discriminate. Qed.

Lemma records_hold_no_unlink (tr : list Event) p a :
  Forall (fun e => is_record e = true) tr -> ~ In (EvUnlink p a) tr.
Proof.
  intros F H. rewrite List.Forall_forall in F. specialize (F _ H). discriminate.
Qed.

(** One candidate of the cleanup pass, when the lock file of the dll
    [token] cannot be deleted: the dll is not deleted. *)
Lemma candidate_spares_held cfg temp_dir token b seg :
  let dllname := tmp_prefix cfg +:+ token +:+ dll_suffix cfg in
  let lckname := tmp_prefix cfg +:+ token +:+ lck_suffix in
  let dll := ntpath.join temp_dir dllname in
  let lck := ntpath.join (ntpath.dirname dll) lckname in
  entry_name dllname = true ->
  entry_name b = true ->
  candidate_handled cfg temp_dir b seg ->
  (forall a, In (EvUnlink lck a) seg -> a = Some ERROR_SHARING_VIOLATION) ->
  forall a, ~ In (EvUnlink dll a) seg.
Proof.
  cbv zeta. intros Hn Hb Hc Hheld a Hin.
  unfold candidate_handled in Hc.
  destruct (dll_regex cfg b) as [g|] eqn:E; [|subst seg; destruct Hin].
  destruct Hc as (r0 & rest & -> & Hrest).
  assert (Hg : entry_name (g +:+ lck_suffix) = true).
  { destruct (search_group _ _ _ _ E) as [k ->].
    rewrite entry_name_app, entry_name_substring by exact Hb. reflexivity. }
  destruct Hin as [Heq|Hin].
  { injection Heq as Hp _. apply (f_equal ntpath.basename) in Hp.
    rewrite !basename_join in Hp by assumption.
    rewrite <- append_assoc in Hp. exact (lock_name_is_no_dll_name _ _ _ Hp). }
  assert (Hdel :
            (exists msg r2 rest2,
                rest = msg
                       :: EvTRACE "%s: Deleting %r ..."
                            [PStr (dll_name cfg); PStr (ntpath.join temp_dir b)]
                       :: EvUnlink (ntpath.join temp_dir b) r2 :: rest2 /\
                is_record msg = true /\
                Forall (fun e => is_record e = true) rest2) ->
            r0 <> Some ERROR_SHARING_VIOLATION -> False).
  { intros (msg & r2 & rest2 & -> & Hmsg & Hrec) Hr0.
    destruct Hin as [Hm|[Hm|[Hm|Hm]]].
    - exact (record_is_no_unlink _ _ _ Hmsg Hm).
    - discriminate.
    - injection Hm as Hp _. apply (f_equal ntpath.basename) in Hp.
      rewrite !basename_join in Hp by assumption. subst b.
      unfold dll_regex in E. rewrite search_literal in E. injection E as <-.
      apply Hr0, Hheld. left. rewrite append_assoc. reflexivity.
    - exact (records_hold_no_unlink _ _ _ Hrec Hm). }
  destruct r0 as [code|].
  - destruct (code =? ERROR_FILE_NOT_FOUND) eqn:C.
    + apply Hdel; [exact Hrest|]. apply Z.eqb_eq in C. subst code. discriminate.
    + exact (records_hold_no_unlink _ _ _ Hrest Hin).
  - apply Hdel; [exact Hrest|discriminate].
Qed.

Lemma candidates_spare_held cfg temp_dir token names segs :
  let dllname := tmp_prefix cfg +:+ token +:+ dll_suffix cfg in
  let lckname := tmp_prefix cfg +:+ token +:+ lck_suffix in
  let dll := ntpath.join temp_dir dllname in
  let lck := ntpath.join (ntpath.dirname dll) lckname in
  entry_name dllname = true ->
  Forall (fun b => entry_name b = true) names ->
  Forall2 (candidate_handled cfg temp_dir) names segs ->
  (forall a, In (EvUnlink lck a) (concat segs) -> a = Some ERROR_SHARING_VIOLATION) ->
  forall a, ~ In (EvUnlink dll a) (concat segs).
Proof.
  cbv zeta. intros Hn HN F2. induction F2 as [|b seg names segs Hc F2 IH]; intros Hheld a.
  - intros [].
  - inversion HN as [|? ? Hb HN']; subst. simpl. rewrite in_app_iff. intros [Hin|Hin].
    + revert Hin. apply (candidate_spares_held cfg temp_dir token b seg Hn Hb Hc).
      intros a' Ha'. apply Hheld. simpl. rewrite in_app_iff. auto.
    + revert Hin. apply IH; [exact HN'|].
      intros a' Ha'. apply Hheld. simpl. rewrite in_app_iff. auto.
Qed.

Section Protection.

Context {os : OS}.

(** X19: what the lock file is for.  Take a dll of this payload in the
    temporary directory, named with the prefix, a token and the dll
    suffix, and the lock file that [dll_to_lck] pairs with it.  In a
    cleanup pass that lists directory entries and in which every attempt
    to delete that lock file fails with a sharing violation, because a
    process holds the file open, the dll is never deleted, whatever
    else the directory holds and whatever the other calls answer. *)
Theorem held_pair_survives_cleanup (cfg : Config) (temp_dir token : string) o w :
  let dllname := tmp_prefix cfg +:+ token +:+ dll_suffix cfg in
  let lckname := tmp_prefix cfg +:+ token +:+ lck_suffix in
  let dll := ntpath.join temp_dir dllname in
  let lck := ntpath.join (ntpath.dirname dll) lckname in
  let tr := trace (run (scan cfg temp_dir) o w) in
  entry_name (dll_name cfg) = true ->
  entry_name token = true ->
  (forall names,
      In (EvListdir temp_dir (inr names)) tr ->
      Forall (fun b => entry_name b = true) names) ->
  (forall a, In (EvUnlink lck a) tr -> a = Some ERROR_SHARING_VIOLATION) ->
  dll_to_lck cfg dll = Ret lck /\
  forall a, ~ In (EvUnlink dll a) tr.
Proof.
  cbv zeta. intros Hd Ht.
  assert (Hn : entry_name (tmp_prefix cfg +:+ token +:+ dll_suffix cfg) = true).
  { rewrite !entry_name_app, (entry_name_tmp_prefix cfg Hd), Ht, entry_name_dll_suffix.
    reflexivity. }
  intros Hls Hheld. split.
  { unfold dll_to_lck. rewrite (basename_join _ _ Hn).
    unfold dll_regex. rewrite search_literal, append_assoc. reflexivity. }
  revert Hls Hheld. by_wp. apply wp_scan.
  - intros e _ _ a [[=]|[[=]|[]]].
  - intros names out segs HL.
    assert (K : forall tail,
               (forall names0,
                   In (EvListdir temp_dir (inr names0))
                      (EvListdir temp_dir (inr names) :: concat segs ++ tail) ->
                   Forall (fun b => entry_name b = true) names0) ->
               (forall a,
                   In (EvUnlink
                         (ntpath.join
                            (ntpath.dirname
                               (ntpath.join temp_dir
                                  (tmp_prefix cfg +:+ token +:+ dll_suffix cfg)))
                            (tmp_prefix cfg +:+ token +:+ lck_suffix)) a)
                      (EvListdir temp_dir (inr names) :: concat segs ++ tail) ->
                   a = Some ERROR_SHARING_VIOLATION) ->
               (forall a, ~ In (EvUnlink (ntpath.join temp_dir
                                            (tmp_prefix cfg +:+ token +:+ dll_suffix cfg)) a)
                               tail) ->
               forall a,
                 ~ In (EvUnlink (ntpath.join temp_dir
                                   (tmp_prefix cfg +:+ token +:+ dll_suffix cfg)) a)
                      (EvListdir temp_dir (inr names) :: concat segs ++ tail)).
    { intros tail Hls Hheld Htail a [[=]|Hin].
      apply in_app_iff in Hin as [Hin|Hin]; [|exact (Htail a Hin)].
      pose proof (Hls names (or_introl eq_refl)) as HN.
      destruct (loop_entries_candidates _ _ _ _ _ HN HL) as [_ F2].
      revert Hin. apply (candidates_spare_held cfg temp_dir token names segs Hn HN F2).
      intros a' Ha'. apply Hheld. right. apply in_app_iff. auto. }
    destruct out as [[]|e|]; [| |exact I].
    + intros Hls Hheld. specialize (K []). rewrite app_nil_r in K.
      apply K; auto.
    + intros Hls Hheld. apply K; auto. intros a [[=]|[]].
Qed.

End Protection.

Lemma held_pair_survives_cleanup_witness :
  let tr := trace (@run Sim.os _ (scan shipped "C:\Temp") __init__ stale_world) in
  dll_to_lck shipped (leftover "bbbbbb.dll") = Ret (leftover "bbbbbb.lck") /\
  forall a, ~ In (EvUnlink (leftover "bbbbbb.dll") a) tr.
Proof.
  apply (@held_pair_survives_cleanup Sim.os shipped "C:\Temp" "bbbbbb" __init__
           stale_world).
  - reflexivity.
  - reflexivity.
  - intros names H. vm_compute in H.
    repeat (destruct H as [H|H]; [try discriminate|]); [|destruct H].
    injection H as <-. repeat (constructor; [vm_compute; reflexivity|]). constructor.
  - intros a H. vm_compute in H.
    repeat (destruct H as [H|H]; [try discriminate|]); [|destruct H].
    injection H as <-. reflexivity.
Defined.

Lemma Forall2_In_left {A B} (P : A -> B -> Prop) (xs : list A) (ys : list B) x :
  Forall2 P xs ys -> In x xs -> exists y, In y ys /\ P x y.
Proof.
  induction 1 as [|a b xs ys Hab F IH]; intros Hin; [destruct Hin|].
  destruct Hin as [->|Hin].
  - exists b. split; [left; reflexivity|exact Hab].
  - destruct (IH Hin) as (y & Hy & Hp). exists y. split; [right; exact Hy|exact Hp].
Qed.

Lemma in_concat_of {A} (x : A) (seg : list A) (segs : list (list A)) :
  In seg segs -> In x seg -> In x (concat segs).
Proof.
  intros Hs Hx. apply in_concat. eauto.
Qed.

Section Collection.

Context {os : OS}.

(** The segments of a cleanup pass over directory entries. *)
Lemma scan_segments (cfg : Config) (temp_dir : string) o w names :
  fst (os_exec (listdir temp_dir) w) = inr names ->
  Forall (fun b => entry_name b = true) names ->
  exists segs,
    trace (run (scan cfg temp_dir) o w)
      = EvListdir temp_dir (inr names) :: concat segs /\
    Forall2 (candidate_handled cfg temp_dir) names segs.
Proof.
  intros Hls HN.
  assert (H : forall names' rest,
             trace (run (scan cfg temp_dir) o w)
               = EvListdir temp_dir (inr names') :: rest ->
             Forall (fun b => entry_name b = true) names' ->
             exists segs, rest = concat segs /\
                          Forall2 (candidate_handled cfg temp_dir) names' segs).
  { by_wp. apply wp_scan.
    - intros e names' rest [=].
    - intros names' out segs HL. destruct out as [u|e|]; auto.
      + intros names2 rest [= <- <-] HN2.
        destruct (loop_entries_candidates _ _ _ _ _ HN2 HL) as [_ F2]. eauto.
      + intros names2 rest [= <- <-] HN2.
        destruct (loop_entries_candidates _ _ _ _ _ HN2 HL) as [[=] _]. }
  assert (Hhd : exists rest, trace (run (scan cfg temp_dir) o w)
                             = EvListdir temp_dir (inr names) :: rest).
  { unfold scan. cbn. rewrite Hls. eauto. }
  destruct Hhd as [rest Hrest].
  destruct (H names rest Hrest HN) as (segs & -> & F2).
  exists segs. split; [exact Hrest|exact F2].
Qed.

(** X20: temporary files do not accumulate.  When the listing of the
    temporary directory, made of directory entries, holds a dll of this
    payload (the prefix, a token, the dll suffix), the cleanup pass tries
    to delete the lock file that [dll_to_lck] pairs with it; and when
    that delete succeeds, or finds no lock file, the pass tries to
    delete the dll too. *)
Theorem orphaned_dll_is_deleted (cfg : Config) (temp_dir token : string) o w names :
  let dllname := tmp_prefix cfg +:+ token +:+ dll_suffix cfg in
  let lckname := tmp_prefix cfg +:+ token +:+ lck_suffix in
  let dll := ntpath.join temp_dir dllname in
  let lck := ntpath.join (ntpath.dirname dll) lckname in
  let tr := trace (run (scan cfg temp_dir) o w) in
  fst (os_exec (listdir temp_dir) w) = inr names ->
  Forall (fun b => entry_name b = true) names ->
  In dllname names ->
  exists a,
    In (EvUnlink lck a) tr /\
    (a = None \/ a = Some ERROR_FILE_NOT_FOUND ->
     exists a2, In (EvUnlink dll a2) tr).
Proof.
  cbv zeta. intros Hls HN Hin.
  destruct (scan_segments cfg temp_dir o w names Hls HN) as (segs & -> & F2).
  destruct (Forall2_In_left _ _ _ _ F2 Hin) as (seg & Hseg & Hc).
  unfold candidate_handled, dll_regex in Hc. rewrite search_literal in Hc.
  destruct Hc as (a & rest & -> & Hrest).
  exists a. split.
  - right. apply (in_concat_of _ _ _ Hseg). left. rewrite append_assoc. reflexivity.
  - assert (Hdel :
              (exists msg r2 rest2,
                  rest = msg
                         :: EvTRACE "%s: Deleting %r ..."
                              [PStr (dll_name cfg);
                               PStr (ntpath.join temp_dir
                                       (tmp_prefix cfg +:+ token +:+ dll_suffix cfg))]
                         :: EvUnlink (ntpath.join temp_dir
                                        (tmp_prefix cfg +:+ token +:+ dll_suffix cfg)) r2
                         :: rest2 /\
                  is_record msg = true /\
                  Forall (fun e => is_record e = true) rest2) ->
              exists a2,
                In (EvUnlink (ntpath.join temp_dir
                                (tmp_prefix cfg +:+ token +:+ dll_suffix cfg)) a2)
                   (EvListdir temp_dir (inr names) :: concat segs)).
    { intros (msg & r2 & rest2 & -> & _ & _). exists r2. right.
      apply (in_concat_of _ _ _ Hseg). right. right. right. left. reflexivity. }
    intros [->| ->]; apply Hdel; exact Hrest.
Qed.

End Collection.

Lemma orphaned_dll_is_deleted_witness :
  let tr := trace (@run Sim.os _ (scan shipped "C:\Temp") __init__ stale_world) in
  exists a,
    In (EvUnlink (leftover "aaaaaa.lck") a) tr /\
    (a = None \/ a = Some ERROR_FILE_NOT_FOUND ->
     exists a2, In (EvUnlink (leftover "aaaaaa.dll") a2) tr).
Proof.
  apply (@orphaned_dll_is_deleted Sim.os shipped "C:\Temp" "aaaaaa" __init__
           stale_world stale_names).
  - vm_compute. reflexivity.
  - repeat (constructor; [vm_compute; reflexivity|]). constructor.
  - vm_compute. pick.
Defined.

(* ===================================================================== *)
(** * More of the simulated directory                                     *)
(* ===================================================================== *)

(** The first message of an extraction, as the fallback [TRACE] prints
    it, and a message with a [%r] conversion. *)
Example example_fallback_trace :
  fallback.TRACE fmt_need_to_extract
    [PStr (dll_name shipped); PStr (dll_basename shipped)]
  = Some (inr "dropbox_sqlite_ext: Need to extract dropbox_sqlite_ext.dll to temporary directory") /\
  fallback.TRACE "%s: Temporary directory is %r" [PStr (dll_name shipped); PStr "C:\Temp"]
  = Some (inr "dropbox_sqlite_ext: Temporary directory is 'C:\\Temp'") /\
  fallback.TRACE "%s: Sanity check..." []
  = Some (inr "%s: Sanity check...") /\
  fallback.TRACE "%s: Sanity check..." [PStr "a"; PStr "b"]
  = Some (inl (OtherError "TypeError")).
Proof. vm_compute. repeat split. Qed.

(** A path whose only dot is in a directory name is cut there. *)
Example example_rsplit :
  pytext.rsplit "." "C:\Temp\dropbox_sqlite_ext.dll" = ["C:\Temp\dropbox_sqlite_ext"; "dll"] /\
  pytext.rsplit "." "C:\my.app\dropbox_sqlite_ext" = ["C:\my"; "app\dropbox_sqlite_ext"] /\
  pytext.rsplit "." "dropbox_sqlite_ext" = ["dropbox_sqlite_ext"].
Proof. vm_compute. repeat split. Qed.

(** SQLite is asked to load the file that the extraction has written. *)
Example example_load_extension :
  let r := @run Sim.os _ (load_extension shipped "nt" sqlite_conn) __init__ scenario_a in
  outcome r = Returned tt /\
  last (trace r) = Some (EvLoadLibrary (leftover "fc6wu2.dll") (inr 4%nat)).
Proof. vm_compute. split; reflexivity. Qed.

Lemma other_platforms_reraise_witness :
  let ask := resource_filename "dropbox_sqlite_ext" "dropbox_sqlite_ext.dylib" in
  let r := @run Sim.os _ (dll_filename (shipped_on "darwin")) __init__ scenario_a in
  outcome r = Raised NotImplementedError /\
  self_after r = __init__ /\
  world_after r = snd (@os_exec Sim.os _ ask scenario_a) /\
  trace r = [EvResourceFilename "dropbox_sqlite_ext" "dropbox_sqlite_ext.dylib"
               (inl NotImplementedError);
             EvLockAcquire; EvGetExtractedFilename None; EvLockRelease].
Proof.
  apply (@other_platforms_reraise Sim.os (shipped_on "darwin") __init__ scenario_a);
    reflexivity.
Defined.

Lemma lock_is_released_witness :
  let r := @run Sim.os _ (dll_filename shipped) __init__ scenario_a in
  outcome r <> Blocked /\
  _lock (self_after r) = false /\
  (In EvLockAcquire (trace r) \/ In EvLockRelease (trace r) ->
   exists a, locked_section
               [EvResourceFilename (package_name shipped) (dll_basename shipped) a]
               (trace r)).
Proof.
  apply (@lock_is_released Sim.os shipped __init__ scenario_a). reflexivity.
Defined.

Lemma successful_extraction_witness :
  let r := @run Sim.os _ (_win32_extract shipped) __init__ scenario_a in
  exists temp_dir cleanup lockfile lockfilename h dllfile dllfilename deleted present
         infile dllhandle,
    lck_to_dll shipped lockfilename = Ret dllfilename /\
    self_after r = {| _lock := false;
                      _extracted_lockfile := Some lockfile;
                      _extracted_filename := Some dllfilename |} /\
    Forall (fun e => scan_event e = true) cleanup /\
    trace r =
      EvTRACE fmt_need_to_extract [PStr (dll_name shipped); PStr (dll_basename shipped)]
      :: EvGettempdir (inr temp_dir)
      :: EvTRACE "%s: Temporary directory is %r" [PStr (dll_name shipped); PStr temp_dir]
      :: cleanup
      ++ EvTRACE "%s: Creating .dll & .lck pair ..." [PStr (dll_name shipped)]
      :: EvNamedTemporaryFile (tmp_prefix shipped) lck_suffix false
           (inr (lockfile, lockfilename))
      :: EvTRACE "%s: Opened lock file: %r" [PStr (dll_name shipped); PStr lockfilename]
      :: EvCreateFileW dllfilename GENERIC_WRITE 0 CREATE_NEW FILE_ATTRIBUTE_NORMAL
           (inr h)
      :: EvFdopen h "wb" (inr dllfile)
      :: EvTRACE "%s: Opened dll file: %r" [PStr (dll_name shipped); PStr dllfilename]
      :: sanity_events shipped lockfilename deleted present
      ++ [EvTRACE "%s: Writing dll contents: %r"
            [PStr (dll_name shipped); PStr dllfilename];
          EvResourceStream (package_name shipped) (dll_basename shipped) (inr infile);
          EvCopyfileobj infile dllfile None;
          EvStreamClose infile;
          EvFileClose dllfile None;
          EvTRACE "%s: Testing LoadLibrary: %r"
            [PStr (dll_name shipped); PStr dllfilename];
          EvLoadLibrary dllfilename (inr dllhandle);
          EvTRACE "%s: LoadLibrary succeeded.  Freeing: %r"
            [PStr (dll_name shipped); PStr dllfilename];
          EvFreeLibrary dllhandle;
          EvSetExtractedLockfile lockfile;
          EvSetExtractedFilename dllfilename;
          EvGetExtractedFilename (Some dllfilename);
          EvTRACE "%s: Done extracting %s to %r"
            [PStr (dll_name shipped); PStr (dll_basename shipped); PStr dllfilename]].
Proof.
  apply (@successful_extraction Sim.os shipped __init__ scenario_a).
  vm_compute. reflexivity.
Defined.

Lemma lock_and_dll_names_pair_witness :
  lck_to_dll shipped (leftover "fc6wu2.lck") = Ret (leftover "fc6wu2.dll") /\
  dll_to_lck shipped (leftover "fc6wu2.dll") = Ret (leftover "fc6wu2.lck") /\
  lck_to_dll shipped (leftover "fc6wu2.lck") = Ret (leftover "fc6wu2.dll") /\
  ntpath.dirname (leftover "fc6wu2.lck") = "C:\Temp" /\
  ntpath.basename (leftover "fc6wu2.lck") = leftover_name "fc6wu2.lck".
Proof.
  apply (lock_and_dll_names_pair shipped (leftover "fc6wu2.lck") "fc6wu2");
    vm_compute; reflexivity.
Defined.

Lemma only_own_files_are_deleted_witness :
  own_file shipped (leftover "aaaaaa.lck").
Proof.
  apply (@only_own_files_are_deleted Sim.os shipped __init__ stale_world
           (leftover "aaaaaa.lck") None).
  vm_compute. pick.
Defined.

Lemma stem_of_extracted_file_witness :
  _extracted_filename
    (self_after (@run Sim.os _ (dll_filename_without_suffix shipped) __init__ scenario_a))
  = Some (leftover "fc6wu2" +:+ dll_suffix shipped).
Proof.
  apply (@stem_of_extracted_file Sim.os shipped __init__ scenario_a (leftover "fc6wu2")).
  - reflexivity.
  - vm_compute. reflexivity.
  - vm_compute. pick.
Defined.

Lemma load_extension_outcome_witness :
  let r1 := @run Sim.os _ (dll_filename shipped) __init__ scenario_a in
  let r := @run Sim.os _ (load_extension shipped "nt" sqlite_conn) __init__ scenario_a in
  exists stem,
    _extracted_filename (self_after r1) = Some (stem +:+ dll_suffix shipped) /\
    r = and_then r1 (@run Sim.os _ (conn_load_extension sqlite_conn stem)
                       (self_after r1) (world_after r1)).
Proof.
  pose proof (@load_extension_outcome Sim.os shipped "nt" sqlite_conn __init__
                scenario_a eq_refl) as H.
  cbv zeta in H.
  assert (E : outcome (@run Sim.os _ (dll_filename shipped) __init__ scenario_a)
              = Returned (Some (leftover "fc6wu2.dll"))) by (vm_compute; reflexivity).
  rewrite E in H. apply H. vm_compute. pick.
Defined.

(** An application that is not frozen: the path of [pkg_resources] is
    returned, and cut at its last dot. *)
Example example_installed :
  let r := @run Sim.os _ (dll_filename_without_suffix shipped) __init__ installed_world in
  outcome r = Returned "dropbox_sqlite_ext\dropbox_sqlite_ext" /\
  trace r = [EvResourceFilename "dropbox_sqlite_ext" "dropbox_sqlite_ext.dll"
               (inr "dropbox_sqlite_ext\dropbox_sqlite_ext.dll")] /\
  self_after r = __init__.
Proof. vm_compute. repeat split. Qed.

(** Two callers: the first takes the lock and reads the attribute; the
    second then waits for the lock, and the first goes on. *)
Example example_waiting_caller :
  let st := @run_schedule Sim.os _ (@callers Sim.os shipped 2 scenario_a)
              [0; 0; 0; 1; 1]%nat in
  can_step st 0%nat /\ ~ can_step st 1%nat /\ length (pool_log st) = 4%nat.
Proof.
  vm_compute. split; [exact I|]. split; [|reflexivity]. intros H. now apply H.
Qed.
